(** * Graph reduction engine of [graph.py]: a shallow embedding

    The Python module reduces an undirected multigraph by eliminating or
    contracting nodes, forking on ambiguous nodes and merging isomorphic
    results.  Python integers are unbounded, so labels and weights are [Z];
    Python lists are [list]; an edge is the list it is in the source (a JSON
    pair [[a, b]], but [node_to_edge] may append a list of any length), and a
    raised exception is the [Raise] branch of [res]. *)

From stdpp Require Import base decidable option list numbers sorting sets.
From Stdlib Require Import ZArith Lia.

Open Scope Z_scope.

(** ** Exceptions *)

Inductive exn : Set :=
| ValueError   (* raised by the validation of [__init__] and by [list.remove] *)
| IndexError.  (* raised by [e[i]] out of range *)

Inductive res (A : Type) : Type :=
| Ok (a : A)
| Raise (e : exn).
Arguments Ok {A} a.
Arguments Raise {A} e.

#[global] Instance res_ret : MRet res := λ A a, Ok a.
#[global] Instance res_bind : MBind res := λ A B k m,
  match m with
  | Ok a => k a
  | Raise e => Raise e
  end.

(** ** Python list primitives *)

(** [l.remove(x)]: drops the first element equal to [x], [ValueError] when
    there is none. *)
Fixpoint py_remove {A} `{EqDecision A} (x : A) (l : list A) : res (list A) :=
  match l with
  | [] => Raise ValueError
  | y :: l' =>
      if decide (y = x) then Ok l'
      else l'' ← py_remove x l' ; Ok (y :: l'')
  end.

(** [l.index(x)]: position of the first element equal to [x]. *)
Fixpoint py_index {A} `{EqDecision A} (x : A) (l : list A) : res nat :=
  match l with
  | [] => Raise ValueError
  | y :: l' =>
      if decide (y = x) then Ok 0%nat
      else i ← py_index x l' ; Ok (S i)
  end.

(** [l[i]] for a non-negative index. *)
Definition getitem {A} (l : list A) (i : nat) : res A :=
  match l !! i with
  | Some x => Ok x
  | None => Raise IndexError
  end.

(** [l.count(x)]. *)
Fixpoint py_count {A} `{EqDecision A} (x : A) (l : list A) : nat :=
  match l with
  | [] => 0%nat
  | y :: l' => if decide (y = x) then S (py_count x l') else py_count x l'
  end.

(** ** The [Graph] class *)

Abbreviation edge := (list Z) (only parsing).

Record Graph : Type := mkGraph {
  nodes : list Z;
  edges : list edge;
  count : Z
}.

#[global] Instance Graph_eq_dec : EqDecision Graph.
Proof. solve_decision. Defined.

Definition set_count (g : Graph) (c : Z) : Graph :=
  mkGraph (nodes g) (edges g) c.
Definition set_nodes (g : Graph) (ns : list Z) : Graph :=
  mkGraph ns (edges g) (count g).

(** [if not (x in self.nodes): self.nodes.append(x)]. *)
Definition add_node (x : Z) (ns : list Z) : list Z :=
  if decide (x ∈ ns) then ns else ns ++ [x].

(** The loop of [__init__]: [e[0]<=0 or e[1]<=0] evaluates [e[1]] only when
    [e[0]] is positive. *)
Fixpoint init_loop (es : list edge) (ns : list Z) : res (list Z) :=
  match es with
  | [] => Ok ns
  | e :: es' =>
      a ← getitem e 0 ;
      if decide (a ≤ 0) then Raise ValueError else
      b ← getitem e 1 ;
      if decide (b ≤ 0) then Raise ValueError else
      init_loop es' (add_node b (add_node a ns))
  end.

(** [Graph(edges, count)] with an explicit edge list. *)
Definition Graph_init (es : list edge) (c : Z) : res Graph :=
  ns ← init_loop es [] ; Ok (mkGraph ns es c).

(** [e[not e.index(n)]]: [not 0] is [True], index 1; every other position
    gives [False], index 0. *)
Definition other_end (n : Z) (e : edge) : res Z :=
  i ← py_index n e ;
  getitem e (match i with O => 1 | S _ => 0 end)%nat.

(** The loop of [remove_node] runs over a copy of the edge list and removes
    from the live one. *)
Fixpoint remove_node_loop (n : Z) (copy live : list edge) : res (list edge) :=
  match copy with
  | [] => Ok live
  | e :: rest =>
      if decide (n ∈ e) then
        live' ← py_remove e live ; remove_node_loop n rest live'
      else remove_node_loop n rest live
  end.

Definition remove_node (g : Graph) (n : Z) : res Graph :=
  ns ← py_remove n (nodes g) ;
  es ← remove_node_loop n (edges g) (edges g) ;
  Ok (mkGraph ns es (count g)).

(** The loop of [node_to_edge]; [nei] collects the far ends of the edges at
    [n] whose first two entries differ. *)
Fixpoint node_to_edge_loop (n : Z) (copy live : list edge) (nei : list Z)
  : res (list edge * list Z) :=
  match copy with
  | [] => Ok (live, nei)
  | e :: rest =>
      if decide (n ∈ e) then
        live' ← py_remove e live ;
        a ← getitem e 0 ;
        b ← getitem e 1 ;
        if decide (a = b) then node_to_edge_loop n rest live' nei
        else x ← other_end n e ; node_to_edge_loop n rest live' (nei ++ [x])
      else node_to_edge_loop n rest live nei
  end.

Definition node_to_edge (g : Graph) (n : Z) : res Graph :=
  ns ← py_remove n (nodes g) ;
  '(es, nei) ← node_to_edge_loop n (edges g) (edges g) [] ;
  Ok (mkGraph ns (es ++ [nei]) (count g)).

Fixpoint list_nei_loop (n : Z) (es : list edge) (c : list Z) : res (list Z) :=
  match es with
  | [] => Ok c
  | e :: rest =>
      if decide (n ∈ e) then
        x ← other_end n e ; list_nei_loop n rest (c ++ [x])
      else list_nei_loop n rest c
  end.

Definition list_nei (g : Graph) (n : Z) : res (list Z) :=
  list_nei_loop n (edges g) [].

(** [all_nei]: the neighbour list of every node, each wrapped in a list. *)
Fixpoint all_nei_loop (g : Graph) (ns : list Z) (nei : list (list (list Z)))
  : res (list (list (list Z))) :=
  match ns with
  | [] => Ok nei
  | n :: rest => c ← list_nei g n ; all_nei_loop g rest (nei ++ [[c]])
  end.

Definition all_nei (g : Graph) : res (list (list (list Z))) :=
  all_nei_loop g (nodes g) [].

(** ** [simplify] *)

(** The dictionary [choices], keyed by (degree, loop count). *)
Definition choices (c l : nat) : option Z :=
  match c, l with
  | 1%nat, 1%nat => Some 4
  | 2%nat, 2%nat => Some 4
  | 0%nat, 0%nat => Some 6
  | 1%nat, 0%nat => Some 3
  | 2%nat, 1%nat => Some 2
  | _, _ => None
  end.

(** First loop of [simplify]: [snapshot] is [g.nodes.copy()], [g] is the
    object being mutated, [m] the flag. *)
Fixpoint pass1 (snapshot : list Z) (g : Graph) (m : bool) : res (Graph * bool) :=
  match snapshot with
  | [] => Ok (g, m)
  | n :: rest =>
      nei ← list_nei g n ;
      let c := length nei in
      let l := py_count n nei in
      match choices c l with
      | Some w =>
          g' ← remove_node (set_count g (count g * w)) n ; pass1 rest g' true
      | None =>
          if decide (c = 3%nat ∧ l = 1%nat) then
            g' ← node_to_edge g n ; pass1 rest g' true
          else pass1 rest g m
      end
  end.

(** Second loop of [simplify]: [snapshot] is the part of the second copy of
    [g.nodes] still to visit, [ns] the whole copy.  [None] when the loop
    falls through. *)
Fixpoint pass2 (snapshot ns : list Z) (g : Graph) : res (option (Graph * Graph)) :=
  match snapshot with
  | [] => Ok None
  | n :: rest =>
      nei ← list_nei g n ;
      let c := length nei in
      let l := py_count n nei in
      if decide (c = 2%nat ∧ l = 0%nat) then
        g1 ← Graph_init (edges g) (count g) ;
        g2 ← Graph_init (edges g) (count g) ;
        g1' ← remove_node (set_nodes g1 ns) n ;
        g2' ← node_to_edge (set_nodes g2 ns) n ;
        Ok (Some (g1', g2'))
      else pass2 rest ns g
  end.

(** The value [simplify] returns: the list of graphs and the flag. *)
Definition simplify (g : Graph) : res (list Graph * bool) :=
  '(g', m) ← pass1 (nodes g) g false ;
  r ← pass2 (nodes g') (nodes g') g' ;
  match r with
  | Some (g1, g2) => Ok ([g1; g2], true)
  | None => Ok ([g'], m)
  end.

(** ** [iso_check] *)

(** What [nx.MultiGraph()] is given: [add_nodes_from(g.nodes)] and
    [add_edges_from(g.edges)]. *)
Record MultiGraph : Type := mkMultiGraph {
  mg_nodes : list Z;
  mg_edges : list edge
}.

Definition to_multigraph (g : Graph) : MultiGraph :=
  mkMultiGraph (nodes g) (edges g).

(** [[len(g.list_nei(n)) for n in g.nodes]]. *)
Fixpoint degrees (g : Graph) (ns : list Z) : res (list nat) :=
  match ns with
  | [] => Ok []
  | n :: rest =>
      nei ← list_nei g n ; ds ← degrees g rest ; Ok (length nei :: ds)
  end.

Definition sorted (l : list nat) : list nat := merge_sort Nat.le l.

(** The three conjuncts of the guard of [iso_check], left to right with the
    short circuit of [and]. *)
Definition prefilter (g1 g2 : Graph) : res bool :=
  if decide (length (nodes g1) = length (nodes g2)) then
    if decide (length (edges g1) = length (edges g2)) then
      d1 ← degrees g1 (nodes g1) ;
      d2 ← degrees g2 (nodes g2) ;
      Ok (bool_decide (sorted d1 = sorted d2))
    else Ok false
  else Ok false.

(** ** Objects

    [Graph] has no [__eq__], so [lst.remove(g)] compares by identity, and
    [p.count += g.count] updates an object that a list holds.  Objects live
    in a heap, a list indexed by address; a Python list of graphs is a list
    of addresses, and allocation appends. *)

Abbreviation obj := nat (only parsing).
Abbreviation heap := (list Graph) (only parsing).

#[global] Instance Graph_inhabited : Inhabited Graph :=
  populate (mkGraph [] [] 1).

Definition deref (h : heap) (a : obj) : Graph := h !!! a.

Definition alloc (h : heap) (g : Graph) : heap * obj := (h ++ [g], length h).

Section Engine.

(** [nx.is_isomorphic], the exact test of NetworkX. *)
Variable is_isomorphic : MultiGraph → MultiGraph → bool.

(** [iso_check] with the list of the calls it makes to the exact test. *)
Definition iso_check_log (g1 g2 : Graph)
  : res (bool * list (MultiGraph * MultiGraph)) :=
  ok ← prefilter g1 g2 ;
  if (ok : bool) then
    let ff := to_multigraph g1 in
    let fg := to_multigraph g2 in
    if is_isomorphic ff fg then Ok (true, [(ff, fg)])
    else Ok (false, [(ff, fg)])
  else Ok (false, []).

Definition iso_check (g1 g2 : Graph) : res bool :=
  r ← iso_check_log g1 g2 ; Ok r.1.

(** [simplify(g)] on the object at [a]: the first loop mutates it in place;
    a fork allocates two new objects, otherwise the object itself is
    returned. *)
Definition simplify_obj (h : heap) (a : obj) : res (heap * list obj * bool) :=
  let g := deref h a in
  '(g', m) ← pass1 (nodes g) g false ;
  let h1 := <[a := g']> h in
  r ← pass2 (nodes g') (nodes g') g' ;
  match r with
  | Some (g1, g2) =>
      let '(h2, a1) := alloc h1 g1 in
      let '(h3, a2) := alloc h2 g2 in
      Ok (h3, [a1; a2], true)
  | None => Ok (h1, [a], m)
  end.

(** The loop of [add_graph_to_list]: [Some h'] when it returned from inside
    the loop, after [p.count += g.count]. *)
Fixpoint add_iso_loop (h : heap) (g : obj) (scan : list obj) : res (option heap) :=
  match scan with
  | [] => Ok None
  | p :: rest =>
      b ← iso_check (deref h g) (deref h p) ;
      if (b : bool) then
        let vp := deref h p in
        Ok (Some (<[p := set_count vp (count vp + count (deref h g))]> h))
      else add_iso_loop h g rest
  end.

Definition add_graph_to_list (h : heap) (g : obj) (lst : list obj)
    (add_iso : bool) : res (heap * list obj) :=
  if add_iso then
    r ← add_iso_loop h g lst ;
    match r with
    | Some h' => Ok (h', lst)
    | None => Ok (h, lst ++ [g])
    end
  else Ok (h, lst ++ [g]).

(** ** [main] *)

Record state : Type := mkState {
  st_heap : heap;
  st_queue : list obj;
  st_final : list obj
}.

(** [[len(g.nodes) for g in queue]]. *)
Definition dimensions (h : heap) (queue : list obj) : list nat :=
  map (λ g, length (nodes (deref h g))) queue.

(** [min(dimensions) if len(set(dimensions))>1 else None]; [min] is only
    reached on a list with two distinct entries. *)
Definition threshold (dims : list nat) : option nat :=
  if decide (1 < length (remove_dups dims))%nat then
    match dims with
    | [] => None
    | d :: ds => Some (foldl Nat.min d ds)
    end
  else None.

(** [not k or len(g.nodes)>k]: [None] and [0] are both falsy. *)
Definition selected (k : option nat) (n : nat) : bool :=
  match k with
  | None => true
  | Some O => true
  | Some k' => bool_decide (k' < n)%nat
  end.

(** [for gr in graph_list: add_graph_to_list(gr, queue, True)]. *)
Fixpoint add_all (h : heap) (graph_list : list obj) (queue : list obj)
  : res (heap * list obj) :=
  match graph_list with
  | [] => Ok (h, queue)
  | gr :: rest =>
      '(h', queue') ← add_graph_to_list h gr queue true ;
      add_all h' rest queue'
  end.

(** The body of the [for] loop of [main] once [g] passed the test. *)
Definition process (s : state) (g : obj) : res state :=
  queue ← py_remove g (st_queue s) ;
  '(h, graph_list, success) ← simplify_obj (st_heap s) g ;
  if (success : bool) then
    '(h', queue') ← add_all h graph_list queue ;
    Ok (mkState h' queue' (st_final s))
  else
    g0 ← getitem graph_list 0 ;
    '(h', final') ← add_graph_to_list h g0 (st_final s) true ;
    Ok (mkState h' queue final').

(** [for g in queue] over the live list: the iterator holds an index [i]
    and stops when it is past the end of the list as it is then.  [None]
    means the fuel ran out. *)
Fixpoint for_queue (fuel : nat) (k : option nat) (i : nat) (s : state)
  : option (res state) :=
  match fuel with
  | O => None
  | S fuel' =>
      match st_queue s !! i with
      | None => Some (Ok s)
      | Some g =>
          if selected k (length (nodes (deref (st_heap s) g))) then
            match process s g with
            | Ok s' => for_queue fuel' k (S i) s'
            | Raise e => Some (Raise e)
            end
          else for_queue fuel' k (S i) s
      end
  end.

(** [while queue]. *)
Fixpoint while_queue (fuel : nat) (s : state) : option (res state) :=
  match fuel with
  | O => None
  | S fuel' =>
      match st_queue s with
      | [] => Some (Ok s)
      | _ :: _ =>
          let k := threshold (dimensions (st_heap s) (st_queue s)) in
          match for_queue fuel' k 0 s with
          | Some (Ok s') => while_queue fuel' s'
          | r => r
          end
      end
  end.

(** [main(init)]; the result is the list [final] with the objects read off
    the heap. *)
Definition main (fuel : nat) (init : list edge) : option (res (list Graph)) :=
  match Graph_init init 1 with
  | Raise e => Some (Raise e)
  | Ok ig =>
      match while_queue fuel (mkState [ig] [0%nat] []) with
      | None => None
      | Some (Raise e) => Some (Raise e)
      | Some (Ok s) => Some (Ok (map (deref (st_heap s)) (st_final s)))
      end
  end.

(** ** [convert_irreducible] *)

(** The inner loop [for p in irr]: the first [p] with [iso_check(g, p)]. *)
Fixpoint find_irr (h : heap) (g : obj) (irr : list obj) : res (option obj) :=
  match irr with
  | [] => Ok None
  | p :: rest =>
      b ← iso_check (deref h g) (deref h p) ;
      if (b : bool) then Ok (Some p) else find_irr h g rest
  end.

(** The outer loop [for g in lst], again over the live list. *)
Fixpoint convert_loop (fuel : nat) (h : heap) (irr : list obj) (i : nat)
    (lst : list obj) (cnt : Z) (m : bool) : option (res (list obj * Z * bool)) :=
  match fuel with
  | O => None
  | S fuel' =>
      match lst !! i with
      | None => Some (Ok (lst, cnt, m))
      | Some g =>
          match find_irr h g irr with
          | Raise e => Some (Raise e)
          | Ok None => convert_loop fuel' h irr (S i) lst cnt m
          | Ok (Some p) =>
              match py_remove g lst with
              | Raise e => Some (Raise e)
              | Ok lst' =>
                  convert_loop fuel' h irr (S i) lst'
                    (cnt * (count (deref h p) * count (deref h g))) true
              end
          end
      end
  end.

Definition convert_irreducible (fuel : nat) (h : heap) (lst irr : list obj)
  : option (res (heap * list obj)) :=
  match irr with
  | [] => Some (Ok (h, lst))
  | _ :: _ =>
      match convert_loop fuel h irr 0 lst 1 false with
      | None => None
      | Some (Raise e) => Some (Raise e)
      | Some (Ok (lst', cnt, m)) =>
          if (m : bool) then
            Some (g ← Graph_init [] cnt ;
                  let '(h', a) := alloc h g in
                  add_graph_to_list h' a lst' true)
          else Some (Ok (h, lst'))
      end
  end.

End Engine.

(** ** The default argument of [__init__]

    [def __init__(self, edges=[], count=1)] evaluates [[]] once, when the
    class body runs, and [self.edges = edges] stores a reference.  Edge lists
    live in a store of their own; address [default_edges] holds the list
    made for the default. *)

Module DefaultArg.

Definition store : Type := list (list edge).
Definition default_edges : nat := 0%nat.

(** The store right after the class definition. *)
Definition store0 : store := [[]].

(** A graph whose [edges] attribute is a reference into the store. *)
Record GraphRef : Type := mkGraphRef {
  r_nodes : list Z;
  r_edges : nat;
  r_count : Z
}.

(** [Graph(edges, count)]: [edges = None] stands for a call that omits the
    argument. *)
Definition Graph_new (st : store) (edges_arg : option nat) (c : Z) : res GraphRef :=
  let a := default default_edges edges_arg in
  ns ← init_loop (st !!! a) [] ;
  Ok (mkGraphRef ns a c).

(** [g.nodes = ns]. *)
Definition assign_nodes (g : GraphRef) (ns : list Z) : GraphRef :=
  mkGraphRef ns (r_edges g) (r_count g).

Definition remove_node_ref (st : store) (g : GraphRef) (n : Z)
  : res (store * GraphRef) :=
  ns ← py_remove n (r_nodes g) ;
  let es := st !!! r_edges g in
  es' ← remove_node_loop n es es ;
  Ok (<[r_edges g := es']> st, mkGraphRef ns (r_edges g) (r_count g)).

Definition node_to_edge_ref (st : store) (g : GraphRef) (n : Z)
  : res (store * GraphRef) :=
  ns ← py_remove n (r_nodes g) ;
  let es := st !!! r_edges g in
  '(es', nei) ← node_to_edge_loop n es es [] ;
  Ok (<[r_edges g := es' ++ [nei]]> st, mkGraphRef ns (r_edges g) (r_count g)).

End DefaultArg.

(** ** Reading the code: total counterparts used in the statements *)

(** The entry [e[not e.index(n)]] selects when [e] has two entries: the
    second when the first is [n], the first otherwise. *)
Definition far_end (n : Z) (e : edge) : Z :=
  match e with
  | a :: b :: _ => if decide (a = n) then b else a
  | _ => 0
  end.

(** [e[0] == e[1]]. *)
Definition is_loop (e : edge) : Prop :=
  match e with
  | a :: b :: _ => a = b
  | _ => False
  end.

#[global] Instance is_loop_dec e : Decision (is_loop e).
Proof. destruct e as [|a [|b e]]; simpl; apply _. Defined.

(** Edges that touch [n], edges that do not. *)
Definition at_node (n : Z) (es : list edge) : list edge :=
  filter (λ e, n ∈ e) es.
Definition off_node (n : Z) (es : list edge) : list edge :=
  filter (λ e, n ∉ e) es.

(** The neighbour list of [n]: one entry per edge at [n]. *)
Definition neighbours (n : Z) (es : list edge) : list Z :=
  far_end n <$> at_node n es.

(** The edge [node_to_edge] builds: far ends of the edges at [n] that are
    not self-loops, in edge order. *)
Definition bridge (n : Z) (es : list edge) : edge :=
  far_end n <$> filter (λ e, ¬ is_loop e) (at_node n es).

(** Every edge at [n] has at least the two entries the code indexes. *)
Definition indexable (n : Z) (es : list edge) : Prop :=
  Forall (λ e, n ∈ e → (2 ≤ length e)%nat) es.

(** Edges as the data model has them: pairs. *)
Definition pairs (es : list edge) : Prop :=
  Forall (λ e, length e = 2%nat) es.

(** The data-model invariant: edge endpoints are nodes, labels are
    positive, the weight is at least 1. *)
Definition closed (g : Graph) : Prop :=
  ∀ e x, e ∈ edges g → x ∈ e → x ∈ nodes g.
Definition positive (g : Graph) : Prop :=
  Forall (λ x, 0 < x) (nodes g).
Definition inv (g : Graph) : Prop :=
  closed g ∧ positive g ∧ 1 ≤ count g.

(** What [simplify] and [main] keep of a graph built by [__init__] from
    pairs: the part of the invariant that does not mention the weight, with
    pair edges and distinct nodes. *)
Definition wf (g : Graph) : Prop :=
  closed g ∧ positive g ∧ pairs (edges g) ∧ NoDup (nodes g).

(** [simplify(g)] returns [modified == False]. *)
Definition irreducible (g : Graph) : Prop :=
  ∃ gs, simplify g = Ok (gs, false).

(** ** The rules of [simplify] as total functions

    What the two loops compute on a graph with pair edges and distinct
    nodes, where no exception can arise: the source loops are proved equal
    to these below. *)

(** [removeNode]: [n] leaves the nodes, the edges at [n] leave the edges. *)
Definition delete_node (g : Graph) (n : Z) : Graph :=
  mkGraph (filter (λ x, x ≠ n) (nodes g)) (off_node n (edges g)) (count g).

(** [contractNode]: as [delete_node], and the bridge is appended. *)
Definition contract_node (g : Graph) (n : Z) : Graph :=
  mkGraph (filter (λ x, x ≠ n) (nodes g))
    (off_node n (edges g) ++ [bridge n (edges g)]) (count g).

(** Degree [c] and loop count [l] of [n] in the graph as it is now. *)
Definition degree (g : Graph) (n : Z) : nat :=
  length (neighbours n (edges g)).
Definition loops (g : Graph) (n : Z) : nat :=
  py_count n (neighbours n (edges g)).

(** One node of pass 1: the graph after it, and whether a rule applied. *)
Definition rule (g : Graph) (n : Z) : Graph * bool :=
  match choices (degree g n) (loops g n) with
  | Some w => (delete_node (set_count g (count g * w)) n, true)
  | None =>
      if decide (degree g n = 3%nat ∧ loops g n = 1%nat)
      then (contract_node g n, true)
      else (g, false)
  end.

(** Pass 1 over a snapshot: each node is classified in the graph left by
    the nodes before it. *)
Fixpoint sweep (snapshot : list Z) (g : Graph) (m : bool) : Graph * bool :=
  match snapshot with
  | [] => (g, m)
  | n :: rest => sweep rest (rule g n).1 (m || (rule g n).2)
  end.

(** Pass 2: the first node of degree 2 without loop, if any. *)
Definition ambiguous (g : Graph) (n : Z) : Prop :=
  degree g n = 2%nat ∧ loops g n = 0%nat.

#[global] Instance ambiguous_dec g n : Decision (ambiguous g n).
Proof. unfold ambiguous. apply _. Defined.

Definition fork (g : Graph) : option (Graph * Graph) :=
  match filter (ambiguous g) (nodes g) with
  | [] => None
  | n :: _ => Some (delete_node g n, contract_node g n)
  end.

Definition reduce (g : Graph) : list Graph * bool :=
  let '(g', m) := sweep (nodes g) g false in
  match fork g' with
  | Some (g1, g2) => ([g1; g2], true)
  | None => ([g'], m)
  end.

(** Unique entries in the order of their first occurrence. *)
Fixpoint first_seen (l : list Z) : list Z :=
  match l with
  | [] => []
  | x :: l' => x :: filter (λ y, y ≠ x) (first_seen l')
  end.

(** A valid edge list: pairs of positive labels. *)
Definition valid_edges (es : list edge) : Prop :=
  Forall (λ e, length e = 2%nat ∧ Forall (λ x, 0 < x) e) es.

(** Two graphs that differ at most in their weight. *)
Definition shape_eq (g g' : Graph) : Prop :=
  nodes g = nodes g' ∧ edges g = edges g'.

(** No rule of pass 1 applies to any node, and no node is ambiguous. *)
Definition quiet (g : Graph) : Prop :=
  Forall (λ n, (rule g n).2 = false) (nodes g)
  ∧ filter (ambiguous g) (nodes g) = [].

(** ** The state of [main]

    The measure that decreases: a graph of [n] nodes weighs [3 ^ n], more
    than the two graphs of at most [n - 1] nodes a fork puts back. *)
Definition load (h : heap) (l : list obj) : nat :=
  sum_list_with (λ a, 3 ^ length (nodes (deref h a)))%nat l.

(** Heaps that agree on every object up to the weight. *)
Definition same_shapes (h h' : heap) : Prop :=
  length h' = length h ∧ ∀ a, shape_eq (deref h a) (deref h' a).

(** What the loops of [main] maintain: queue and final hold distinct,
    allocated objects; all are well formed; those in final are quiet. *)
Definition state_ok (s : state) : Prop :=
  (∀ a, a ∈ st_queue s ++ st_final s → (a < length (st_heap s))%nat)
  ∧ NoDup (st_queue s ++ st_final s)
  ∧ (∀ a, a ∈ st_queue s ++ st_final s → wf (deref (st_heap s) a))
  ∧ (∀ a, a ∈ st_final s → quiet (deref (st_heap s) a)).

(** An edge given as a pair, the input type of [__init__]. *)
Definition pair_edge (p : Z * Z) : edge := [p.1; p.2].

(** An endpoint that the validation of [__init__] rejects. *)
Definition bad_pair (p : Z * Z) : Prop := p.1 ≤ 0 ∨ p.2 ≤ 0.

#[global] Instance bad_pair_dec p : Decision (bad_pair p).
Proof. unfold bad_pair. apply _. Defined.

(** The invariants are decidable, so a concrete graph is checked by
    evaluation. *)
#[global] Instance closed_dec g : Decision (closed g).
Proof.
  refine (cast_if
            (decide (Forall (λ e, Forall (λ x, x ∈ nodes g) e) (edges g))));
    unfold closed; rewrite Forall_forall in *.
  - intros e x He Hx. specialize (f e He). rewrite Forall_forall in f. auto.
  - intros H. apply n. intros e He. rewrite Forall_forall. eauto.
Defined.

#[global] Instance positive_dec g : Decision (positive g).
Proof. unfold positive. apply _. Defined.

#[global] Instance pairs_dec es : Decision (pairs es).
Proof. unfold pairs. apply _. Defined.

#[global] Instance inv_dec g : Decision (inv g).
Proof. unfold inv. apply _. Defined.

#[global] Instance wf_dec g : Decision (wf g).
Proof. unfold wf. apply _. Defined.

#[global] Instance valid_edges_dec es : Decision (valid_edges es).
Proof. unfold valid_edges. apply _. Defined.

(** The weight a list of objects carries in all. *)
Definition total_weight (h : heap) (l : list obj) : Z :=
  foldr (λ a acc, count (deref h a) + acc) 0 l.

(** What the outer loop of [convert_irreducible] makes of the part of the
    list ahead of its iterator, given the reference [mt g] that matches
    each class [g], if any: a matched class is dropped and multiplied into
    the accumulator, and the class right after it moves under the iterator
    and is kept unexamined. *)
Fixpoint skip_scan (mt : obj → option obj) (h : heap) (ahead : list obj)
    (cnt : Z) (m : bool) : list obj * Z * bool :=
  match ahead with
  | [] => ([], cnt, m)
  | g :: r =>
      match mt g with
      | None =>
          let '(l, c, m') := skip_scan mt h r cnt m in (g :: l, c, m')
      | Some p =>
          let cnt' := cnt * (count (deref h p) * count (deref h g)) in
          match r with
          | [] => ([], cnt', true)
          | x :: r' =>
              let '(l, c, m') := skip_scan mt h r' cnt' true in
              (x :: l, c, m')
          end
      end
  end.

(** No graph of the list is isomorphic, for [iso_check], to one before
    it. *)
Definition distinct_classes (is_isomorphic : MultiGraph → MultiGraph → bool)
    (gs : list Graph) : Prop :=
  ∀ i j a b, (i < j)%nat → gs !! i = Some a → gs !! j = Some b →
             iso_check is_isomorphic b a = Ok false.

(** ** Lemmas on the list primitives *)

Section Primitives.
Context {A : Type} `{EqDecision A}.
Implicit Types (x y : A) (l : list A).

Lemma py_remove_split x l :
  x ∈ l →
  ∃ l1 l2, l = l1 ++ x :: l2 ∧ (x ∉ l1) ∧ py_remove x l = Ok (l1 ++ l2).
Proof.
  induction l as [|y l IH]; intros Hin.
  - by apply elem_of_nil in Hin.
  - simpl. destruct (decide (y = x)) as [-> | Hne].
    + exists [], l. split_and!; [done| |done]. apply not_elem_of_nil.
    + apply elem_of_cons in Hin as [-> | Hin]; [done|].
      destruct (IH Hin) as (l1 & l2 & -> & Hn & ->).
      exists (y :: l1), l2. split_and!; [done| |done].
      rewrite not_elem_of_cons. auto.
Qed.

Lemma py_remove_absent x l : x ∉ l → py_remove x l = Raise ValueError.
Proof.
  induction l as [|y l IH]; [done|].
  rewrite not_elem_of_cons. intros [Hne Hn]. simpl.
  rewrite decide_False by done. by rewrite IH.
Qed.

Lemma py_remove_Ok_inv x l l' :
  py_remove x l = Ok l' →
  ∃ l1 l2, l = l1 ++ x :: l2 ∧ (x ∉ l1) ∧ l' = l1 ++ l2.
Proof.
  intros H. destruct (decide (x ∈ l)) as [Hin|Hn].
  - destruct (py_remove_split x l Hin) as (l1 & l2 & ? & ? & Heq).
    exists l1, l2. rewrite Heq in H. by inversion H.
  - by rewrite py_remove_absent in H.
Qed.

Lemma py_remove_length x l l' :
  py_remove x l = Ok l' → length l = S (length l').
Proof.
  intros (l1 & l2 & -> & _ & ->)%py_remove_Ok_inv.
  rewrite !length_app. simpl. lia.
Qed.

Lemma py_remove_elem_of x l l' y :
  py_remove x l = Ok l' → y ∈ l' → y ∈ l.
Proof.
  intros (l1 & l2 & -> & _ & ->)%py_remove_Ok_inv.
  rewrite !elem_of_app, elem_of_cons. tauto.
Qed.

Lemma py_remove_elem_of_ne x l l' y :
  py_remove x l = Ok l' → y ∈ l → y ≠ x → y ∈ l'.
Proof.
  intros (l1 & l2 & -> & _ & ->)%py_remove_Ok_inv.
  rewrite !elem_of_app, elem_of_cons. tauto.
Qed.

Lemma py_remove_NoDup x l l' :
  py_remove x l = Ok l' → NoDup l → NoDup l' ∧ x ∉ l'.
Proof.
  intros (l1 & l2 & -> & Hn & ->)%py_remove_Ok_inv Hnd.
  apply NoDup_app in Hnd as (H1 & H12 & H2).
  apply NoDup_cons in H2 as [Hx H2]. split.
  - apply NoDup_app. split_and!; [done| |done].
    intros y Hy Hy2. apply (H12 y Hy). by right.
  - rewrite elem_of_app. tauto.
Qed.

Lemma py_remove_filter (P : A → Prop) `{∀ y, Decision (P y)} x l l' :
  py_remove x l = Ok l' → ¬ P x → filter P l' = filter P l.
Proof.
  intros (l1 & l2 & -> & _ & ->)%py_remove_Ok_inv HP.
  rewrite !filter_app, filter_cons_False; done.
Qed.

Lemma py_count_filter x l : py_count x l = length (filter (λ y, y = x) l).
Proof.
  induction l as [|y l IH]; [done|]. simpl. rewrite filter_cons.
  destruct (decide (y = x)); simpl; by rewrite IH.
Qed.

End Primitives.


(** ** The primitives of [Graph] *)

Lemma py_index_Ok {A} `{EqDecision A} (x : A) l : x ∈ l → ∃ i, py_index x l = Ok i.
Proof.
  induction 1 as [y l|y z l Hin IH]; simpl.
  - rewrite decide_True by done. eauto.
  - destruct (decide (z = y)); [eauto|]. destruct IH as [i ->]. eauto.
Qed.

Lemma py_index_cons_ne {A} `{EqDecision A} (x y : A) l :
  x ∈ l → y ≠ x → ∃ i, py_index x (y :: l) = Ok (S i).
Proof.
  intros Hin Hne. destruct (py_index_Ok x l Hin) as [i Hi].
  exists i. simpl. rewrite decide_False by done. by rewrite Hi.
Qed.

Lemma other_end_far_end n e :
  n ∈ e → (2 ≤ length e)%nat → other_end n e = Ok (far_end n e).
Proof.
  intros Hin Hlen. destruct e as [|a [|b e]]; simpl in Hlen; try lia.
  unfold other_end, far_end.
  destruct (decide (a = n)) as [-> | Hne].
  - simpl. by rewrite decide_True.
  - apply elem_of_cons in Hin as [-> | Hin]; [done|].
    destruct (py_index_cons_ne n a (b :: e) Hin Hne) as [i ->]. done.
Qed.

Lemma far_end_ne n e : n ∈ e → ¬ is_loop e → (2 ≤ length e)%nat → far_end n e ≠ n.
Proof.
  destruct e as [|a [|b e]]; simpl; try lia. intros _ Hab _.
  destruct (decide (a = n)); congruence.
Qed.

Lemma far_end_elem_of n e : (2 ≤ length e)%nat → far_end n e ∈ e.
Proof.
  destruct e as [|a [|b e]]; simpl; try lia. intros _.
  destruct (decide (a = n)); rewrite !elem_of_cons; auto.
Qed.

Lemma far_end_pair_loop n e :
  n ∈ e → length e = 2%nat → far_end n e = n ↔ is_loop e.
Proof.
  destruct e as [|a [|b [|c e]]]; simpl; try done. intros Hin _.
  destruct (decide (a = n)) as [-> | Hne]; [done|].
  rewrite !elem_of_cons, elem_of_nil in Hin.
  destruct Hin as [?|[?|[]]]; split; congruence.
Qed.

Lemma filter_all_off n (l : list edge) :
  at_node n l = [] → off_node n l = l.
Proof.
  unfold at_node, off_node. induction l as [|e l IH]; [done|].
  rewrite !filter_cons. destruct (decide (n ∈ e)); [done|].
  intros H. rewrite decide_True by done. f_equal. auto. 
Qed.

Lemma at_node_head n e l (live : list edge) :
  n ∈ e → at_node n live = e :: l →
  ∃ live', py_remove e live = Ok live' ∧ at_node n live' = l
           ∧ off_node n live' = off_node n live.
Proof.
  unfold at_node, off_node. intros Hin.
  induction live as [|e' live IH]; [done|].
  rewrite !filter_cons. cbn [py_remove].
  destruct (decide (n ∈ e')) as [Hin'|Hn'].
  - intros [= -> Hl]. rewrite decide_True by done.
    eexists; split_and!; [done..|].
    by rewrite decide_False by tauto.
  - intros Hl. destruct (IH Hl) as (live' & -> & H1 & H2).
    rewrite decide_False by (intros ->; done).
    eexists; split_and!; [done|..]; rewrite filter_cons.
    + by rewrite decide_False.
    + rewrite !decide_True by done. by rewrite H2.
Qed.

Lemma remove_node_loop_off n copy live :
  at_node n live = at_node n copy →
  remove_node_loop n copy live = Ok (off_node n live).
Proof.
  revert live.
  induction copy as [|e copy IH]; intros live Heq; simpl.
  - by rewrite filter_all_off.
  - unfold at_node in Heq at 2. rewrite filter_cons in Heq.
    destruct (decide (n ∈ e)) as [Hin|Hn].
    + destruct (at_node_head _ _ _ _ Hin Heq) as (live' & -> & H1 & <-).
      by apply IH.
    + by apply IH.
Qed.

Lemma node_to_edge_loop_off n copy live nei :
  indexable n copy →
  at_node n live = at_node n copy →
  node_to_edge_loop n copy live nei
  = Ok (off_node n live, nei ++ bridge n copy).
Proof.
  revert live nei.
  induction copy as [|e copy IH]; intros live nei Hix Heq; simpl.
  - rewrite filter_all_off by done. unfold bridge, at_node.
    by rewrite !filter_nil, app_nil_r.
  - apply Forall_cons in Hix as [He Hix].
    unfold bridge, at_node. unfold at_node in Heq at 2.
    rewrite filter_cons in *.
    destruct (decide (n ∈ e)) as [Hin|Hn]; [|by apply IH].
    destruct (at_node_head _ _ _ _ Hin Heq) as (live' & -> & H1 & <-).
    specialize (He Hin). cbn [mbind res_bind].
    destruct e as [|a [|b e]]; simpl in He; try lia.
    cbn [getitem lookup list_lookup]. cbn [mbind res_bind].
    rewrite filter_cons.
    destruct (decide (a = b)) as [-> | Hab].
    + rewrite decide_False by (simpl; tauto). by apply IH.
    + rewrite decide_True by done. rewrite other_end_far_end by (simpl; done || lia).
      cbn [mbind res_bind]. rewrite IH by done.
      rewrite fmap_cons. by rewrite <- app_assoc.
Qed.

Lemma list_nei_loop_neighbours n es c :
  indexable n es →
  list_nei_loop n es c = Ok (c ++ neighbours n es).
Proof.
  revert c. induction es as [|e es IH]; intros c Hix; simpl.
  - by rewrite app_nil_r.
  - apply Forall_cons in Hix as [He Hix].
    unfold neighbours, at_node. rewrite filter_cons.
    destruct (decide (n ∈ e)) as [Hin|Hn]; [|by apply IH].
    rewrite other_end_far_end by auto. cbn [mbind res_bind].
    rewrite IH by done. rewrite fmap_cons. by rewrite <- app_assoc.
Qed.


(** The loops raise [IndexError] on an edge at [n] with fewer than two
    entries. *)
Lemma list_nei_loop_indexable n es c r :
  list_nei_loop n es c = Ok r → indexable n es.
Proof.
  revert c. induction es as [|e es IH]; intros c H; [by constructor|].
  simpl in H. destruct (decide (n ∈ e)) as [Hin|Hn].
  - destruct (other_end n e) as [x|] eqn:Hx; [|done].
    constructor; [|by eapply IH]. intros _.
    destruct e as [|a [|b e]]; simpl; [by apply elem_of_nil in Hin| |lia].
    apply list_elem_of_singleton in Hin as ->. unfold other_end in Hx.
    simpl in Hx. by rewrite decide_True in Hx.
  - constructor; [done|by eapply IH].
Qed.

Lemma node_to_edge_loop_indexable n copy live nei r :
  at_node n live = at_node n copy →
  node_to_edge_loop n copy live nei = Ok r → indexable n copy.
Proof.
  revert live nei. induction copy as [|e copy IH]; intros live nei Heq H;
    [by constructor|].
  simpl in H. unfold at_node in Heq at 2. rewrite filter_cons in Heq.
  destruct (decide (n ∈ e)) as [Hin|Hn].
  - destruct (at_node_head _ _ _ _ Hin Heq) as (live' & Hrm & H1 & _).
    rewrite Hrm in H. cbn [mbind res_bind] in H.
    destruct e as [|a [|b e]]; [done..|].
    constructor; [simpl; lia|].
    cbn [getitem lookup list_lookup mbind res_bind] in H.
    destruct (decide (a = b)); [by eapply IH|].
    destruct (other_end n (a :: b :: e)); [by eapply IH|done].
  - constructor; [done|by eapply IH].
Qed.

Lemma list_nei_Ok g n :
  indexable n (edges g) → list_nei g n = Ok (neighbours n (edges g)).
Proof. intros H. unfold list_nei. by rewrite list_nei_loop_neighbours. Qed.

Lemma list_nei_Ok_inv g n nei :
  list_nei g n = Ok nei → indexable n (edges g) ∧ nei = neighbours n (edges g).
Proof.
  intros H. pose proof (list_nei_loop_indexable _ _ _ _ H) as Hix.
  rewrite list_nei_Ok in H by done. split; congruence.
Qed.

Lemma remove_node_Ok_inv g n g' :
  remove_node g n = Ok g' →
  ∃ ns, py_remove n (nodes g) = Ok ns
        ∧ g' = mkGraph ns (off_node n (edges g)) (count g).
Proof.
  unfold remove_node. destruct (py_remove n (nodes g)) as [ns|]; [|done].
  cbn [mbind res_bind]. rewrite remove_node_loop_off by done.
  intros [= <-]. eauto.
Qed.

Lemma remove_node_Ok g n :
  n ∈ nodes g →
  ∃ ns, py_remove n (nodes g) = Ok ns
        ∧ remove_node g n = Ok (mkGraph ns (off_node n (edges g)) (count g)).
Proof.
  intros Hin. destruct (py_remove_split n _ Hin) as (l1 & l2 & _ & _ & Hrm).
  eexists. split; [done|]. unfold remove_node. rewrite Hrm.
  cbn [mbind res_bind]. by rewrite remove_node_loop_off.
Qed.

Lemma node_to_edge_Ok_inv g n g' :
  node_to_edge g n = Ok g' →
  indexable n (edges g)
  ∧ ∃ ns, py_remove n (nodes g) = Ok ns
          ∧ g' = mkGraph ns (off_node n (edges g) ++ [bridge n (edges g)])
                   (count g).
Proof.
  unfold node_to_edge. destruct (py_remove n (nodes g)) as [ns|]; [|done].
  cbn [mbind res_bind].
  destruct (node_to_edge_loop n (edges g) (edges g) []) as [[es nei]|] eqn:H;
    [|done].
  pose proof (node_to_edge_loop_indexable _ _ _ _ _ eq_refl H) as Hix.
  rewrite node_to_edge_loop_off in H by done. injection H as <- <-.
  intros [= <-]. eauto.
Qed.

Lemma node_to_edge_Ok g n :
  n ∈ nodes g → indexable n (edges g) →
  ∃ ns, py_remove n (nodes g) = Ok ns
        ∧ node_to_edge g n
          = Ok (mkGraph ns (off_node n (edges g) ++ [bridge n (edges g)])
                  (count g)).
Proof.
  intros Hin Hix. destruct (py_remove_split n _ Hin) as (l1 & l2 & _ & _ & Hrm).
  eexists. split; [done|]. unfold node_to_edge. rewrite Hrm.
  cbn [mbind res_bind]. by rewrite node_to_edge_loop_off.
Qed.

(** ** Counting on pair edges *)

Lemma pairs_indexable n es : pairs es → indexable n es.
Proof. intros H. eapply Forall_impl; [done|]. simpl. intros e ->. lia. Qed.

Lemma pairs_off_node n es : pairs es → pairs (off_node n es).
Proof.
  unfold pairs. rewrite !Forall_forall. intros H e He.
  apply list_elem_of_filter in He as [_ He]. auto.
Qed.

Lemma neighbours_length n es : length (neighbours n es) = length (at_node n es).
Proof. unfold neighbours. by rewrite length_fmap. Qed.

(** The loop count of [n] and the length of the bridge add up to the
    degree. *)
Lemma bridge_length n es :
  pairs es →
  (length (bridge n es) + py_count n (neighbours n es)
   = length (neighbours n es))%nat.
Proof.
  unfold bridge, neighbours, at_node.
  induction 1 as [|e es He Hes IH]; [done|].
  rewrite filter_cons. destruct (decide (_ ∈ _)) as [Hin|Hn]; [|done].
  rewrite filter_cons, fmap_cons. cbn [py_count length].
  pose proof (far_end_pair_loop n e Hin He) as Hl.
  destruct (decide (¬ is_loop e)) as [Hnl|Hl'].
  - rewrite decide_False by tauto. rewrite fmap_cons. simpl. lia.
  - rewrite decide_True by (destruct (decide (is_loop e)); tauto). lia.
Qed.

Lemma bridge_elem_of n es x :
  indexable n es → x ∈ bridge n es →
  x ≠ n ∧ ∃ e, e ∈ es ∧ n ∈ e ∧ x ∈ e.
Proof.
  unfold bridge, at_node. intros Hix Hx.
  apply list_elem_of_fmap in Hx as (e & -> & He).
  apply list_elem_of_filter in He as [Hnl He].
  apply list_elem_of_filter in He as [Hin He].
  unfold indexable in Hix. rewrite Forall_forall in Hix.
  specialize (Hix e He Hin).
  split; [by apply far_end_ne|]. exists e. split_and!; [done..|].
  by apply far_end_elem_of.
Qed.


(** ** The primitives against their total counterparts *)

Lemma py_remove_NoDup_filter (x : Z) l :
  NoDup l → x ∈ l → py_remove x l = Ok (filter (λ y, y ≠ x) l).
Proof.
  intros Hnd Hin. destruct (py_remove_split x l Hin) as (l1 & l2 & -> & Hn & ->).
  apply NoDup_app in Hnd as (_ & _ & H2). apply NoDup_cons in H2 as [Hx _].
  f_equal. rewrite filter_app, filter_cons_False by tauto.
  assert (∀ l : list Z, x ∉ l → filter (λ y, y ≠ x) l = l) as Hid.
  { clear. induction l as [|y l IH]; [done|]. rewrite not_elem_of_cons.
    intros [? ?]. rewrite filter_cons_True by done. f_equal. auto. }
  by rewrite !Hid.
Qed.

Lemma remove_node_delete g n :
  NoDup (nodes g) → n ∈ nodes g → remove_node g n = Ok (delete_node g n).
Proof.
  intros Hnd Hin. destruct (remove_node_Ok g n Hin) as (ns & Hrm & ->).
  rewrite py_remove_NoDup_filter in Hrm by done. by injection Hrm as <-.
Qed.

Lemma node_to_edge_contract g n :
  NoDup (nodes g) → n ∈ nodes g → indexable n (edges g) →
  node_to_edge g n = Ok (contract_node g n).
Proof.
  intros Hnd Hin Hix. destruct (node_to_edge_Ok g n Hin Hix) as (ns & Hrm & ->).
  rewrite py_remove_NoDup_filter in Hrm by done. by injection Hrm as <-.
Qed.

(** ** The data-model invariant under the primitives *)

Lemma closed_off_node g n ns c :
  closed g → py_remove n (nodes g) = Ok ns →
  closed (mkGraph ns (off_node n (edges g)) c).
Proof.
  intros Hcl Hrm e x He Hx. simpl in *.
  apply list_elem_of_filter in He as [Hn He].
  eapply py_remove_elem_of_ne; [done|by eapply Hcl|].
  intros ->. done.
Qed.

Lemma closed_bridge g n ns c :
  closed g → indexable n (edges g) → py_remove n (nodes g) = Ok ns →
  closed (mkGraph ns (off_node n (edges g) ++ [bridge n (edges g)]) c).
Proof.
  intros Hcl Hix Hrm e x He Hx. simpl in *.
  apply elem_of_app in He as [He|He].
  - by eapply (closed_off_node g n ns c).
  - apply list_elem_of_singleton in He as ->.
    apply bridge_elem_of in Hx as (Hne & e & He & _ & Hx); [|done].
    eapply py_remove_elem_of_ne; [done|by eapply Hcl|done].
Qed.

Lemma positive_py_remove n (l l' : list Z) :
  py_remove n l = Ok l' → Forall (λ x, 0 < x) l → Forall (λ x, 0 < x) l'.
Proof.
  rewrite !Forall_forall. intros Hrm H x Hx.
  apply H. by eapply py_remove_elem_of.
Qed.

Lemma remove_node_inv g n g' : inv g → remove_node g n = Ok g' → inv g'.
Proof.
  intros (Hcl & Hpos & Hc) (ns & Hrm & ->)%remove_node_Ok_inv.
  split_and!; [by eapply closed_off_node|by eapply positive_py_remove|done].
Qed.

Lemma node_to_edge_inv g n g' : inv g → node_to_edge g n = Ok g' → inv g'.
Proof.
  intros (Hcl & Hpos & Hc) (Hix & ns & Hrm & ->)%node_to_edge_Ok_inv.
  split_and!; [by eapply closed_bridge|by eapply positive_py_remove|done].
Qed.

(** ** Well-formed graphs under the total rules *)

Lemma delete_node_nodes_length g n :
  NoDup (nodes g) → n ∈ nodes g →
  S (length (nodes (delete_node g n))) = length (nodes g).
Proof.
  intros Hnd Hin. pose proof (py_remove_NoDup_filter n _ Hnd Hin) as H.
  apply py_remove_length in H. simpl. lia.
Qed.

Lemma delete_node_wf g n : wf g → n ∈ nodes g → wf (delete_node g n).
Proof.
  intros (Hcl & Hpos & Hp & Hnd) Hin.
  pose proof (py_remove_NoDup_filter n _ Hnd Hin) as Hrm.
  split_and!.
  - by apply (closed_off_node g n).
  - by apply (positive_py_remove n (nodes g)).
  - by apply pairs_off_node.
  - by apply NoDup_filter.
Qed.

Lemma contract_node_wf g n :
  wf g → n ∈ nodes g → length (bridge n (edges g)) = 2%nat →
  wf (contract_node g n).
Proof.
  intros (Hcl & Hpos & Hp & Hnd) Hin Hlen.
  pose proof (py_remove_NoDup_filter n _ Hnd Hin) as Hrm.
  split_and!.
  - apply (closed_bridge g n); [done|by apply pairs_indexable|done].
  - by apply (positive_py_remove n (nodes g)).
  - apply Forall_app. split; [by apply pairs_off_node|].
    by apply Forall_singleton.
  - by apply NoDup_filter.
Qed.

Lemma set_count_wf g c : wf g → wf (set_count g c).
Proof. by intros (? & ? & ? & ?). Qed.


(** ** [simplify] against the total rules *)

(** What one node of pass 1 leaves of the graph. *)
Lemma rule_cases g n :
  (∃ w, choices (degree g n) (loops g n) = Some w
        ∧ rule g n = (delete_node (set_count g (count g * w)) n, true))
  ∨ (choices (degree g n) (loops g n) = None
     ∧ degree g n = 3%nat ∧ loops g n = 1%nat
     ∧ rule g n = (contract_node g n, true))
  ∨ (choices (degree g n) (loops g n) = None
     ∧ ¬ (degree g n = 3%nat ∧ loops g n = 1%nat)
     ∧ rule g n = (g, false)).
Proof.
  unfold rule. destruct (choices _ _) as [w|]; [left; eauto|].
  right. destruct (decide _) as [[? ?]|?]; [left|right]; done.
Qed.

Lemma rule_wf g n : wf g → n ∈ nodes g → wf (rule g n).1.
Proof.
  intros Hwf Hin.
  destruct (rule_cases g n) as [(w & _ & ->)|[(_ & Hc & Hl & ->)|(_ & _ & ->)]];
    simpl; [| |done].
  - apply delete_node_wf; [by apply set_count_wf|done].
  - apply contract_node_wf; [done..|].
    destruct Hwf as (_ & _ & Hp & _).
    pose proof (bridge_length n _ Hp) as H. unfold degree, loops in *. lia.
Qed.

(** A rule that applies removes [n] and nothing else from the nodes. *)
Lemma rule_nodes g n :
  nodes (rule g n).1
  = if (rule g n).2 then filter (λ x, x ≠ n) (nodes g) else nodes g.
Proof.
  by destruct (rule_cases g n) as [(w & _ & ->)|[(_ & _ & _ & ->)|(_ & _ & ->)]].
Qed.

Lemma rule_idle g n : (rule g n).2 = false → (rule g n).1 = g.
Proof.
  by destruct (rule_cases g n) as [(w & _ & ->)|[(_ & _ & _ & ->)|(_ & _ & ->)]].
Qed.

(** One iteration of the first loop of [simplify]. *)
Lemma pass1_cons n rest g m :
  pairs (edges g) → NoDup (nodes g) → n ∈ nodes g →
  pass1 (n :: rest) g m = pass1 rest (rule g n).1 (m || (rule g n).2).
Proof.
  intros Hp Hnd Hin. cbn [pass1].
  rewrite list_nei_Ok by by apply pairs_indexable. cbn [mbind res_bind].
  fold (degree g n) (loops g n). unfold rule.
  destruct (choices _ _) as [w|].
  - rewrite remove_node_delete by done. cbn [mbind res_bind fst snd].
    by rewrite orb_true_r.
  - destruct (decide _) as [[? ?]|?].
    + rewrite node_to_edge_contract by (done || by apply pairs_indexable).
      cbn [mbind res_bind fst snd]. by rewrite orb_true_r.
    + cbn [fst snd]. by rewrite orb_false_r.
Qed.

Lemma elem_of_filter_ne (x n : Z) (l : list Z) : x ∈ l → x ≠ n → x ∈ filter (λ y, y ≠ n) l.
Proof. intros. by apply list_elem_of_filter. Qed.

(** The first loop never raises on a well-formed graph and computes the
    sweep over the snapshot. *)
Lemma pass1_sweep snapshot g m :
  wf g → NoDup snapshot → snapshot ⊆ nodes g →
  pass1 snapshot g m = Ok (sweep snapshot g m).
Proof.
  revert g m. induction snapshot as [|n rest IH]; intros g m Hwf Hnd Hsub;
    [done|].
  apply NoDup_cons in Hnd as [Hn Hnd].
  assert (n ∈ nodes g) as Hin by (apply Hsub; left).
  destruct (Hwf) as (_ & _ & Hp & Hndg).
  rewrite pass1_cons by done. cbn [sweep].
  apply IH; [by apply rule_wf|done|].
  intros x Hx. rewrite rule_nodes.
  assert (x ∈ nodes g) by (apply Hsub; by right).
  destruct (rule g n).2; [|done].
  apply elem_of_filter_ne; [done|]. intros ->. done.
Qed.

Lemma sweep_wf snapshot g m :
  wf g → snapshot ⊆ nodes g → NoDup snapshot → wf (sweep snapshot g m).1.
Proof.
  revert g m. induction snapshot as [|n rest IH]; intros g m Hwf Hsub Hnd;
    [done|].
  apply NoDup_cons in Hnd as [Hn Hnd].
  assert (n ∈ nodes g) as Hin by (apply Hsub; left).
  cbn [sweep]. apply IH; [by apply rule_wf| |done].
  intros x Hx. rewrite rule_nodes.
  assert (x ∈ nodes g) by (apply Hsub; by right).
  destruct (rule g n).2; [|done].
  apply elem_of_filter_ne; [done|]. intros ->. done.
Qed.

(** The flag of pass 1 only goes up. *)
Lemma sweep_flag_true snapshot g : (sweep snapshot g true).2 = true.
Proof. revert g. induction snapshot as [|n rest IH]; intros g; [done|]. apply IH. Qed.

(** Pass 1 reports [false] exactly when it left the graph alone. *)
Lemma sweep_false snapshot g :
  (sweep snapshot g false).2 = false →
  (sweep snapshot g false).1 = g ∧ Forall (λ n, (rule g n).2 = false) snapshot.
Proof.
  revert g. induction snapshot as [|n rest IH]; intros g; [done|].
  cbn [sweep]. rewrite orb_false_l.
  destruct (rule g n).2 eqn:Hr.
  - by rewrite sweep_flag_true.
  - rewrite (rule_idle g n Hr). intros [? ?]%IH. split; [done|].
    by constructor.
Qed.

Lemma sweep_idle snapshot g m :
  Forall (λ n, (rule g n).2 = false) snapshot → sweep snapshot g m = (g, m).
Proof.
  intros H. revert m. induction H as [|n rest Hn Hrest IH]; intros m; [done|].
  cbn [sweep]. rewrite Hn, (rule_idle g n Hn), orb_false_r. apply IH.
Qed.

Lemma sweep_nodes_le snapshot g m :
  (length (nodes (sweep snapshot g m).1) ≤ length (nodes g))%nat.
Proof.
  revert g m. induction snapshot as [|n rest IH]; intros g m; [done|].
  cbn [sweep]. etrans; [apply IH|]. rewrite rule_nodes.
  destruct (rule g n).2; [apply length_filter|done].
Qed.

(** When pass 1 reports [true] from [false], a node left the graph. *)
Lemma sweep_true_lt snapshot g :
  NoDup (nodes g) → NoDup snapshot → snapshot ⊆ nodes g →
  (sweep snapshot g false).2 = true →
  (length (nodes (sweep snapshot g false).1) < length (nodes g))%nat.
Proof.
  revert g. induction snapshot as [|n rest IH]; intros g Hndg Hnd Hsub; [done|].
  apply NoDup_cons in Hnd as [Hn Hnd].
  assert (n ∈ nodes g) as Hin by (apply Hsub; left).
  cbn [sweep]. rewrite orb_false_l.
  destruct (rule g n).2 eqn:Hr.
  - intros _. eapply Nat.le_lt_trans; [apply sweep_nodes_le|].
    rewrite rule_nodes, Hr.
    by apply length_filter_lt with n; [|intros ?].
  - rewrite (rule_idle g n Hr). apply IH; [done..|].
    intros x Hx. apply Hsub. by right.
Qed.


(** ** [__init__] on valid edge lists *)

Lemma valid_edge_inv (e : edge) :
  length e = 2%nat ∧ Forall (λ x, 0 < x) e →
  ∃ a b, e = [a; b] ∧ 0 < a ∧ 0 < b.
Proof.
  intros [Hlen Hpos]. destruct e as [|a [|b [|c e]]]; try done.
  apply Forall_cons in Hpos as [Ha Hpos]. apply Forall_cons in Hpos as [Hb _].
  eauto.
Qed.

(** On a valid edge list the loop adds the endpoints one by one. *)
Lemma init_loop_valid es ns :
  valid_edges es →
  init_loop es ns = Ok (foldl (λ acc x, add_node x acc) ns (concat es)).
Proof.
  intros H. revert ns. induction H as [|e es He Hes IH]; intros ns; [done|].
  destruct (valid_edge_inv e He) as (a & b & -> & Ha & Hb).
  cbn [init_loop getitem lookup list_lookup mbind res_bind].
  rewrite !decide_False by lia. by rewrite IH.
Qed.

Lemma wf_valid_edges g : wf g → valid_edges (edges g).
Proof.
  intros (Hcl & Hpos & Hp & _). unfold valid_edges, pairs, positive in *.
  rewrite !Forall_forall in *. intros e He. split; [auto|].
  rewrite Forall_forall. intros x Hx. apply Hpos. by eapply Hcl.
Qed.

Lemma Graph_init_valid es c :
  valid_edges es →
  ∃ ns, Graph_init es c = Ok (mkGraph ns es c).
Proof.
  intros H. unfold Graph_init. rewrite init_loop_valid by done. eauto.
Qed.

(** ** The second loop of [simplify] *)

Lemma pass2_fork snapshot g :
  wf g → snapshot ⊆ nodes g →
  pass2 snapshot (nodes g) g
  = Ok (match filter (ambiguous g) snapshot with
        | [] => None
        | n :: _ => Some (delete_node g n, contract_node g n)
        end).
Proof.
  intros Hwf. pose proof Hwf as (_ & _ & Hp & Hnd).
  induction snapshot as [|n rest IH]; intros Hsub; [done|].
  assert (n ∈ nodes g) as Hin by (apply Hsub; left).
  cbn [pass2]. rewrite list_nei_Ok by by apply pairs_indexable.
  cbn [mbind res_bind]. fold (degree g n) (loops g n).
  rewrite filter_cons. unfold ambiguous at 1.
  destruct (decide _) as [Ha|Ha].
  - destruct (Graph_init_valid (edges g) (count g)) as [ns ->];
      [by apply wf_valid_edges|].
    cbn [mbind res_bind]. unfold set_nodes. simpl.
    replace (mkGraph (nodes g) (edges g) (count g)) with g by by destruct g.
    rewrite remove_node_delete, node_to_edge_contract
      by (done || by apply pairs_indexable).
    done.
  - apply IH. intros x Hx. apply Hsub. by right.
Qed.

(** On a well-formed graph [simplify] raises nothing and returns what the
    total rules give. *)
Lemma simplify_reduce g : wf g → simplify g = Ok (reduce g).
Proof.
  intros Hwf. pose proof Hwf as (_ & _ & _ & Hnd).
  unfold simplify, reduce. rewrite pass1_sweep by done.
  cbn [mbind res_bind].
  pose proof (sweep_wf (nodes g) g false Hwf (reflexivity _) Hnd) as Hwf'.
  destruct (sweep (nodes g) g false) as [g' m]. simpl in Hwf'.
  rewrite pass2_fork by done. cbn [mbind res_bind]. unfold fork.
  by destruct (filter _ _).
Qed.

Lemma fork_wf g g1 g2 :
  wf g → fork g = Some (g1, g2) →
  wf g1 ∧ wf g2
  ∧ S (length (nodes g1)) = length (nodes g)
  ∧ S (length (nodes g2)) = length (nodes g).
Proof.
  intros Hwf. pose proof Hwf as (_ & _ & Hp & Hnd). unfold fork.
  destruct (filter _ _) as [|n l] eqn:Hf; [done|]. intros [= <- <-].
  assert (n ∈ filter (ambiguous g) (nodes g)) as Hn by (rewrite Hf; left).
  apply list_elem_of_filter in Hn as [[Hc Hl] Hin].
  split_and!.
  - by apply delete_node_wf.
  - apply contract_node_wf; [done..|].
    pose proof (bridge_length n _ Hp) as H. unfold degree, loops in *. lia.
  - by apply delete_node_nodes_length.
  - by apply (delete_node_nodes_length g n).
Qed.

(** The three outcomes of [simplify] on a well-formed graph: untouched,
    shrunk in place, or forked into two smaller graphs. *)
Lemma reduce_cases g :
  wf g →
  (reduce g = ([g], false))
  ∨ (∃ g', reduce g = ([g'], true) ∧ wf g'
           ∧ (length (nodes g') < length (nodes g))%nat)
  ∨ (∃ g1 g2, reduce g = ([g1; g2], true) ∧ wf g1 ∧ wf g2
              ∧ (length (nodes g1) < length (nodes g))%nat
              ∧ (length (nodes g2) < length (nodes g))%nat).
Proof.
  intros Hwf. pose proof Hwf as (_ & _ & _ & Hnd). unfold reduce.
  pose proof (sweep_wf (nodes g) g false Hwf (reflexivity _) Hnd) as Hwf'.
  pose proof (sweep_nodes_le (nodes g) g false) as Hle.
  pose proof (sweep_true_lt (nodes g) g Hnd Hnd (reflexivity _)) as Hlt.
  pose proof (sweep_false (nodes g) g) as Hid.
  destruct (sweep (nodes g) g false) as [g' m]. simpl in *.
  destruct (fork g') as [[g1 g2]|] eqn:Hfork.
  - right; right. exists g1, g2.
    destruct (fork_wf g' g1 g2 Hwf' Hfork) as (? & ? & ? & ?).
    split_and!; [done..|lia|lia].
  - destruct m.
    + right; left. exists g'. split_and!; [done..|]. by apply Hlt.
    + left. destruct (Hid eq_refl) as [-> _]. done.
Qed.


(** ** Irreducible graphs *)

Lemma quiet_reduce g : quiet g → reduce g = ([g], false).
Proof.
  intros [Hq Ha]. unfold reduce, fork. rewrite sweep_idle by done.
  by rewrite Ha.
Qed.

Lemma reduce_false_quiet g gs : reduce g = (gs, false) → quiet g.
Proof.
  unfold reduce. pose proof (sweep_false (nodes g) g) as Hid.
  destruct (sweep (nodes g) g false) as [g' m]. simpl in Hid.
  unfold fork. destruct (filter (ambiguous g') (nodes g')) as [|n l] eqn:Hf;
    [|done].
  intros [= <- ->]. destruct (Hid eq_refl) as [-> Hq]. by split.
Qed.

Lemma quiet_irreducible g : wf g → quiet g → irreducible g.
Proof.
  intros Hwf Hq. exists [g]. by rewrite simplify_reduce, quiet_reduce.
Qed.

Lemma irreducible_quiet g : wf g → irreducible g → quiet g.
Proof.
  intros Hwf [gs H]. rewrite simplify_reduce in H by done.
  injection H as H. by eapply reduce_false_quiet.
Qed.

Lemma shape_eq_refl g : shape_eq g g.
Proof. done. Qed.

Lemma shape_eq_sym g g' : shape_eq g g' → shape_eq g' g.
Proof. by intros [? ?]. Qed.

Lemma shape_eq_trans g1 g2 g3 :
  shape_eq g1 g2 → shape_eq g2 g3 → shape_eq g1 g3.
Proof. intros [? ?] [? ?]. split; congruence. Qed.

Lemma shape_eq_set_count g c : shape_eq g (set_count g c).
Proof. done. Qed.

Lemma shape_eq_wf g g' : shape_eq g g' → wf g → wf g'.
Proof.
  intros [Hn He] (Hcl & Hpos & Hp & Hnd).
  unfold wf, closed, positive in *. rewrite <- Hn, <- He. done.
Qed.

Lemma shape_eq_rule_flag g g' n :
  shape_eq g g' → (rule g n).2 = (rule g' n).2.
Proof.
  intros [Hn He]. unfold rule, degree, loops. rewrite <- He.
  destruct (choices _ _); [done|]. by destruct (decide _).
Qed.

Lemma shape_eq_quiet g g' : shape_eq g g' → quiet g → quiet g'.
Proof.
  intros Hs [Hq Ha]. pose proof Hs as [Hn He]. split.
  - rewrite <- Hn. eapply Forall_impl; [done|]. simpl.
    intros n <-. symmetry. by apply shape_eq_rule_flag.
  - rewrite <- Hn, <- Ha. apply list_filter_iff. intros n.
    unfold ambiguous, degree, loops. by rewrite He.
Qed.

(** ** The exact test is only guarded by computations that cannot raise
    on pair edges *)

Lemma degrees_Ok g ns :
  pairs (edges g) → degrees g ns = Ok (degree g <$> ns).
Proof.
  intros Hp. induction ns as [|n ns IH]; [done|].
  cbn [degrees]. rewrite list_nei_Ok by by apply pairs_indexable.
  cbn [mbind res_bind]. by rewrite IH.
Qed.

Lemma prefilter_Ok g1 g2 :
  pairs (edges g1) → pairs (edges g2) → ∃ b, prefilter g1 g2 = Ok b.
Proof.
  intros H1 H2. unfold prefilter.
  destruct (decide _); [|eauto]. destruct (decide _); [|eauto].
  rewrite !degrees_Ok by done. cbn [mbind res_bind]. eauto.
Qed.

Section EngineFacts.
Variable is_isomorphic : MultiGraph → MultiGraph → bool.

Lemma iso_check_Ok g1 g2 :
  pairs (edges g1) → pairs (edges g2) →
  ∃ b, iso_check is_isomorphic g1 g2 = Ok b.
Proof.
  intros H1 H2. unfold iso_check, iso_check_log.
  destruct (prefilter_Ok g1 g2 H1 H2) as [b ->]. cbn [mbind res_bind].
  destruct b; [|eauto]. destruct (is_isomorphic _ _); eauto.
Qed.

End EngineFacts.


(** ** The heap *)

Lemma deref_insert_eq (h : heap) a v :
  (a < length h)%nat → deref (<[a:=v]> h) a = v.
Proof. intros. unfold deref. by apply list_lookup_total_insert_eq. Qed.

Lemma deref_insert_ne (h : heap) a b v :
  a ≠ b → deref (<[a:=v]> h) b = deref h b.
Proof. intros. unfold deref. by apply list_lookup_total_insert_ne. Qed.

Lemma deref_app_l (h l : heap) a :
  (a < length h)%nat → deref (h ++ l) a = deref h a.
Proof. intros. unfold deref. by apply lookup_total_app_l. Qed.

Lemma deref_app_new (h : heap) v l : deref (h ++ v :: l) (length h) = v.
Proof. unfold deref. by apply list_lookup_total_middle. Qed.

Lemma same_shapes_refl h : same_shapes h h.
Proof. split; [done|]. intros a. apply shape_eq_refl. Qed.

Lemma same_shapes_trans h1 h2 h3 :
  same_shapes h1 h2 → same_shapes h2 h3 → same_shapes h1 h3.
Proof.
  intros [Hl1 H1] [Hl2 H2]. split; [congruence|].
  intros a. eapply shape_eq_trans; [apply H1|apply H2].
Qed.

(** [p.count += c] changes no shape. *)
Lemma same_shapes_set_count (h : heap) p c :
  same_shapes h (<[p := set_count (deref h p) c]> h).
Proof.
  split; [by rewrite length_insert|]. intros a.
  destruct (decide (p = a)) as [<- | Hne]; [|by rewrite deref_insert_ne].
  destruct (decide (p < length h)%nat).
  - rewrite deref_insert_eq by done. apply shape_eq_set_count.
  - rewrite list_insert_ge by lia. apply shape_eq_refl.
Qed.

Lemma load_same_shapes h h' l : same_shapes h h' → load h' l = load h l.
Proof.
  intros [_ H]. unfold load. induction l as [|a l IH]; [done|].
  simpl. destruct (H a) as [-> _]. by rewrite IH.
Qed.

Lemma load_app h l1 l2 : load h (l1 ++ l2) = (load h l1 + load h l2)%nat.
Proof. apply sum_list_with_app. Qed.

Lemma load_cons h a l :
  load h (a :: l) = (3 ^ length (nodes (deref h a)) + load h l)%nat.
Proof. done. Qed.

Lemma load_sublist h l1 l2 : sublist l1 l2 → (load h l1 ≤ load h l2)%nat.
Proof.
  induction 1 as [|a l1 l2 _ IH|a l1 l2 _ IH]; rewrite ?load_cons; [done|lia..].
Qed.

(** Objects the two heaps agree on weigh the same. *)
Lemma load_agree h h' l :
  (∀ a, a ∈ l → shape_eq (deref h a) (deref h' a)) → load h' l = load h l.
Proof.
  induction l as [|a l IH]; intros H; [done|]. rewrite !load_cons.
  destruct (H a) as [-> _]; [left|]. rewrite IH; [done|].
  intros b Hb. apply H. by right.
Qed.

Section Grouping.
Variable is_isomorphic : MultiGraph → MultiGraph → bool.

(** The scan of [add_graph_to_list] over well-formed graphs: no match, or
    the weight of [g] is added to a member [p] of the list. *)
Lemma add_iso_loop_cases (h : heap) g scan :
  pairs (edges (deref h g)) →
  (∀ p, p ∈ scan → pairs (edges (deref h p))) →
  add_iso_loop is_isomorphic h g scan = Ok None
  ∨ ∃ p, p ∈ scan
         ∧ add_iso_loop is_isomorphic h g scan
           = Ok (Some (<[p := set_count (deref h p)
                                 (count (deref h p) + count (deref h g))]> h)).
Proof.
  intros Hg. induction scan as [|p scan IH]; intros Hscan; [by left|].
  cbn [add_iso_loop].
  destruct (iso_check_Ok is_isomorphic (deref h g) (deref h p)) as [b ->];
    [done|apply Hscan; left|].
  cbn [mbind res_bind]. destruct b.
  - right. exists p. split; [left|done].
  - destruct IH as [->|(q & Hq & ->)]; [intros q Hq; apply Hscan; by right|by left|].
    right. exists q. split; [by right|done].
Qed.

Lemma add_graph_to_list_cases (h : heap) g lst :
  pairs (edges (deref h g)) →
  (∀ p, p ∈ lst → pairs (edges (deref h p))) →
  ∃ h' lst', add_graph_to_list is_isomorphic h g lst true = Ok (h', lst')
             ∧ same_shapes h h'
             ∧ (lst' = lst ∨ (lst' = lst ++ [g] ∧ h' = h)).
Proof.
  intros Hg Hlst. unfold add_graph_to_list.
  destruct (add_iso_loop_cases h g lst Hg Hlst) as [->|(p & Hp & ->)];
    cbn [mbind res_bind].
  - exists h, (lst ++ [g]). split_and!; [done|apply same_shapes_refl|by right].
  - eexists _, lst. split_and!; [done|apply same_shapes_set_count|by left].
Qed.

(** [add_all] appends a sublist of the graphs it is given. *)
Lemma add_all_cases (h : heap) gl queue :
  (∀ p, p ∈ gl ++ queue → pairs (edges (deref h p))) →
  ∃ h' new, add_all is_isomorphic h gl queue = Ok (h', queue ++ new)
            ∧ same_shapes h h' ∧ sublist new gl.
Proof.
  revert h queue. induction gl as [|g gl IH]; intros h queue Hp.
  - exists h, []. rewrite app_nil_r. split_and!; [done|apply same_shapes_refl|done].
  - cbn [add_all].
    destruct (add_graph_to_list_cases h g queue) as (h1 & q1 & -> & Hs & Hq).
    { apply Hp. left. }
    { intros p Hin. apply Hp. apply elem_of_app. by right. }
    cbn [mbind res_bind].
    assert (∀ p, p ∈ gl ++ q1 → pairs (edges (deref h1 p))) as Hp1.
    { intros p Hin. destruct Hs as [_ Hs]. destruct (Hs p) as [_ <-].
      apply Hp. rewrite elem_of_app in Hin. rewrite elem_of_app, elem_of_cons.
      destruct Hin as [?|Hin]; [auto|].
      destruct Hq as [-> | [-> _]]; [auto|].
      apply elem_of_app in Hin as [?|Hin]; [auto|].
      apply list_elem_of_singleton in Hin. auto. }
    destruct (IH h1 q1 Hp1) as (h2 & new & -> & Hs2 & Hsub).
    destruct Hq as [-> | [-> _]].
    + exists h2, new. split_and!; [done|by eapply same_shapes_trans|].
      by apply sublist_cons.
    + exists h2, (g :: new). rewrite <- app_assoc. simpl.
      split_and!; [done|by eapply same_shapes_trans|by apply sublist_skip].
Qed.

End Grouping.


(** ** [simplify] on an object *)

Lemma pow3_pos n : (0 < 3 ^ n)%nat.
Proof. apply Nat.neq_0_lt_0, Nat.pow_nonzero. lia. Qed.

Lemma pow3_fork a b n :
  S a = n → S b = n → (3 ^ a + 3 ^ b < 3 ^ n)%nat.
Proof. intros <- [= ->]. rewrite Nat.pow_succ_r'. pose proof (pow3_pos a). lia. Qed.

Lemma pow3_lt a b : (a < b)%nat → (3 ^ a < 3 ^ b)%nat.
Proof. intros. apply Nat.pow_lt_mono_r; lia. Qed.

Lemma pow3_le a b : (a ≤ b)%nat → (3 ^ a ≤ 3 ^ b)%nat.
Proof. intros. apply Nat.pow_le_mono_r; lia. Qed.

Lemma simplify_obj_cases (h : heap) a :
  (a < length h)%nat → wf (deref h a) →
  ∃ h' gl m,
    simplify_obj h a = Ok (h', gl, m)
    ∧ (length h ≤ length h')%nat
    ∧ (∀ b, b ≠ a → (b < length h)%nat → deref h' b = deref h b)
    ∧ (∀ b, b ∈ gl →
         (b < length h')%nat ∧ wf (deref h' b) ∧ (b = a ∨ (length h ≤ b)%nat))
    ∧ NoDup gl
    ∧ (m = false → gl = [a] ∧ h' = h ∧ quiet (deref h a))
    ∧ (m = true → (load h' gl < 3 ^ length (nodes (deref h a)))%nat).
Proof.
  intros Ha Hwf. unfold simplify_obj. set (g := deref h a) in *.
  pose proof Hwf as (_ & _ & _ & Hnd).
  rewrite pass1_sweep by done. cbn [mbind res_bind].
  pose proof (sweep_wf (nodes g) g false Hwf (reflexivity _) Hnd) as Hwf'.
  pose proof (sweep_nodes_le (nodes g) g false) as Hle.
  pose proof (sweep_true_lt (nodes g) g Hnd Hnd (reflexivity _)) as Hlt.
  pose proof (sweep_false (nodes g) g) as Hid.
  destruct (sweep (nodes g) g false) as [g' m]. simpl in Hwf', Hle, Hlt, Hid.
  rewrite pass2_fork by done. cbn [mbind res_bind]. fold (fork g').
  destruct (fork g') as [[g1 g2]|] eqn:Hfork.
  - destruct (fork_wf g' g1 g2 Hwf' Hfork) as (Hwf1 & Hwf2 & Hn1 & Hn2).
    cbn [alloc]. set (h1 := <[a:=g']> h).
    assert (length h1 = length h) as Hl1 by apply length_insert.
    eexists _, _, _. split; [done|].
    split_and!.
    + rewrite !length_app, Hl1. simpl. lia.
    + intros b Hne Hb. rewrite <- app_assoc, deref_app_l by lia.
      by apply deref_insert_ne.
    + intros b Hb. apply elem_of_cons in Hb as [-> | Hb].
      * rewrite <- app_assoc. simpl. rewrite deref_app_new.
        rewrite !length_app, Hl1. simpl. split_and!; [lia|done|right; lia].
      * apply list_elem_of_singleton in Hb as ->.
        rewrite deref_app_new.
        rewrite !length_app, Hl1. simpl. split_and!; [lia|done|right; lia].
    + apply NoDup_cons. split; [|apply NoDup_singleton].
      rewrite list_elem_of_singleton, length_app. simpl. lia.
    + done.
    + intros _. rewrite !load_cons. unfold load at 1. simpl.
      rewrite deref_app_new. rewrite <- app_assoc. simpl.
      rewrite deref_app_new.
      pose proof (pow3_fork _ _ _ Hn1 Hn2).
      pose proof (pow3_le _ _ Hle). lia.
  - eexists _, _, _. split; [done|]. split_and!.
    + by rewrite length_insert.
    + intros b Hne Hb. by apply deref_insert_ne.
    + intros b Hb. apply list_elem_of_singleton in Hb as ->.
      rewrite length_insert, deref_insert_eq by done. auto.
    + apply NoDup_singleton.
    + intros ->. destruct (Hid eq_refl) as [-> Hq]. split_and!; [done| |].
      * apply list_insert_id. unfold g, deref.
        by apply list_lookup_lookup_total_lt.
      * split; [done|]. unfold fork in Hfork.
        by destruct (filter (ambiguous g) (nodes g)).
    + intros ->. rewrite load_cons, deref_insert_eq by done.
      unfold load. simpl. pose proof (pow3_lt _ _ (Hlt eq_refl)). lia.
Qed.


(** ** One iteration of the [for] loop of [main] *)

Lemma py_remove_middle {A} `{EqDecision A} (x : A) l1 l2 :
  x ∉ l1 → py_remove x (l1 ++ x :: l2) = Ok (l1 ++ l2).
Proof.
  induction l1 as [|y l1 IH]; simpl.
  - intros _. by rewrite decide_True.
  - rewrite not_elem_of_cons. intros [Hne Hn].
    rewrite decide_False by done. by rewrite IH.
Qed.

Lemma wf_pairs g : wf g → pairs (edges g).
Proof. by intros (_ & _ & ? & _). Qed.

Section Driver.
Variable is_isomorphic : MultiGraph → MultiGraph → bool.

Lemma process_ok s g l1 l2 :
  state_ok s → st_queue s = l1 ++ g :: l2 →
  ∃ s' new,
    process is_isomorphic s g = Ok s'
    ∧ state_ok s'
    ∧ st_queue s' = l1 ++ l2 ++ new
    ∧ (∀ b, b ∈ l1 ++ l2 →
         shape_eq (deref (st_heap s) b) (deref (st_heap s') b))
    ∧ (load (st_heap s') new < 3 ^ length (nodes (deref (st_heap s) g)))%nat.
Proof.
  destruct s as [h queue final]. simpl. intros (Hal & Hnd & Hwf & Hq) ->.
  simpl in *.
  (* what distinctness gives *)
  pose proof Hnd as Hnd0.
  apply NoDup_app in Hnd as (Hndq & Hqf & Hndf).
  apply NoDup_app in Hndq as (Hnd1 & H12 & Hnd2).
  apply NoDup_cons in Hnd2 as [Hg2 Hnd2].
  assert (g ∉ l1) as Hg1 by (intros Hin; apply (H12 g Hin); left).
  assert (g ∉ final) as Hgf.
  { apply Hqf. rewrite elem_of_app, elem_of_cons. auto. }
  assert (∀ b, b ∈ l1 ++ l2 → b ≠ g) as Hrest.
  { intros b Hb ->. apply elem_of_app in Hb as [?|?]; done. }
  assert (∀ b, b ∈ l1 ++ l2 → b ∈ (l1 ++ g :: l2) ++ final) as Hin_rest.
  { intros b Hb. rewrite !elem_of_app, elem_of_cons.
    apply elem_of_app in Hb as [?|?]; auto. }
  assert (∀ b, b ∈ final → b ∈ (l1 ++ g :: l2) ++ final) as Hin_fin.
  { intros b Hb. rewrite !elem_of_app. auto. }
  assert (g ∈ (l1 ++ g :: l2) ++ final) as Hin_g.
  { rewrite !elem_of_app, elem_of_cons. auto. }
  assert (NoDup ((l1 ++ l2) ++ final)) as Hnd_rest.
  { apply NoDup_app. split_and!; [|intros b Hb; apply Hqf|done].
    - apply NoDup_app. split_and!; [done| |done].
      intros b Hb Hb2. apply (H12 b Hb). by right.
    - rewrite elem_of_app, elem_of_cons.
      apply elem_of_app in Hb as [?|?]; auto. }
  unfold process. cbn [st_queue st_heap st_final].
  rewrite py_remove_middle by done. cbn [mbind res_bind].
  destruct (simplify_obj_cases h g (Hal g Hin_g) (Hwf g Hin_g))
    as (h1 & gl & m & -> & Hlen & Hframe & Hgl & Hndgl & Hfalse & Htrue).
  cbn [mbind res_bind]. destruct m.
  - (* the graph changed: its successors go back to the queue *)
    clear Hfalse. specialize (Htrue eq_refl).
    assert (∀ b, b ∈ (l1 ++ l2) ++ final → deref h1 b = deref h b) as Hold.
    { intros b Hb. apply Hframe.
      - intros ->. apply elem_of_app in Hb as [Hb|Hb]; [by apply (Hrest g)|done].
      - apply Hal. apply elem_of_app in Hb as [Hb|Hb]; auto. }
    destruct (add_all_cases is_isomorphic h1 gl (l1 ++ l2))
      as (h2 & new & -> & Hs & Hsub).
    { intros p Hp. apply elem_of_app in Hp as [Hp|Hp].
      - apply wf_pairs. by apply Hgl.
      - rewrite Hold by (apply elem_of_app; auto).
        apply wf_pairs. auto. }
    cbn [mbind res_bind]. eexists _, new. split; [done|].
    cbn [st_queue st_heap st_final].
    destruct Hs as [Hl2 Hs2].
    assert (∀ b, b ∈ new → b ∈ gl) as Hnew.
    { intros b Hb. by eapply sublist_subseteq. }
    split_and!.
    + split_and!; cbn [st_queue st_heap st_final].
      * intros b Hb. rewrite Hl2.
        rewrite <- app_assoc in Hb. apply elem_of_app in Hb as [Hb|Hb].
        { pose proof (Hal b (Hin_rest b Hb)). lia. }
        apply elem_of_app in Hb as [Hb|Hb]; [by apply Hgl, Hnew|].
        pose proof (Hal b (Hin_fin b Hb)). lia.
      * apply NoDup_app. split_and!; [|
          intros b Hb Hbf; apply elem_of_app in Hb as [Hb|Hb]|done].
        -- apply NoDup_app. split_and!;
             [by apply NoDup_app in Hnd_rest as (? & _ & _)|
              |by eapply (sublist_NoDup new gl)].
           intros b Hb Hbn. destruct (Hgl b (Hnew b Hbn)) as (_ & _ & [-> | Hge]).
           ++ by apply (Hrest g).
           ++ pose proof (Hal b (Hin_rest b Hb)). lia.
        -- apply NoDup_app in Hnd_rest as (_ & Hd & _). by apply (Hd b).
        -- destruct (Hgl b (Hnew b Hb)) as (_ & _ & [-> | Hge]); [done|].
           pose proof (Hal b (Hin_fin b Hbf)). lia.
      * intros b Hb. eapply shape_eq_wf; [apply Hs2|].
        rewrite <- app_assoc in Hb. apply elem_of_app in Hb as [Hb|Hb].
        { rewrite Hold by (apply elem_of_app; auto). auto. }
        apply elem_of_app in Hb as [Hb|Hb]; [by apply Hgl, Hnew|].
        rewrite Hold by (apply elem_of_app; auto). auto.
      * intros b Hb. eapply shape_eq_quiet; [apply Hs2|].
        rewrite Hold by (apply elem_of_app; auto). auto.
    + by rewrite app_assoc.
    + intros b Hb. rewrite <- Hold by (apply elem_of_app; auto). apply Hs2.
    + rewrite (load_same_shapes h1 h2) by done.
      pose proof (load_sublist h1 _ _ Hsub). lia.
  - (* the graph is irreducible: it goes to final *)
    clear Htrue. destruct (Hfalse eq_refl) as (-> & -> & Hquiet).
    cbn [getitem lookup list_lookup mbind res_bind].
    destruct (add_graph_to_list_cases is_isomorphic h g final)
      as (h2 & final' & -> & Hs & Hfin).
    { apply wf_pairs. auto. }
    { intros p Hp. apply wf_pairs. auto. }
    cbn [mbind res_bind]. eexists _, []. split; [done|].
    cbn [st_queue st_heap st_final].
    destruct (Hs) as [Hl2 Hs2].
    assert (∀ b, b ∈ (l1 ++ l2) ++ final' → b ∈ (l1 ++ g :: l2) ++ final)
      as Hsub.
    { intros b Hb. apply elem_of_app in Hb as [Hb|Hb]; [auto|].
      destruct Hfin as [-> | [-> _]]; [auto|].
      apply elem_of_app in Hb as [Hb|Hb]; [auto|].
      by apply list_elem_of_singleton in Hb as ->. }
    split_and!.
    + split_and!; cbn [st_queue st_heap st_final].
      * intros b Hb. rewrite Hl2. auto.
      * destruct Hfin as [-> | [-> _]]; [done|].
        rewrite app_assoc. apply NoDup_app. split_and!; [done| |apply NoDup_singleton].
        intros b Hb ->%list_elem_of_singleton.
        apply elem_of_app in Hb as [Hb|Hb]; [by apply (Hrest g)|done].
      * intros b Hb. eapply shape_eq_wf; [apply Hs2|]. auto.
      * intros b Hb. eapply shape_eq_quiet; [apply Hs2|].
        destruct Hfin as [-> | [-> _]]; [auto|].
        apply elem_of_app in Hb as [Hb|Hb]; [auto|].
        by apply list_elem_of_singleton in Hb as ->.
    + by rewrite app_nil_r.
    + intros b Hb. apply Hs2.
    + unfold load at 1. simpl. apply pow3_pos.
Qed.

End Driver.


(** ** The loops of [main] *)

Lemma foldl_min_le ds d :
  (foldl Nat.min d ds ≤ d)%nat ∧ ∀ x, x ∈ ds → (foldl Nat.min d ds ≤ x)%nat.
Proof.
  revert d. induction ds as [|y ds IH]; intros d; simpl.
  - split; [done|]. intros x Hx. by apply elem_of_nil in Hx.
  - destruct (IH (d `min` y)%nat) as [H1 H2]. split; [lia|].
    intros x [-> | Hx]%elem_of_cons; [lia|auto].
Qed.

(** Whatever the threshold, some graph of a non-empty queue passes the
    test of the [for] loop. *)
Lemma some_selected (h : heap) queue :
  queue ≠ [] →
  ∃ j g, queue !! j = Some g
         ∧ selected (threshold (dimensions h queue))
             (length (nodes (deref h g))) = true.
Proof.
  intros Hne. destruct queue as [|g0 queue]; [done|].
  unfold threshold. destruct (decide _) as [Hlen|_]; [|by exists 0%nat, g0].
  set (f := λ g : nat, length (nodes (deref h g))).
  change (dimensions h (g0 :: queue)) with (f g0 :: (f <$> queue)) in *.
  set (mn := foldl Nat.min (f g0) (f <$> queue)).
  destruct (foldl_min_le (f <$> queue) (f g0)) as [Hmn0 Hmn]. fold mn in Hmn0, Hmn.
  assert (∀ x, x ∈ f g0 :: (f <$> queue) → (mn ≤ x)%nat) as Hlow.
  { intros x [-> | Hx]%elem_of_cons; auto. }
  destruct (remove_dups (f g0 :: (f <$> queue))) as [|x [|y l]] eqn:Hrd;
    simpl in Hlen; try lia.
  pose proof (NoDup_remove_dups (f g0 :: (f <$> queue))) as Hnd.
  rewrite Hrd in Hnd. apply NoDup_cons in Hnd as [Hxy _].
  assert (x ≠ y) as Hne' by (intros ->; apply Hxy; left).
  assert (x ∈ f g0 :: (f <$> queue)) as Hx.
  { apply elem_of_remove_dups. rewrite Hrd. left. }
  assert (y ∈ f g0 :: (f <$> queue)) as Hy.
  { apply elem_of_remove_dups. rewrite Hrd. right; left. }
  assert (∃ z, z ∈ f g0 :: (f <$> queue) ∧ (mn < z)%nat) as (z & Hz & Hlt).
  { pose proof (Hlow x Hx). pose proof (Hlow y Hy).
    destruct (decide (mn < x)%nat); [by exists x|]. exists y. split; [done|lia]. }
  change (f g0 :: (f <$> queue)) with (f <$> (g0 :: queue)) in Hz.
  apply list_elem_of_fmap in Hz as (g & -> & Hg).
  apply list_elem_of_lookup in Hg as [j Hj].
  exists j, g. split; [done|].
  change (selected (Some mn) (f g) = true). clearbody mn.
  unfold selected. destruct mn; [done|]. by apply bool_decide_eq_true.
Qed.

Section Loops.
Variable is_isomorphic : MultiGraph → MultiGraph → bool.

(** The [for] loop over the live queue ends within the fuel the graphs
    ahead of the iterator weigh, keeps the invariant and never makes the
    queue heavier; it makes it lighter when a graph ahead passes the
    test. *)
Lemma for_queue_ok fuel k i s :
  state_ok s →
  (load (st_heap s) (drop i (st_queue s)) < fuel)%nat →
  ∃ s',
    for_queue is_isomorphic fuel k i s = Some (Ok s')
    ∧ state_ok s'
    ∧ (load (st_heap s') (st_queue s') ≤ load (st_heap s) (st_queue s))%nat
    ∧ ((∃ j g, (i ≤ j)%nat ∧ st_queue s !! j = Some g
               ∧ selected k (length (nodes (deref (st_heap s) g))) = true) →
       (load (st_heap s') (st_queue s') < load (st_heap s) (st_queue s))%nat).
Proof.
  revert i s. induction fuel as [|fuel IH]; intros i s Hok Hfuel; [lia|].
  cbn [for_queue]. destruct (st_queue s !! i) as [g|] eqn:Hi.
  - pose proof (take_drop_middle _ _ _ Hi) as Hsplit.
    pose proof (lookup_lt_Some _ _ _ Hi) as Hlt.
    set (l1 := take i (st_queue s)) in *.
    set (l2 := drop (S i) (st_queue s)) in *.
    assert (length l1 = i) as Hl1 by (apply length_take_le; lia).
    assert (drop i (st_queue s) = g :: l2) as Hdrop.
    { rewrite <- Hsplit at 1. rewrite <- Hl1 at 1. by rewrite drop_app_length. }
    rewrite Hdrop, load_cons in Hfuel.
    pose proof (pow3_pos (length (nodes (deref (st_heap s) g)))) as Hpos.
    destruct (selected k _) eqn:Hsel.
    + destruct (process_ok is_isomorphic s g l1 l2 Hok (eq_sym Hsplit))
        as (s1 & new & -> & Hok1 & Hq1 & Hshape & Hnew).
      assert (load (st_heap s1) l1 = load (st_heap s) l1) as Hload1.
      { apply load_agree. intros b Hb. apply Hshape, elem_of_app. auto. }
      assert (load (st_heap s1) l2 = load (st_heap s) l2) as Hload2.
      { apply load_agree. intros b Hb. apply Hshape, elem_of_app. auto. }
      assert (load (st_heap s1) (st_queue s1) < load (st_heap s) (st_queue s))%nat
        as Hless.
      { rewrite Hq1, <- Hsplit, !load_app, load_cons, Hload1, Hload2. lia. }
      destruct (IH (S i) s1 Hok1) as (s' & -> & Hok' & Hle & _).
      { rewrite Hq1. rewrite <- Hl1 at 1.
        replace (S (length l1)) with (length l1 + 1)%nat by lia.
        rewrite drop_app_add'; [|done].
        eapply Nat.le_lt_trans; [apply load_sublist, sublist_drop|].
        rewrite load_app, Hload2. lia. }
      exists s'. split_and!; [done|done|lia|lia].
    + destruct (IH (S i) s Hok) as (s' & -> & Hok' & Hle & Hprog).
      { fold l2. lia. }
      exists s'. split_and!; [done..|].
      intros (j & g' & Hj & Hg' & Hsel'). apply Hprog.
      exists j, g'. split_and!; [|done..].
      destruct (decide (j = i)) as [-> | ?]; [|lia]. congruence.
  - exists s. split_and!; [done..|].
    intros (j & g & Hj & Hg & _).
    apply lookup_ge_None in Hi. apply lookup_lt_Some in Hg. lia.
Qed.

(** The [while] loop empties the queue. *)
Lemma while_queue_ok fuel s :
  state_ok s →
  (load (st_heap s) (st_queue s) + 1 < fuel)%nat →
  ∃ s', while_queue is_isomorphic fuel s = Some (Ok s')
        ∧ state_ok s' ∧ st_queue s' = [].
Proof.
  revert s. induction fuel as [|fuel IH]; intros s Hok Hfuel; [lia|].
  cbn [while_queue]. destruct (st_queue s) as [|g q] eqn:Hq; [by exists s|].
  rewrite <- Hq in *.
  destruct (for_queue_ok fuel (threshold (dimensions (st_heap s) (st_queue s)))
              0 s Hok) as (s1 & -> & Hok1 & _ & Hprog).
  { rewrite drop_0. lia. }
  apply IH; [done|].
  assert (load (st_heap s1) (st_queue s1) < load (st_heap s) (st_queue s))%nat;
    [|lia].
  apply Hprog. destruct (some_selected (st_heap s) (st_queue s)) as (j & g' & ? & ?).
  { by rewrite Hq. }
  exists j, g'. split_and!; [lia|done..].
Qed.

End Loops.


(** ** The nodes [__init__] derives *)

Lemma first_seen_filter (P : Z → Prop) `{∀ x, Decision (P x)} l :
  filter P (first_seen l) = first_seen (filter P l).
Proof.
  induction l as [|x l IH]; [done|]. cbn [first_seen].
  rewrite !filter_cons. destruct (decide (P x)) as [Hx|Hx].
  - cbn [first_seen]. f_equal. rewrite <- IH.
    rewrite !list_filter_filter. apply list_filter_iff. intros y. tauto.
  - rewrite <- IH. rewrite list_filter_filter. apply list_filter_iff.
    intros y. split; [tauto|]. intros Hy. split; [done|]. by intros ->.
Qed.

Lemma filter_not_elem_of_nil (l : list Z) : filter (λ y, y ∉ ([] : list Z)) l = l.
Proof.
  induction l as [|x l IH]; [done|].
  rewrite filter_cons_True by apply not_elem_of_nil. by rewrite IH.
Qed.

(** Adding the entries of [l] one by one to [ns] appends those that are new,
    each at its first occurrence. *)
Lemma add_nodes_first_seen l ns :
  foldl (λ acc x, add_node x acc) ns l
  = ns ++ first_seen (filter (λ y, y ∉ ns) l).
Proof.
  revert ns. induction l as [|x l IH]; intros ns; simpl.
  - by rewrite app_nil_r.
  - rewrite IH. unfold add_node. rewrite filter_cons.
    destruct (decide (x ∈ ns)) as [Hin|Hn].
    + by rewrite decide_False by tauto.
    + rewrite decide_True by done. cbn [first_seen].
      rewrite <- app_assoc. simpl. do 2 f_equal.
      rewrite first_seen_filter, list_filter_filter. f_equal.
      apply list_filter_iff. intros y.
      rewrite not_elem_of_app, list_elem_of_singleton. tauto.
Qed.

Lemma first_seen_elem_of l x : x ∈ first_seen l ↔ x ∈ l.
Proof.
  induction l as [|y l IH]; [done|]. cbn [first_seen].
  rewrite !elem_of_cons, list_elem_of_filter, IH.
  destruct (decide (x = y)); tauto.
Qed.

Lemma first_seen_NoDup l : NoDup (first_seen l).
Proof.
  induction l as [|y l IH]; [constructor|]. cbn [first_seen].
  apply NoDup_cons. split; [|by apply NoDup_filter].
  rewrite list_elem_of_filter. tauto.
Qed.

Lemma first_seen_length l : (length (first_seen l) ≤ length l)%nat.
Proof.
  induction l as [|y l IH]; [done|]. cbn [first_seen length].
  pose proof (length_filter (λ z, z ≠ y) (first_seen l)). lia.
Qed.

(** The loop of [__init__] on a list of pairs: it raises exactly when some
    endpoint is not positive. *)
Lemma init_loop_pairs ps ns :
  init_loop (pair_edge <$> ps) ns
  = if decide (Exists bad_pair ps) then Raise ValueError
    else Ok (foldl (λ acc x, add_node x acc) ns (concat (pair_edge <$> ps))).
Proof.
  revert ns. induction ps as [|[a b] ps IH]; intros ns.
  - destruct (decide _) as [He|_]; [by apply Exists_nil in He|done].
  - cbn [fmap list_fmap pair_edge fst snd init_loop getitem lookup list_lookup
         mbind res_bind].
    destruct (decide (a ≤ 0)) as [Ha|Ha].
    { rewrite decide_True; [done|]. apply Exists_cons. left. by left. }
    destruct (decide (b ≤ 0)) as [Hb|Hb].
    { rewrite decide_True; [done|]. apply Exists_cons. left. by right. }
    rewrite IH. destruct (decide (Exists bad_pair ps)) as [He|He].
    + rewrite decide_True; [done|]. apply Exists_cons. by right.
    + rewrite decide_False; [done|]. rewrite Exists_cons.
      unfold bad_pair at 1. simpl. tauto.
Qed.

Lemma Graph_init_first_seen es c :
  valid_edges es → Graph_init es c = Ok (mkGraph (first_seen (concat es)) es c).
Proof.
  intros H. unfold Graph_init. rewrite init_loop_valid by done.
  cbn [mbind res_bind]. rewrite add_nodes_first_seen. simpl.
  by rewrite filter_not_elem_of_nil.
Qed.

Lemma valid_edges_concat_length es :
  valid_edges es → length (concat es) = (2 * length es)%nat.
Proof.
  induction 1 as [|e es [He _] _ IH]; [done|].
  simpl. rewrite length_app, IH, He. lia.
Qed.

Lemma elem_of_concat (x : Z) (es : list (list Z)) :
  x ∈ concat es ↔ ∃ e, x ∈ e ∧ e ∈ es.
Proof.
  induction es as [|e es IH]; simpl.
  - split; [by intros ?%elem_of_nil|]. by intros (e & _ & ?%elem_of_nil).
  - rewrite elem_of_app, IH. split.
    + intros [?|(e' & ? & ?)]; [exists e; split; [done|left]|].
      exists e'. split; [done|by right].
    + intros (e' & Hx & [-> | He]%elem_of_cons); eauto.
Qed.

(** The graph [main] starts from is well formed. *)
Lemma initial_graph_wf es c :
  valid_edges es → wf (mkGraph (first_seen (concat es)) es c).
Proof.
  intros H. split_and!; simpl.
  - intros e x He Hx. simpl in *. apply first_seen_elem_of.
    apply elem_of_concat. eauto.
  - unfold positive. simpl. rewrite Forall_forall. intros x Hx.
    apply first_seen_elem_of, elem_of_concat in Hx as (e & Hx & He).
    unfold valid_edges in H. rewrite Forall_forall in H.
    destruct (H e He) as [_ Hpos]. rewrite Forall_forall in Hpos. auto.
  - eapply Forall_impl; [done|]. simpl. by intros e [? _].
  - apply first_seen_NoDup.
Qed.

(** ** Termination of [main] *)

Section Termination.
Variable is_isomorphic : MultiGraph → MultiGraph → bool.

(** More fuel never changes what a run that ended returned. *)
Lemma for_queue_S fuel k i s :
  for_queue is_isomorphic (S fuel) k i s
  = match st_queue s !! i with
    | None => Some (Ok s)
    | Some g =>
        if selected k (length (nodes (deref (st_heap s) g))) then
          match process is_isomorphic s g with
          | Ok s' => for_queue is_isomorphic fuel k (S i) s'
          | Raise e => Some (Raise e)
          end
        else for_queue is_isomorphic fuel k (S i) s
    end.
Proof. done. Qed.

Lemma for_queue_mono fuel k i s r :
  for_queue is_isomorphic fuel k i s = Some r →
  for_queue is_isomorphic (S fuel) k i s = Some r.
Proof.
  revert i s. induction fuel as [|fuel IH]; intros i s; [done|].
  rewrite (for_queue_S (S fuel)), (for_queue_S fuel).
  destruct (st_queue s !! i) as [g|]; [|done].
  destruct (selected k _); [|apply IH].
  destruct (process is_isomorphic s g); [apply IH|done].
Qed.

Lemma while_queue_S fuel s :
  while_queue is_isomorphic (S fuel) s
  = match st_queue s with
    | [] => Some (Ok s)
    | _ :: _ =>
        match for_queue is_isomorphic fuel
                (threshold (dimensions (st_heap s) (st_queue s))) 0 s with
        | Some (Ok s') => while_queue is_isomorphic fuel s'
        | r => r
        end
    end.
Proof. done. Qed.

Lemma while_queue_mono fuel s r :
  while_queue is_isomorphic fuel s = Some r →
  while_queue is_isomorphic (S fuel) s = Some r.
Proof.
  revert s. induction fuel as [|fuel IH]; intros s; [done|].
  rewrite (while_queue_S (S fuel)), (while_queue_S fuel).
  destruct (st_queue s) as [|g q]; [done|].
  destruct (for_queue is_isomorphic fuel _ 0 s) as [r'|] eqn:Hfor; [|done].
  rewrite (for_queue_mono _ _ _ _ _ Hfor).
  destruct r' as [s'|e]; [apply IH|done].
Qed.

Lemma main_mono fuel fuel' init r :
  (fuel ≤ fuel')%nat →
  main is_isomorphic fuel init = Some r →
  main is_isomorphic fuel' init = Some r.
Proof.
  intros Hle. induction Hle as [|fuel' _ IH]; [done|].
  intros H. specialize (IH H). clear H. unfold main in *.
  destruct (Graph_init init 1) as [ig|]; [|done].
  destruct (while_queue is_isomorphic fuel' _) as [r'|] eqn:Hw; [|done].
  by rewrite (while_queue_mono _ _ _ Hw).
Qed.

(** C1.  For every valid edge list (pairs of positive labels) [main]
    terminates: the run ends without raising and returns a list [final],
    the same for every amount of fuel from [3 ^ (2 * len(init)) + 2] on;
    and every graph of [final] is irreducible, that is, [simplify] on it
    returns [modified == False].  This holds whatever the exact
    isomorphism test answers. *)
Theorem main_terminates_irreducible (init : list edge) :
  valid_edges init →
  ∃ final,
    (∀ fuel, (3 ^ (2 * length init) + 2 ≤ fuel)%nat →
             main is_isomorphic fuel init = Some (Ok final))
    ∧ Forall irreducible final.
Proof.
  intros Hvalid.
  set (fuel0 := (3 ^ (2 * length init) + 2)%nat).
  assert (∃ final, main is_isomorphic fuel0 init = Some (Ok final)
                   ∧ Forall irreducible final) as (final & Hmain & Hirr).
  { unfold main. rewrite Graph_init_first_seen by done.
    set (ig := mkGraph (first_seen (concat init)) init 1).
    pose proof (initial_graph_wf init 1 Hvalid) as Hwf. fold ig in Hwf.
    destruct (while_queue_ok is_isomorphic fuel0 (mkState [ig] [0%nat] []))
      as (s & -> & (Hal & Hnd & Hwfs & Hq) & Hempty).
    - split_and!; cbn [st_heap st_queue st_final].
      + intros a ->%list_elem_of_singleton. simpl. lia.
      + apply NoDup_singleton.
      + by intros a ->%list_elem_of_singleton.
      + by intros a ?%elem_of_nil.
    - cbn [st_heap st_queue]. rewrite load_cons. unfold load.
      change (deref [ig] 0) with ig. cbn [sum_list_with nodes ig].
      pose proof (first_seen_length (concat init)) as Hlen.
      rewrite valid_edges_concat_length in Hlen by done.
      pose proof (pow3_le _ _ Hlen). unfold fuel0. lia.
    - eexists. split; [done|]. rewrite Forall_fmap, Forall_forall.
      intros a Ha. simpl. apply quiet_irreducible; [|by apply Hq].
      apply Hwfs. apply elem_of_app. by right. }
  exists final. split; [|done].
  intros fuel Hfuel. by apply (main_mono fuel0).
Qed.

End Termination.

Lemma main_terminates_irreducible_witness :
  ∃ final,
    (∀ fuel, (11 ≤ fuel)%nat →
             main (λ _ _, true) fuel [[1; 1]] = Some (Ok final))
    ∧ Forall irreducible final.
Proof.
  refine (main_terminates_irreducible (λ _ _, true) [[1; 1]] _).
  apply (bool_decide_unpack _). vm_compute. exact I.
Defined.

(** The examples of the module's documentation: a lone self-loop reduces
    to the empty graph with weight 4, and the triple edge is returned as it
    is, with weight 1. *)
Example main_self_loop is_isomorphic :
  main is_isomorphic 5 [[1; 1]] = Some (Ok [mkGraph [] [] 4]).
Proof. reflexivity. Qed.

Example main_triple_edge is_isomorphic :
  main is_isomorphic 5 [[1; 2]; [1; 2]; [1; 2]]
  = Some (Ok [mkGraph [1; 2] [[1; 2]; [1; 2]; [1; 2]] 1]).
Proof. reflexivity. Qed.

(** ** Pass 1 *)

(** C5.  On a well-formed graph the first loop of [simplify] runs over the
    snapshot [g.nodes.copy()] and classifies each node in the graph as the
    nodes before it left it: the loop returns, without raising, the sweep
    of the total rule over the snapshot.  The rule multiplies the weight by
    the table entry and removes the node when (degree, loops) is in the
    table; contracts the node, weight unchanged, when degree is 3 and loops
    is 1; and leaves the graph alone otherwise. *)
Theorem pass1_snapshot_live (g : Graph) :
  wf g →
  pass1 (nodes g) g false = Ok (sweep (nodes g) g false)
  ∧ ∀ g' n,
      (∀ w, choices (degree g' n) (loops g' n) = Some w →
            rule g' n = (delete_node (set_count g' (count g' * w)) n, true))
      ∧ (choices (degree g' n) (loops g' n) = None →
         degree g' n = 3%nat ∧ loops g' n = 1%nat →
         rule g' n = (contract_node g' n, true)
         ∧ count (contract_node g' n) = count g')
      ∧ (choices (degree g' n) (loops g' n) = None →
         ¬ (degree g' n = 3%nat ∧ loops g' n = 1%nat) →
         rule g' n = (g', false)).
Proof.
  intros Hwf. split.
  - apply pass1_sweep; [done| |done]. by destruct Hwf as (_ & _ & _ & ?).
  - intros g' n. unfold rule. split_and!.
    + by intros w ->.
    + intros -> H. by rewrite decide_True.
    + intros -> H. by rewrite decide_False.
Qed.

Lemma pass1_snapshot_live_witness :
  pass1 [1; 2] (mkGraph [1; 2] [[1; 2]] 1) false
  = Ok (mkGraph [] [] 18, true).
Proof.
  refine (proj1 (pass1_snapshot_live (mkGraph [1; 2] [[1; 2]] 1) _)).
  apply (bool_decide_unpack _). vm_compute. exact I.
Defined.

(** The second node is classified in the graph the first one left: node 2
    of the path 1 - 2 has degree 1 at the start of the pass, degree 0 when
    its turn comes, and the weight is 3 * 6, not 3 * 3. *)
Example pass1_queries_live_graph :
  degree (mkGraph [1; 2] [[1; 2]] 1) 2 = 1%nat
  ∧ (sweep [1; 2] (mkGraph [1; 2] [[1; 2]] 1) false).1 = mkGraph [] [] 18.
Proof. by vm_compute. Qed.

(** ** The flag [simplify] returns *)

(** C2, as the code has it.  On a well-formed graph, when pass 1 leaves no
    node of degree 2 and loop count 0, [simplify] returns the single graph
    as pass 1 left it together with the flag of pass 1: [False] exactly
    when pass 1 changed nothing, [True] when it removed or contracted a
    node. *)
Theorem simplify_no_fork_flag (g g' : Graph) (m : bool) :
  wf g →
  pass1 (nodes g) g false = Ok (g', m) →
  Forall (λ n, ¬ ambiguous g' n) (nodes g') →
  simplify g = Ok ([g'], m)
  ∧ (m = false ↔ g' = g)
  ∧ (m = true ↔ (length (nodes g') < length (nodes g))%nat).
Proof.
  intros Hwf Hp1 Hna. pose proof Hwf as (_ & _ & _ & Hnd).
  pose proof Hp1 as Hp1'. rewrite pass1_sweep in Hp1' by done.
  injection Hp1' as Hsw.
  pose proof (sweep_wf (nodes g) g false Hwf (reflexivity _) Hnd) as Hwf'.
  pose proof (sweep_true_lt (nodes g) g Hnd Hnd (reflexivity _)) as Hlt.
  pose proof (sweep_false (nodes g) g) as Hid.
  rewrite Hsw in Hwf', Hlt, Hid. simpl in Hwf', Hlt, Hid.
  assert (filter (ambiguous g') (nodes g') = []) as Hf.
  { clear -Hna. induction Hna as [|n l Hn _ IH]; [done|].
    by rewrite filter_cons_False. }
  split_and!.
  - unfold simplify. rewrite Hp1. cbn [mbind res_bind].
    rewrite pass2_fork by done. by rewrite Hf.
  - split; [by intros ->; apply Hid|].
    intros ->. destruct m; [|done]. specialize (Hlt eq_refl). lia.
  - split; [done|]. intros Hl. destruct m; [done|].
    destruct (Hid eq_refl) as [-> _]. lia.
Qed.

Lemma simplify_no_fork_flag_witness :
  simplify (mkGraph [1; 2; 3] [[1; 2]; [1; 2]; [1; 2]; [3; 3]] 1)
  = Ok ([mkGraph [1; 2] [[1; 2]; [1; 2]; [1; 2]] 4], true).
Proof.
  refine (proj1 (simplify_no_fork_flag
                   (mkGraph [1; 2; 3] [[1; 2]; [1; 2]; [1; 2]; [3; 3]] 1)
                   (mkGraph [1; 2] [[1; 2]; [1; 2]; [1; 2]] 4) true _ _ _)).
  - apply (bool_decide_unpack _). vm_compute. exact I.
  - reflexivity.
  - apply (bool_decide_unpack _). vm_compute. exact I.
Defined.

(** The flag is not always [False] there: pass 1 removes node 3 (a lone self-loop,
    rule (1,1)), no node of what is left has degree 2 and loop count 0, and
    [simplify] returns [modified == True]. *)
Lemma simplify_no_fork_flag_counterexample :
  let g := mkGraph [1; 2; 3] [[1; 2]; [1; 2]; [1; 2]; [3; 3]] 1 in
  let g' := mkGraph [1; 2] [[1; 2]; [1; 2]; [1; 2]] 4 in
  pass1 (nodes g) g false = Ok (g', true)
  ∧ Forall (λ n, ¬ ambiguous g' n) (nodes g')
  ∧ simplify g = Ok ([g'], true)
  ∧ ¬ ∃ gs, simplify g = Ok (gs, false).
Proof.
  split_and!; [done|apply (bool_decide_unpack _); vm_compute; exact I|done|].
  by intros [gs [=]].
Qed.


(** ** [node_to_edge] *)

Lemma off_node_not_at n es e : e ∈ off_node n es → n ∉ e.
Proof. by intros [? _]%list_elem_of_filter. Qed.

(** C10.  For a node [n] of the graph whose edges all have the two entries
    the code indexes, [node_to_edge(n)] removes [n] and the edges at [n]
    and appends exactly one edge, whatever the degree of [n]: the far ends
    of the edges at [n] that are not self-loops, in edge order.  When every
    edge at [n] is a self-loop the appended edge is empty; when exactly one
    is not, it has that edge's far end as its single entry. *)
Theorem node_to_edge_appends_bridge (g : Graph) (n : Z) :
  n ∈ nodes g → indexable n (edges g) →
  ∃ g',
    node_to_edge g n = Ok g'
    ∧ edges g' = off_node n (edges g) ++ [bridge n (edges g)]
    ∧ length (edges g') = S (length (off_node n (edges g)))
    ∧ bridge n (edges g)
      = far_end n <$> filter (λ e, ¬ is_loop e) (at_node n (edges g))
    ∧ (Forall is_loop (at_node n (edges g)) → bridge n (edges g) = [])
    ∧ (∀ e, filter (λ e, ¬ is_loop e) (at_node n (edges g)) = [e] →
            bridge n (edges g) = [far_end n e]).
Proof.
  intros Hin Hix. destruct (node_to_edge_Ok g n Hin Hix) as (ns & _ & ->).
  eexists. split; [done|]. simpl. split_and!; [done| |done| |].
  - rewrite length_app. simpl. lia.
  - intros Hall. unfold bridge.
    induction Hall as [|e l He _ IH]; [done|].
    by rewrite filter_cons_False by tauto.
  - intros e He. unfold bridge. by rewrite He.
Qed.

Lemma node_to_edge_appends_bridge_witness :
  ∃ g',
    node_to_edge (mkGraph [1; 2] [[1; 1]; [1; 2]] 1) 1 = Ok g'
    ∧ edges g' = [[2]].
Proof.
  destruct (node_to_edge_appends_bridge (mkGraph [1; 2] [[1; 1]; [1; 2]] 1) 1)
    as (g' & H1 & H2 & _).
  - apply (bool_decide_unpack _). vm_compute. exact I.
  - apply (bool_decide_unpack _). vm_compute. exact I.
  - exists g'. split; [exact H1|exact H2].
Defined.

(** The hypothesis on the edges at [n] is needed: an edge with the single
    entry [n], which [node_to_edge] itself leaves behind at a node of
    degree 1, makes [e[1]] raise. *)
Example node_to_edge_short_edge :
  node_to_edge (mkGraph [1; 2] [[1; 2]] 1) 1 = Ok (mkGraph [2] [[2]] 1)
  ∧ node_to_edge (mkGraph [2] [[2]] 1) 2 = Raise IndexError.
Proof. done. Qed.

(** C6.  For a node [n] of a graph with pair edges that has exactly two
    incident edges [e1], [e2] that are not self-loops, [node_to_edge(n)]
    leaves one node fewer and appends exactly one edge, which joins the far
    ends of [e1] and [e2], the two former neighbours of [n]; no edge of the
    result touches [n], so self-loops at [n] are dropped. *)
Theorem node_to_edge_joins_neighbours (g : Graph) (n : Z) (e1 e2 : edge) :
  n ∈ nodes g → pairs (edges g) →
  filter (λ e, ¬ is_loop e) (at_node n (edges g)) = [e1; e2] →
  ∃ g',
    node_to_edge g n = Ok g'
    ∧ S (length (nodes g')) = length (nodes g)
    ∧ edges g' = off_node n (edges g) ++ [[far_end n e1; far_end n e2]]
    ∧ far_end n e1 ≠ n ∧ far_end n e2 ≠ n
    ∧ far_end n e1 ∈ e1 ∧ far_end n e2 ∈ e2
    ∧ Forall (λ e, n ∉ e) (edges g').
Proof.
  intros Hin Hp Hf. pose proof (pairs_indexable n _ Hp) as Hix.
  destruct (node_to_edge_Ok g n Hin Hix) as (ns & Hrm & ->).
  assert (∀ e, e ∈ [e1; e2] →
               n ∈ e ∧ ¬ is_loop e ∧ (2 ≤ length e)%nat) as He.
  { intros e He. rewrite <- Hf in He.
    apply list_elem_of_filter in He as [Hnl He].
    apply list_elem_of_filter in He as [Hn He].
    unfold pairs in Hp. rewrite Forall_forall in Hp.
    rewrite (Hp e He). auto. }
  destruct (He e1) as (Hn1 & Hl1 & Hlen1); [left|].
  destruct (He e2) as (Hn2 & Hl2 & Hlen2); [right; left|].
  pose proof (far_end_ne n e1 Hn1 Hl1 Hlen1).
  pose proof (far_end_ne n e2 Hn2 Hl2 Hlen2).
  eexists. split; [done|]. simpl. unfold bridge. rewrite Hf. simpl.
  split_and!; [by apply py_remove_length in Hrm|done..
              |by apply far_end_elem_of|by apply far_end_elem_of|].
  apply Forall_app. split.
  - rewrite Forall_forall. intros e. apply off_node_not_at.
  - apply Forall_singleton. rewrite !not_elem_of_cons.
    split_and!; [done..|apply not_elem_of_nil].
Qed.

Lemma node_to_edge_joins_neighbours_witness :
  ∃ g',
    node_to_edge (mkGraph [1; 2; 3] [[1; 2]; [2; 2]; [3; 2]] 1) 2 = Ok g'
    ∧ edges g' = [[1; 3]].
Proof.
  destruct (node_to_edge_joins_neighbours
              (mkGraph [1; 2; 3] [[1; 2]; [2; 2]; [3; 2]] 1) 2 [1; 2] [3; 2])
    as (g' & H1 & _ & H2 & _).
  - apply (bool_decide_unpack _). vm_compute. exact I.
  - apply (bool_decide_unpack _). vm_compute. exact I.
  - reflexivity.
  - exists g'. split; [exact H1|exact H2].
Defined.


(** ** [__init__] *)

(** C8.  On a list of pairs [Graph(edges, count)] raises [ValueError] if
    and only if some endpoint is not positive, and then returns no graph;
    otherwise it returns the graph with these edges and this weight whose
    nodes are the distinct endpoints in the order of their first
    occurrence. *)
Theorem Graph_init_validates (ps : list (Z * Z)) (c : Z) :
  (Graph_init (pair_edge <$> ps) c = Raise ValueError ↔ Exists bad_pair ps)
  ∧ (Exists bad_pair ps → ∀ g, Graph_init (pair_edge <$> ps) c ≠ Ok g)
  ∧ (¬ Exists bad_pair ps →
     Graph_init (pair_edge <$> ps) c
     = Ok (mkGraph (first_seen (concat (pair_edge <$> ps)))
             (pair_edge <$> ps) c))
  ∧ NoDup (first_seen (concat (pair_edge <$> ps)))
  ∧ (∀ x, x ∈ first_seen (concat (pair_edge <$> ps))
          ↔ ∃ p, p ∈ ps ∧ (x = p.1 ∨ x = p.2)).
Proof.
  assert (Graph_init (pair_edge <$> ps) c
          = if decide (Exists bad_pair ps) then Raise ValueError
            else Ok (mkGraph (first_seen (concat (pair_edge <$> ps)))
                       (pair_edge <$> ps) c)) as Hinit.
  { unfold Graph_init. rewrite init_loop_pairs.
    destruct (decide _); [done|]. cbn [mbind res_bind].
    rewrite add_nodes_first_seen. simpl. by rewrite filter_not_elem_of_nil. }
  rewrite Hinit. split_and!.
  - destruct (decide _); [done|]. split; [done|tauto].
  - intros He g. by rewrite decide_True.
  - intros He. by rewrite decide_False.
  - apply first_seen_NoDup.
  - intros x. rewrite first_seen_elem_of, elem_of_concat. split.
    + intros (e & Hx & (p & -> & Hp)%list_elem_of_fmap). exists p.
      split; [done|]. unfold pair_edge in Hx.
      rewrite !elem_of_cons, elem_of_nil in Hx. tauto.
    + intros (p & Hp & Hx). exists (pair_edge p).
      split; [|by apply list_elem_of_fmap_2].
      unfold pair_edge. rewrite !elem_of_cons. tauto.
Qed.

Lemma Graph_init_validates_witness :
  Graph_init [[2; 1]; [1; 3]; [2; 3]] 1
  = Ok (mkGraph [2; 1; 3] [[2; 1]; [1; 3]; [2; 3]] 1)
  ∧ Graph_init [[2; 1]; [0; 3]] 1 = Raise ValueError.
Proof.
  split.
  - refine (proj1 (proj2 (proj2
              (Graph_init_validates [(2, 1); (1, 3); (2, 3)] 1))) _).
    apply (bool_decide_unpack _). vm_compute. exact I.
  - refine (proj2 (proj1 (Graph_init_validates [(2, 1); (0, 3)] 1)) _).
    apply (bool_decide_unpack _). vm_compute. exact I.
Defined.

(** ** [iso_check] *)

Section Prefilter.
Variable is_isomorphic : MultiGraph → MultiGraph → bool.

(** C7.  When the node counts differ, or the edge counts differ, or the
    sorted lists of neighbour-list lengths differ, [iso_check] returns
    [False] and makes no call to the exact test; when a call is made, it is
    the single call on the two multigraphs, all three conditions hold, and
    the result is the answer of the exact test. *)
Theorem iso_check_prefilter (g1 g2 : Graph) :
  (length (nodes g1) ≠ length (nodes g2) →
   iso_check_log is_isomorphic g1 g2 = Ok (false, []))
  ∧ (length (edges g1) ≠ length (edges g2) →
     iso_check_log is_isomorphic g1 g2 = Ok (false, []))
  ∧ (∀ d1 d2,
       degrees g1 (nodes g1) = Ok d1 → degrees g2 (nodes g2) = Ok d2 →
       sorted d1 ≠ sorted d2 →
       iso_check_log is_isomorphic g1 g2 = Ok (false, []))
  ∧ (∀ b calls,
       iso_check_log is_isomorphic g1 g2 = Ok (b, calls) → calls ≠ [] →
       length (nodes g1) = length (nodes g2)
       ∧ length (edges g1) = length (edges g2)
       ∧ (∃ d1 d2, degrees g1 (nodes g1) = Ok d1
                   ∧ degrees g2 (nodes g2) = Ok d2 ∧ sorted d1 = sorted d2)
       ∧ calls = [(to_multigraph g1, to_multigraph g2)]
       ∧ b = is_isomorphic (to_multigraph g1) (to_multigraph g2)).
Proof.
  unfold iso_check_log, prefilter. split_and!.
  - intros Hn. by rewrite decide_False.
  - intros He. destruct (decide _); [|done]. by rewrite decide_False.
  - intros d1 d2 H1 H2 Hd. destruct (decide _); [|done].
    destruct (decide _); [|done]. rewrite H1, H2. cbn [mbind res_bind].
    by rewrite bool_decide_eq_false_2.
  - intros b calls. destruct (decide _) as [Hn|]; [|by intros [= <- <-]].
    destruct (decide _) as [He|]; [|by intros [= <- <-]].
    destruct (degrees g1 (nodes g1)) as [d1|]; [|done].
    destruct (degrees g2 (nodes g2)) as [d2|]; [|done].
    cbn [mbind res_bind]. destruct (bool_decide _) eqn:Hd;
      [|by intros [= <- <-]].
    apply bool_decide_eq_true in Hd.
    destruct (is_isomorphic _ _) eqn:Hiso; intros [= <- <-] _;
      split_and!; eauto.
Qed.

End Prefilter.

Lemma iso_check_prefilter_witness :
  iso_check_log (λ _ _, true)
    (mkGraph [1; 2] [[1; 2]; [1; 2]; [1; 2]] 1)
    (mkGraph [1; 2] [[1; 2]; [1; 1]; [1; 1]] 1)
  = Ok (false, []).
Proof.
  refine (proj1 (proj2 (proj2 (iso_check_prefilter (λ _ _, true) _ _)))
            [3; 3]%nat [3; 1]%nat _ _ _).
  - reflexivity.
  - reflexivity.
  - vm_compute. discriminate.
Defined.


(** ** The data-model invariant *)

Lemma choices_ge c l w : choices c l = Some w → 1 ≤ w.
Proof.
  unfold choices. destruct c as [|[|[|c]]], l as [|[|[|l]]];
    intros [= <-]; lia.
Qed.

Lemma set_count_inv g c : inv g → 1 ≤ c → inv (set_count g c).
Proof. by intros (? & ? & _) ?. Qed.

Lemma pass1_inv snapshot g m g' m' :
  inv g → pass1 snapshot g m = Ok (g', m') → inv g'.
Proof.
  revert g m. induction snapshot as [|n rest IH]; intros g m Hinv.
  - by intros [= <- <-].
  - cbn [pass1]. destruct (list_nei g n) as [nei|]; [|done].
    cbn [mbind res_bind].
    destruct (choices _ _) as [w|] eqn:Hc.
    + destruct (remove_node _ n) as [g1|] eqn:Hrm; [|done].
      cbn [mbind res_bind]. apply IH.
      eapply remove_node_inv; [|done]. apply set_count_inv; [done|].
      apply choices_ge in Hc. destruct Hinv as (_ & _ & ?). nia.
    + destruct (decide _).
      * destruct (node_to_edge g n) as [g1|] eqn:Hrm; [|done].
        cbn [mbind res_bind]. apply IH. by eapply node_to_edge_inv.
      * by apply IH.
Qed.

Lemma Graph_init_Ok_inv es c g :
  Graph_init es c = Ok g → edges g = es ∧ count g = c.
Proof.
  unfold Graph_init. destruct (init_loop es []); [|done].
  by intros [= <-].
Qed.

Lemma pass2_inv snapshot g g1 g2 :
  inv g → pass2 snapshot (nodes g) g = Ok (Some (g1, g2)) → inv g1 ∧ inv g2.
Proof.
  intros Hinv. induction snapshot as [|n rest IH]; [done|].
  cbn [pass2]. destruct (list_nei g n) as [nei|]; [|done].
  cbn [mbind res_bind]. destruct (decide _); [|done].
  destruct (Graph_init (edges g) (count g)) as [g0|] eqn:Hg0; [|done].
  cbn [mbind res_bind].
  apply Graph_init_Ok_inv in Hg0 as [He Hc].
  assert (set_nodes g0 (nodes g) = g) as ->.
  { unfold set_nodes. rewrite He, Hc. by destruct g. }
  destruct (remove_node g n) as [g1'|] eqn:H1; [|done].
  destruct (node_to_edge g n) as [g2'|] eqn:H2; [|done].
  intros [= <- <-]. split; [by eapply remove_node_inv|by eapply node_to_edge_inv].
Qed.

Lemma simplify_inv g gs m :
  inv g → simplify g = Ok (gs, m) → Forall inv gs.
Proof.
  intros Hinv. unfold simplify.
  destruct (pass1 (nodes g) g false) as [[g' m']|] eqn:Hp1; [|done].
  cbn [mbind res_bind]. apply pass1_inv in Hp1; [|done].
  destruct (pass2 _ _ g') as [[[g1 g2]|]|] eqn:Hp2; [| |done].
  - apply pass2_inv in Hp2 as [? ?]; [|done].
    intros [= <- <-]. rewrite !Forall_cons, Forall_nil. tauto.
  - intros [= <- <-]. rewrite !Forall_cons, Forall_nil. tauto.
Qed.

Lemma deref_inv (h : heap) a : Forall inv h → inv (deref h a).
Proof.
  intros Hh. unfold deref. destruct (h !! a) as [g|] eqn:Ha.
  - rewrite (list_lookup_total_correct _ _ _ Ha).
    rewrite Forall_forall in Hh. apply Hh. by eapply list_elem_of_lookup_2.
  - rewrite list_lookup_total_alt, Ha. simpl.
    split_and!; [by intros e x ?%elem_of_nil|constructor|done].
Qed.

Section Invariant.
Variable is_isomorphic : MultiGraph → MultiGraph → bool.

Lemma add_iso_loop_inv (h : heap) g scan h' :
  Forall inv h →
  add_iso_loop is_isomorphic h g scan = Ok (Some h') → Forall inv h'.
Proof.
  intros Hh. induction scan as [|p scan IH]; [done|].
  cbn [add_iso_loop]. destruct (iso_check _ _ _) as [[|]|]; [| |done].
  - cbn [mbind res_bind]. intros [= <-]. apply Forall_insert; [done|].
    pose proof (deref_inv h p Hh) as Hp. pose proof (deref_inv h g Hh) as Hg.
    apply set_count_inv; [done|].
    destruct Hp as (_ & _ & ?), Hg as (_ & _ & ?). lia.
  - done.
Qed.

(** C9.  A graph that satisfies the data-model invariant (edge endpoints
    are nodes, labels are positive, the weight is at least 1) still
    satisfies it after [remove_node] and after [node_to_edge]; every graph
    [simplify] returns satisfies it, weight updates included; and
    [add_graph_to_list], merge included, keeps it for every object of a
    heap whose objects all satisfy it. *)
Theorem invariant_preserved (g : Graph) :
  inv g →
  (∀ n g', remove_node g n = Ok g' → inv g')
  ∧ (∀ n g', node_to_edge g n = Ok g' → inv g')
  ∧ (∀ gs m, simplify g = Ok (gs, m) → Forall inv gs)
  ∧ (∀ (h : heap) a lst add_iso h' lst',
       Forall inv h → h !! a = Some g →
       add_graph_to_list is_isomorphic h a lst add_iso = Ok (h', lst') →
       Forall inv h').
Proof.
  intros Hinv. split_and!.
  - intros n g'. by apply remove_node_inv.
  - intros n g'. by apply node_to_edge_inv.
  - intros gs m. by apply simplify_inv.
  - intros h a lst add_iso h' lst' Hh _. unfold add_graph_to_list.
    destruct add_iso; [|by intros [= <- _]].
    destruct (add_iso_loop _ _ _ _) as [[h1|]|] eqn:Hl; [| |done].
    + intros [= <- _]. by eapply add_iso_loop_inv.
    + by intros [= <- _].
Qed.

End Invariant.

Lemma invariant_preserved_witness :
  node_to_edge (mkGraph [1; 2; 3] [[1; 2]; [2; 3]] 5) 2
  = Ok (mkGraph [1; 3] [[1; 3]] 5)
  ∧ inv (mkGraph [1; 3] [[1; 3]] 5)
  ∧ Forall inv [mkGraph [1; 2] [[1; 2]; [1; 2]; [1; 2]] 7;
                mkGraph [3; 4] [[3; 4]; [3; 4]; [3; 4]] 2].
Proof.
  split; [reflexivity|]. split.
  - refine (proj1 (proj2 (invariant_preserved (λ _ _, true)
                            (mkGraph [1; 2; 3] [[1; 2]; [2; 3]] 5) _))
              2 _ _).
    + apply (bool_decide_unpack _). vm_compute. exact I.
    + reflexivity.
  - refine (proj2 (proj2 (proj2 (invariant_preserved (λ _ _, true)
                                   (mkGraph [3; 4] [[3; 4]; [3; 4]; [3; 4]] 2) _)))
              [mkGraph [1; 2] [[1; 2]; [1; 2]; [1; 2]] 5;
               mkGraph [3; 4] [[3; 4]; [3; 4]; [3; 4]] 2]
              1%nat [0%nat] true _ [0%nat] _ _ _).
    + apply (bool_decide_unpack _). vm_compute. exact I.
    + apply (bool_decide_unpack _). vm_compute. exact I.
    + reflexivity.
    + reflexivity.
Defined.


(** ** The shared default edge list *)

(** With an explicit argument the store model and the value model of
    [__init__] derive the same nodes. *)
Lemma Graph_new_explicit (st : DefaultArg.store) a c :
  DefaultArg.Graph_new st (Some a) c
  = g ← Graph_init (st !!! a) c ;
    Ok (DefaultArg.mkGraphRef (nodes g) a (count g)).
Proof.
  unfold DefaultArg.Graph_new, Graph_init. simpl.
  by destruct (init_loop (st !!! a) []).
Qed.

(** C3 on the code.  Two graphs constructed without an edge list hold the
    same list object: once one of them is given a node and contracted (as
    [simplify] does with the copies it makes), the edge list of the other,
    empty before, holds the appended edge. *)
Theorem default_edges_shared :
  ∃ a b st a',
    DefaultArg.Graph_new DefaultArg.store0 None 1 = Ok a
    ∧ DefaultArg.Graph_new DefaultArg.store0 None 1 = Ok b
    ∧ DefaultArg.r_edges a = DefaultArg.r_edges b
    ∧ DefaultArg.store0 !!! DefaultArg.r_edges b = []
    ∧ DefaultArg.node_to_edge_ref DefaultArg.store0
        (DefaultArg.assign_nodes a [1]) 1 = Ok (st, a')
    ∧ st !!! DefaultArg.r_edges b = [[]].
Proof. by eexists _, _, _, _. Qed.

(** ** [convert_irreducible] on two adjacent matches *)

Section Conversion.
Variable is_isomorphic : MultiGraph → MultiGraph → bool.

(** The outer loop of [convert_irreducible] needs no more fuel than the
    list is long: the index goes up and the list never grows. *)
Lemma convert_loop_fuel fuel (h : heap) irr i lst cnt m :
  (∀ g, g ∈ lst → pairs (edges (deref h g))) →
  (∀ p, p ∈ irr → pairs (edges (deref h p))) →
  (length lst < fuel + i)%nat → (0 < fuel)%nat →
  ∃ r, convert_loop is_isomorphic fuel h irr i lst cnt m = Some (Ok r).
Proof.
  intros Hl Hirr. revert i lst cnt m Hl.
  induction fuel as [|fuel IH]; intros i lst cnt m Hl Hf Hpos; [lia|].
  cbn [convert_loop]. destruct (lst !! i) as [g|] eqn:Hi; [|eauto].
  pose proof (lookup_lt_Some _ _ _ Hi) as Hlt.
  assert (g ∈ lst) as Hg by by eapply list_elem_of_lookup_2.
  assert (∃ r, find_irr is_isomorphic h g irr = Ok r) as [r ->].
  { clear -Hirr Hl Hg. induction irr as [|p irr IHirr]; [by eexists|].
    cbn [find_irr].
    destruct (iso_check_Ok is_isomorphic (deref h g) (deref h p)) as [b ->];
      [by apply Hl|apply Hirr; left|].
    cbn [mbind res_bind]. destruct b; [by eexists|].
    apply IHirr. intros q Hq. apply Hirr. by right. }
  destruct r as [p|].
  - destruct (py_remove_split g lst Hg) as (l1 & l2 & Heq & _ & ->).
    rewrite Heq, length_app in Hf, Hlt. simpl in Hf, Hlt.
    apply IH; [|rewrite length_app; lia|lia].
    intros q Hq. apply Hl. rewrite Heq.
    rewrite elem_of_app, elem_of_cons. apply elem_of_app in Hq. tauto.
  - apply IH; [done|lia..].
Qed.

(** C4 on the code.  The list holds two classes, the triple edge and K4,
    each matched by an entry of [irr] (the values 24 and 6 of the module),
    one right after the other.  Removing the first match inside the loop
    shifts the second under the iterator, which skips it: K4 stays in the
    list and the inserted graph has weight 6, not 6 * 24. *)
Theorem convert_irreducible_skips_next_match :
  (∀ x, is_isomorphic x x = true) →
  let t := mkGraph [1; 2] [[1; 2]; [1; 2]; [1; 2]] in
  let k := mkGraph [1; 2; 3; 4]
             [[1; 2]; [2; 3]; [3; 1]; [1; 4]; [2; 4]; [3; 4]] in
  let h := [t 1; k 1; k 24; t 6] in
  convert_irreducible is_isomorphic 3 h [0; 1]%nat [2; 3]%nat
  = Some (Ok (h ++ [mkGraph [] [] 6], [1; 4]%nat)).
Proof.
  intros Hrefl t k h. unfold convert_irreducible.
  cbn [convert_loop lookup list_lookup find_irr].
  unfold iso_check, iso_check_log.
  replace (prefilter (deref h 0) (deref h 2)) with (Ok (A:=bool) false)
    by by vm_compute.
  cbn [mbind res_bind fst].
  replace (prefilter (deref h 0) (deref h 3)) with (Ok (A:=bool) true)
    by by vm_compute.
  cbn [mbind res_bind]. 
  change (to_multigraph (deref h 3)) with (to_multigraph (deref h 0)).
  rewrite Hrefl. cbn [mbind res_bind fst].
  replace (py_remove 0%nat [0%nat; 1%nat]) with (Ok [1%nat]) by done.
  cbn [lookup list_lookup]. 
  cbn [Graph_init init_loop mbind res_bind alloc add_graph_to_list
       add_iso_loop iso_check].
  unfold iso_check, iso_check_log.
  replace (prefilter _ _) with (Ok (A:=bool) false) by by vm_compute.
  done.
Qed.

End Conversion.

Lemma convert_irreducible_skips_next_match_witness :
  convert_irreducible (λ _ _, true) 3
    [mkGraph [1; 2] [[1; 2]; [1; 2]; [1; 2]] 1;
     mkGraph [1; 2; 3; 4] [[1; 2]; [2; 3]; [3; 1]; [1; 4]; [2; 4]; [3; 4]] 1;
     mkGraph [1; 2; 3; 4] [[1; 2]; [2; 3]; [3; 1]; [1; 4]; [2; 4]; [3; 4]] 24;
     mkGraph [1; 2] [[1; 2]; [1; 2]; [1; 2]] 6]
    [0; 1]%nat [2; 3]%nat
  = Some (Ok ([mkGraph [1; 2] [[1; 2]; [1; 2]; [1; 2]] 1;
     mkGraph [1; 2; 3; 4] [[1; 2]; [2; 3]; [3; 1]; [1; 4]; [2; 4]; [3; 4]] 1;
     mkGraph [1; 2; 3; 4] [[1; 2]; [2; 3]; [3; 1]; [1; 4]; [2; 4]; [3; 4]] 24;
     mkGraph [1; 2] [[1; 2]; [1; 2]; [1; 2]] 6;
     mkGraph [] [] 6], [1; 4]%nat)).
Proof.
  apply (convert_irreducible_skips_next_match (λ _ _, true)).
  reflexivity.
Defined.


(** * Further properties of the module *)

(** ** [remove_node] *)

(** [remove_node(n)] raises [ValueError] exactly when [n] is not a node.
    Otherwise it drops the first occurrence of [n] from the nodes and every
    edge that contains [n], self-loops and parallel copies included, and
    keeps the other edges in their order and the weight. *)
Theorem remove_node_returns (g : Graph) (n : Z) :
  (n ∉ nodes g → remove_node g n = Raise ValueError)
  ∧ (n ∈ nodes g →
     ∃ l1 l2, nodes g = l1 ++ n :: l2 ∧ (n ∉ l1)
              ∧ remove_node g n
                = Ok (mkGraph (l1 ++ l2) (off_node n (edges g)) (count g))
              ∧ Forall (λ e, n ∉ e) (off_node n (edges g))
              ∧ ∀ e, n ∉ e → py_count e (off_node n (edges g))
                              = py_count e (edges g)).
Proof.
  split.
  - intros Hn. unfold remove_node. by rewrite py_remove_absent.
  - intros Hin. destruct (remove_node_Ok g n Hin) as (ns & Hrm & ->).
    apply py_remove_Ok_inv in Hrm as (l1 & l2 & Heq & Hn & ->).
    exists l1, l2. split_and!; [done..| |].
    + rewrite Forall_forall. intros e. apply off_node_not_at.
    + intros e He. unfold off_node. rewrite !py_count_filter.
      rewrite list_filter_filter. f_equal. apply list_filter_iff.
      intros e'. split; [tauto|]. by intros ->.
Qed.

Lemma remove_node_returns_witness :
  remove_node (mkGraph [1; 2; 1] [[1; 2]; [2; 2]; [1; 2]; [1; 1]; [3]] 7) 1
  = Ok (mkGraph [2; 1] [[2; 2]; [3]] 7)
  ∧ remove_node (mkGraph [2] [[1; 2]] 7) 1 = Raise ValueError.
Proof.
  split.
  - destruct (proj2 (remove_node_returns
                       (mkGraph [1; 2; 1] [[1; 2]; [2; 2]; [1; 2]; [1; 1]; [3]] 7)
                       1)) as (l1 & l2 & _ & _ & H & _).
    + apply (bool_decide_unpack _). vm_compute. exact I.
    + reflexivity.
  - apply (proj1 (remove_node_returns (mkGraph [2] [[1; 2]] 7) 1)).
    apply (bool_decide_unpack _). vm_compute. exact I.
Defined.

(** Once removed from a graph with distinct nodes, [n] is in no edge and in
    no neighbour list of its own, and removing or contracting it again
    raises [ValueError]. *)
Theorem remove_node_gone (g g' : Graph) (n : Z) :
  NoDup (nodes g) → remove_node g n = Ok g' →
  (n ∉ nodes g')
  ∧ Forall (λ e, n ∉ e) (edges g')
  ∧ list_nei g' n = Ok []
  ∧ remove_node g' n = Raise ValueError
  ∧ node_to_edge g' n = Raise ValueError.
Proof.
  intros Hnd (ns & Hrm & ->)%remove_node_Ok_inv.
  destruct (py_remove_NoDup _ _ _ Hrm Hnd) as [_ Hn].
  assert (Forall (λ e, n ∉ e) (off_node n (edges g))) as Hoff.
  { rewrite Forall_forall. intros e. apply off_node_not_at. }
  split_and!; [done|done| | |].
  - unfold list_nei. simpl. clear -Hoff.
    induction Hoff as [|e es He _ IH]; [done|].
    cbn [list_nei_loop]. by rewrite decide_False.
  - unfold remove_node. simpl. by rewrite py_remove_absent.
  - unfold node_to_edge. simpl. by rewrite py_remove_absent.
Qed.

Lemma remove_node_gone_witness :
  list_nei (mkGraph [1; 3] [[1; 3]] 1) 2 = Ok []
  ∧ remove_node (mkGraph [1; 3] [[1; 3]] 1) 2 = Raise ValueError.
Proof.
  destruct (remove_node_gone (mkGraph [1; 2; 3] [[1; 2]; [2; 2]; [1; 3]] 1)
              (mkGraph [1; 3] [[1; 3]] 1) 2) as (_ & _ & H1 & H2 & _).
  - apply (bool_decide_unpack _). vm_compute. exact I.
  - reflexivity.
  - split; [exact H1|exact H2].
Defined.

Lemma py_remove_comm {A} `{EqDecision A} (x y : A) (l : list A) :
  (l1 ← py_remove x l ; py_remove y l1)
  = (l2 ← py_remove y l ; py_remove x l2).
Proof.
  destruct (decide (x = y)) as [-> | Hxy]; [done|].
  induction l as [|z l IH]; [done|]. cbn [py_remove].
  destruct (decide (z = x)) as [Hzx|Hzx], (decide (z = y)) as [Hzy|Hzy].
  - congruence.
  - subst z. cbn [mbind res_bind]. destruct (py_remove y l) as [l'|]; [|done].
    cbn [mbind res_bind py_remove]. by rewrite decide_True.
  - subst z. cbn [mbind res_bind]. destruct (py_remove x l) as [l'|]; [|done].
    cbn [mbind res_bind py_remove]. by rewrite decide_True.
  - destruct (py_remove x l) as [lx|] eqn:Hx, (py_remove y l) as [ly|] eqn:Hy;
      cbn [mbind res_bind py_remove] in *; rewrite ?decide_False by done.
    + by rewrite IH.
    + by rewrite IH.
    + by rewrite <- IH.
    + done.
Qed.

(** Two removals commute, errors included: removing [n] then [m] gives what
    removing [m] then [n] gives. *)
Theorem remove_node_comm (g : Graph) (n m : Z) :
  (g1 ← remove_node g n ; remove_node g1 m)
  = (g2 ← remove_node g m ; remove_node g2 n).
Proof.
  pose proof (py_remove_comm n m (nodes g)) as Hc.
  unfold remove_node.
  destruct (py_remove n (nodes g)) as [ln|] eqn:Hn,
           (py_remove m (nodes g)) as [lm|] eqn:Hm;
    cbn [mbind res_bind] in *;
    rewrite ?remove_node_loop_off by done; cbn [mbind res_bind nodes edges count].
  - rewrite Hc. destruct (py_remove n lm) as [l|]; [|done].
    cbn [mbind res_bind]. rewrite !remove_node_loop_off by done.
    cbn [mbind res_bind]. do 2 f_equal. unfold off_node.
    rewrite !list_filter_filter. apply list_filter_iff. intros e. tauto.
  - by rewrite Hc.
  - by rewrite <- Hc.
  - by injection Hc as ->.
Qed.


(** ** [list_nei] and [all_nei] *)

Lemma list_nei_loop_short n es c :
  ¬ indexable n es → list_nei_loop n es c = Raise IndexError.
Proof.
  revert c. induction es as [|e es IH]; intros c Hix.
  - destruct Hix. constructor.
  - cbn [list_nei_loop]. destruct (decide (n ∈ e)) as [Hin|Hn].
    + destruct (decide (2 ≤ length e)%nat) as [Hlen|Hlen].
      * rewrite other_end_far_end by done. cbn [mbind res_bind].
        apply IH. intros H. apply Hix. by constructor.
      * destruct e as [|a [|b e]]; [by apply elem_of_nil in Hin| |simpl in Hlen; lia].
        apply list_elem_of_singleton in Hin as ->.
        unfold other_end. simpl. by rewrite decide_True.
    + apply IH. intros H. apply Hix. by constructor.
Qed.

Lemma py_count_le {A} `{EqDecision A} (x : A) l : (py_count x l ≤ length l)%nat.
Proof. rewrite py_count_filter. apply length_filter. Qed.

(** [list_nei(n)] returns exactly when every edge that contains [n] has two
    entries, and raises [IndexError] otherwise; [n] need not be a node.  On
    pair edges the list has one entry per edge at [n], in edge order; [n]
    occurs in it once per self-loop [[n, n]]; every other entry [x] comes
    from an edge [[n, x]] or [[x, n]]. *)
Theorem list_nei_returns (g : Graph) (n : Z) :
  (indexable n (edges g) → list_nei g n = Ok (neighbours n (edges g)))
  ∧ (¬ indexable n (edges g) → list_nei g n = Raise IndexError)
  ∧ (pairs (edges g) →
     length (neighbours n (edges g)) = length (at_node n (edges g))
     ∧ py_count n (neighbours n (edges g)) = py_count [n; n] (edges g)
     ∧ ∀ x, x ∈ neighbours n (edges g) →
            [n; x] ∈ edges g ∨ [x; n] ∈ edges g).
Proof.
  split_and!.
  - apply list_nei_Ok.
  - apply list_nei_loop_short.
  - intros Hp. split_and!.
    + apply neighbours_length.
    + unfold neighbours, at_node. induction Hp as [|e es He _ IH]; [done|].
      rewrite filter_cons. cbn [py_count].
      destruct e as [|a [|b [|c e]]]; try done.
      destruct (decide (n ∈ [a; b])) as [Hin|Hn].
      * rewrite fmap_cons. cbn [py_count far_end]. rewrite IH.
        rewrite !elem_of_cons, elem_of_nil in Hin.
        destruct (decide (a = n)) as [-> | Hne].
        -- destruct (decide (b = n)) as [-> | ?].
           ++ by rewrite decide_True.
           ++ rewrite decide_False; [done|]. by intros [= ->].
        -- rewrite decide_False by done.
           rewrite decide_False; [done|]. by intros [= -> _].
      * rewrite decide_False; [done|]. intros [= -> ->]. apply Hn. left.
    + intros x Hx. unfold neighbours, at_node in Hx.
      apply list_elem_of_fmap in Hx as (e & -> & He).
      apply list_elem_of_filter in He as [Hin He].
      unfold pairs in Hp. rewrite Forall_forall in Hp. specialize (Hp e He).
      destruct e as [|a [|b [|c e]]]; try done. simpl.
      rewrite !elem_of_cons, elem_of_nil in Hin.
      destruct (decide (a = n)) as [-> | Hne]; [by left|].
      right. destruct Hin as [->|[->|[]]]; done.
Qed.

Lemma list_nei_returns_witness :
  list_nei (mkGraph [1; 2] [[1; 2]; [1; 1]; [2; 1]; [2; 2]] 1) 1
  = Ok [2; 1; 2]
  ∧ list_nei (mkGraph [1; 2] [[1; 2]; [1]] 1) 1 = Raise IndexError.
Proof.
  split.
  - refine (proj1 (list_nei_returns
                     (mkGraph [1; 2] [[1; 2]; [1; 1]; [2; 1]; [2; 2]] 1) 1) _).
    apply (bool_decide_unpack _). vm_compute. exact I.
  - refine (proj1 (proj2 (list_nei_returns
                     (mkGraph [1; 2] [[1; 2]; [1]] 1) 1)) _).
    apply (bool_decide_unpack _). vm_compute. exact I.
Defined.

Lemma all_nei_loop_Ok g ns acc :
  pairs (edges g) →
  all_nei_loop g ns acc
  = Ok (acc ++ ((λ n, [neighbours n (edges g)]) <$> ns)).
Proof.
  intros Hp. revert acc. induction ns as [|n ns IH]; intros acc; simpl.
  - by rewrite app_nil_r.
  - rewrite list_nei_Ok by by apply pairs_indexable. cbn [mbind res_bind].
    rewrite IH. by rewrite <- app_assoc.
Qed.

(** On pair edges [all_nei] returns, for each node in node order, a list
    whose single entry is the neighbour list of that node. *)
Theorem all_nei_wraps (g : Graph) :
  pairs (edges g) →
  all_nei g = Ok ((λ n, [neighbours n (edges g)]) <$> nodes g)
  ∧ ∀ i n, nodes g !! i = Some n →
           list_nei g n = Ok (neighbours n (edges g))
           ∧ ((λ n, [neighbours n (edges g)]) <$> nodes g) !! i
             = Some [neighbours n (edges g)].
Proof.
  intros Hp. split.
  - unfold all_nei. by rewrite all_nei_loop_Ok.
  - intros i n Hi. split; [by apply list_nei_Ok, pairs_indexable|].
    by rewrite list_lookup_fmap, Hi.
Qed.

Lemma all_nei_wraps_witness :
  all_nei (mkGraph [1; 2] [[1; 2]; [1; 1]] 1) = Ok [[[2; 1]]; [[1]]].
Proof.
  refine (proj1 (all_nei_wraps (mkGraph [1; 2] [[1; 2]; [1; 1]] 1) _)).
  apply (bool_decide_unpack _). vm_compute. exact I.
Defined.

(** Removing a node [m] takes exactly the entries [m] out of the neighbour
    list of every other node: this is what a later node of pass 1 sees of
    an earlier removal. *)
Theorem list_nei_after_remove (g g' : Graph) (n m : Z) :
  pairs (edges g) → n ≠ m → remove_node g m = Ok g' →
  list_nei g' n = Ok (filter (λ x, x ≠ m) (neighbours n (edges g)))
  ∧ list_nei g n = Ok (neighbours n (edges g)).
Proof.
  intros Hp Hne (ns & _ & ->)%remove_node_Ok_inv. split.
  - rewrite list_nei_Ok by by apply pairs_indexable, pairs_off_node.
    f_equal. simpl. unfold neighbours, at_node, off_node.
    induction Hp as [|e es He _ IH]; [done|].
    rewrite !filter_cons.
    destruct e as [|a [|b [|c e]]]; try done.
    destruct (decide (m ∉ [a; b])) as [Hm|Hm].
    + rewrite filter_cons. destruct (decide (n ∈ [a; b])) as [Hn|Hn]; [|done].
      rewrite !fmap_cons, filter_cons, IH. rewrite decide_True; [done|].
      intros Hf. apply Hm. rewrite <- Hf. by apply far_end_elem_of.
    + destruct (decide (n ∈ [a; b])) as [Hn|Hn]; [|done].
      rewrite fmap_cons, filter_cons, IH. rewrite decide_False; [done|].
      intros Hf. apply Hf. simpl.
      apply dec_stable in Hm.
      rewrite !elem_of_cons, elem_of_nil in Hm, Hn.
      destruct (decide (a = n)) as [-> | ?];
        destruct Hm as [->|[->|[]]], Hn as [?|[?|[]]]; congruence.
  - by apply list_nei_Ok, pairs_indexable.
Qed.

Lemma list_nei_after_remove_witness :
  list_nei (mkGraph [1; 3] [[1; 3]; [1; 1]] 1) 1 = Ok [3; 1].
Proof.
  refine (proj1 (list_nei_after_remove
                   (mkGraph [1; 2; 3] [[1; 2]; [1; 3]; [2; 1]; [1; 1]] 1)
                   (mkGraph [1; 3] [[1; 3]; [1; 1]] 1) 1 2 _ _ _)).
  - apply (bool_decide_unpack _). vm_compute. exact I.
  - discriminate.
  - reflexivity.
Defined.


(** ** [__init__] on arbitrary edge lists *)

Lemma add_node_elem_of x y ns : y ∈ add_node x ns ↔ y = x ∨ y ∈ ns.
Proof.
  unfold add_node. destruct (decide (x ∈ ns)) as [Hin|Hn].
  - split; [auto|]. by intros [-> | ?].
  - rewrite elem_of_app, list_elem_of_singleton. tauto.
Qed.

Lemma add_node_NoDup x ns : NoDup ns → NoDup (add_node x ns).
Proof.
  intros Hnd. unfold add_node. destruct (decide (x ∈ ns)); [done|].
  apply NoDup_app. split_and!; [done| |apply NoDup_singleton].
  by intros y Hy ->%list_elem_of_singleton.
Qed.

(** What the loop of [__init__] has established when it returns. *)
Lemma init_loop_Ok_inv es ns ns' :
  init_loop es ns = Ok ns' →
  NoDup ns → Forall (λ x, 0 < x) ns →
  NoDup ns' ∧ Forall (λ x, 0 < x) ns'
  ∧ Forall (λ e, ∃ a b rest, e = a :: b :: rest ∧ 0 < a ∧ 0 < b
                             ∧ a ∈ ns' ∧ b ∈ ns') es
  ∧ (∀ x, x ∈ ns' → x ∈ ns ∨ ∃ e, e ∈ es ∧ (e !! 0%nat = Some x
                                             ∨ e !! 1%nat = Some x))
  ∧ (∀ x, x ∈ ns → x ∈ ns').
Proof.
  revert ns. induction es as [|e es IH]; intros ns H Hnd Hpos.
  - injection H as <-. split_and!; [done..|constructor|auto|auto].
  - cbn [init_loop] in H. destruct e as [|a [|b rest]].
    + done.
    + cbn [getitem lookup list_lookup mbind res_bind] in H.
      by destruct (decide (a ≤ 0)).
    + cbn [getitem lookup list_lookup mbind res_bind] in H.
      destruct (decide (a ≤ 0)); [done|]. destruct (decide (b ≤ 0)); [done|].
      apply IH in H as (Hnd' & Hpos' & Hes & Hfrom & Hkeep).
      * split_and!; [done..| | |].
        -- constructor; [|done]. exists a, b, rest.
           split_and!; [done|lia|lia|..]; apply Hkeep;
             rewrite !add_node_elem_of; auto.
        -- intros x Hx. destruct (Hfrom x Hx) as [Hin|(e & He & Hl)].
           ++ rewrite !add_node_elem_of in Hin.
              destruct Hin as [->|[->|?]]; [| |by left];
                right; exists (a :: b :: rest); (split; [left|]); auto.
           ++ right. exists e. split; [by right|done].
        -- intros x Hx. apply Hkeep. rewrite !add_node_elem_of. auto.
      * by do 2 apply add_node_NoDup.
      * rewrite Forall_forall in *. intros x.
        rewrite !add_node_elem_of. intros [->|[->|?]]; [lia|lia|auto].
Qed.

(** Whatever the edge list, a graph that [Graph(edges, count)] returns has
    these edges and this weight, distinct positive nodes, and for every
    edge at least two entries, the first two of them positive and among
    the nodes; every node is the first or second entry of some edge. *)
Theorem Graph_init_establishes (es : list edge) (c : Z) (g : Graph) :
  Graph_init es c = Ok g →
  edges g = es ∧ count g = c
  ∧ NoDup (nodes g) ∧ positive g
  ∧ Forall (λ e, ∃ a b rest, e = a :: b :: rest ∧ 0 < a ∧ 0 < b
                             ∧ a ∈ nodes g ∧ b ∈ nodes g) es
  ∧ (∀ x, x ∈ nodes g →
          ∃ e, e ∈ es ∧ (e !! 0%nat = Some x ∨ e !! 1%nat = Some x))
  ∧ (pairs es → wf g ∧ (1 ≤ c → inv g)).
Proof.
  unfold Graph_init. destruct (init_loop es []) as [ns|] eqn:Hl; [|done].
  intros [= <-]. simpl.
  destruct (init_loop_Ok_inv es [] ns Hl) as (Hnd & Hpos & Hes & Hfrom & _);
    [constructor..|].
  split_and!; [done..| |].
  - intros x Hx. destruct (Hfrom x Hx) as [Hin|?]; [|done].
    by apply elem_of_nil in Hin.
  - intros Hp.
    assert (closed (mkGraph ns es c)) as Hcl.
    { intros e x He Hx. simpl in *. rewrite Forall_forall in Hes.
      destruct (Hes e He) as (a & b & rest & -> & _ & _ & Ha & Hb).
      unfold pairs in Hp. rewrite Forall_forall in Hp. specialize (Hp _ He).
      destruct rest; [|done].
      rewrite !elem_of_cons, elem_of_nil in Hx.
      destruct Hx as [->|[->|[]]]; done. }
    by split.
Qed.

Lemma Graph_init_establishes_witness :
  wf (mkGraph [3; 1; 2] [[3; 1]; [1; 2]; [3; 3]] 5).
Proof.
  refine (proj1 (proj2 (proj2 (proj2 (proj2 (proj2 (proj2
            (Graph_init_establishes [[3; 1]; [1; 2]; [3; 3]] 5 _ _)))))) _)).
  - reflexivity.
  - apply (bool_decide_unpack _). vm_compute. exact I.
Defined.

Lemma init_loop_app l1 l2 ns :
  valid_edges l1 →
  init_loop (l1 ++ l2) ns
  = init_loop l2 (foldl (λ acc x, add_node x acc) ns (concat l1)).
Proof.
  intros H. revert ns. induction H as [|e es He _ IH]; intros ns; [done|].
  destruct (valid_edge_inv e He) as (a & b & -> & Ha & Hb).
  cbn [app init_loop getitem lookup list_lookup mbind res_bind].
  rewrite !decide_False by lia. by rewrite IH.
Qed.

(** The first edge with fewer than two entries, after valid pairs only,
    decides how [Graph(edges, count)] fails: an empty edge raises
    [IndexError] at [e[0]]; a one-entry edge raises [ValueError] when its
    entry is not positive and [IndexError], at [e[1]], when it is. *)
Theorem Graph_init_short_edge (l1 l2 : list edge) (e : edge) (c : Z) :
  valid_edges l1 → (length e < 2)%nat →
  Graph_init (l1 ++ e :: l2) c
  = Raise (match e with
           | [a] => if decide (a ≤ 0) then ValueError else IndexError
           | _ => IndexError
           end).
Proof.
  intros Hv Hlen. unfold Graph_init. rewrite init_loop_app by done.
  destruct e as [|a [|b e]]; [done| |simpl in Hlen; lia].
  cbn [init_loop getitem lookup list_lookup mbind res_bind].
  by destruct (decide (a ≤ 0)).
Qed.

Lemma Graph_init_short_edge_witness :
  Graph_init [[1; 2]; [3]; [0; 0]] 1 = Raise IndexError
  ∧ Graph_init [[1; 2]; [0]] 1 = Raise ValueError
  ∧ Graph_init [[1; 2]; []] 1 = Raise IndexError.
Proof.
  split_and!.
  - refine (Graph_init_short_edge [[1; 2]] [[0; 0]] [3] 1 _ _).
    + apply (bool_decide_unpack _). vm_compute. exact I.
    + simpl. lia.
  - refine (Graph_init_short_edge [[1; 2]] [] [0] 1 _ _).
    + apply (bool_decide_unpack _). vm_compute. exact I.
    + simpl. lia.
  - refine (Graph_init_short_edge [[1; 2]] [] [] 1 _ _).
    + apply (bool_decide_unpack _). vm_compute. exact I.
    + simpl. lia.
Defined.

(** [__init__] reads the first two entries of an edge and nothing else:
    the nodes, or the exception, are those of the list with every edge cut
    after its second entry. *)
Theorem Graph_init_first_two (es : list edge) (c : Z) :
  Graph_init es c
  = g ← Graph_init (take 2 <$> es) c ; Ok (mkGraph (nodes g) es c).
Proof.
  unfold Graph_init.
  assert (∀ ns, init_loop (take 2 <$> es) ns = init_loop es ns) as ->.
  { induction es as [|e es IH]; intros ns; [done|].
    cbn [fmap list_fmap init_loop].
    destruct e as [|a [|b rest]]; [done|done|].
    cbn [take getitem lookup list_lookup mbind res_bind].
    destruct (decide (a ≤ 0)); [done|]. destruct (decide (b ≤ 0)); [done|].
    apply IH. }
  by destruct (init_loop es []).
Qed.


(** ** [iso_check] *)

Lemma list_nei_Raise g n e : list_nei g n = Raise e → e = IndexError.
Proof.
  destruct (decide (indexable n (edges g))) as [Hix|Hix].
  - by rewrite list_nei_Ok.
  - unfold list_nei. rewrite list_nei_loop_short by done. by intros [= <-].
Qed.

Lemma degrees_Raise g ns e : degrees g ns = Raise e → e = IndexError.
Proof.
  induction ns as [|n ns IH]; [done|]. cbn [degrees].
  destruct (list_nei g n) as [nei|e'] eqn:Hn.
  - cbn [mbind res_bind]. destruct (degrees g ns) as [ds|e'']; [done|].
    cbn [mbind res_bind]. intros [= <-]. by apply IH.
  - cbn [mbind res_bind]. intros [= <-]. by eapply list_nei_Raise.
Qed.

Lemma degrees_edges g g' ns : edges g = edges g' → degrees g ns = degrees g' ns.
Proof.
  intros He. induction ns as [|n ns IH]; [done|].
  cbn [degrees]. unfold list_nei. by rewrite He, IH.
Qed.

Lemma prefilter_sym g1 g2 : prefilter g1 g2 = prefilter g2 g1.
Proof.
  unfold prefilter.
  destruct (decide (length (nodes g1) = length (nodes g2))) as [Hn|Hn].
  - rewrite (decide_True (P := length (nodes g2) = length (nodes g1))) by done.
    destruct (decide (length (edges g1) = length (edges g2))) as [He|He].
    + rewrite (decide_True (P := length (edges g2) = length (edges g1)))
        by done.
      destruct (degrees g1 (nodes g1)) as [d1|e1] eqn:H1,
               (degrees g2 (nodes g2)) as [d2|e2] eqn:H2;
        cbn [mbind res_bind]; try done.
      * f_equal. apply bool_decide_ext. split; congruence.
      * apply degrees_Raise in H1, H2. congruence.
    + by rewrite (decide_False (P := length (edges g2) = length (edges g1))).
  - by rewrite (decide_False (P := length (nodes g2) = length (nodes g1))).
Qed.

Section Isomorphism.
Variable is_isomorphic : MultiGraph → MultiGraph → bool.

(** [iso_check] is symmetric when the exact test is, exceptions included;
    and when the exact test is reflexive, a graph with pair edges is
    isomorphic to itself. *)
Theorem iso_check_sym_refl (g1 g2 : Graph) :
  ((∀ a b, is_isomorphic a b = is_isomorphic b a) →
   iso_check is_isomorphic g1 g2 = iso_check is_isomorphic g2 g1)
  ∧ ((∀ a, is_isomorphic a a = true) → pairs (edges g1) →
     iso_check is_isomorphic g1 g1 = Ok true).
Proof.
  split.
  - intros Hsym. unfold iso_check, iso_check_log. rewrite (prefilter_sym g1 g2).
    destruct (prefilter g2 g1) as [[|]|]; cbn [mbind res_bind]; [|done..].
    rewrite (Hsym (to_multigraph g1)). by destruct (is_isomorphic _ _).
  - intros Hrefl Hp. unfold iso_check, iso_check_log, prefilter.
    rewrite !decide_True by done. rewrite degrees_Ok by done.
    cbn [mbind res_bind]. rewrite bool_decide_eq_true_2 by done.
    by rewrite Hrefl.
Qed.

(** The weights play no part in [iso_check]: two graphs with the nodes and
    edges of [g1] and [g2] get the same answer, the same exception and the
    same call to the exact test. *)
Theorem iso_check_ignores_weight (g1 g2 g1' g2' : Graph) :
  shape_eq g1 g1' → shape_eq g2 g2' →
  iso_check_log is_isomorphic g1 g2 = iso_check_log is_isomorphic g1' g2'
  ∧ iso_check is_isomorphic g1 g2 = iso_check is_isomorphic g1' g2'.
Proof.
  intros [Hn1 He1] [Hn2 He2].
  assert (iso_check_log is_isomorphic g1 g2
          = iso_check_log is_isomorphic g1' g2') as Hlog.
  { unfold iso_check_log, prefilter, to_multigraph.
    rewrite (degrees_edges g1 g1') by done.
    rewrite (degrees_edges g2 g2') by done.
    by rewrite Hn1, Hn2, He1, He2. }
  split; [done|]. unfold iso_check. by rewrite Hlog.
Qed.

End Isomorphism.

Lemma iso_check_sym_refl_witness :
  iso_check (λ _ _, true) (mkGraph [1; 2] [[1; 2]; [1; 1]] 1)
    (mkGraph [1; 2] [[1; 2]; [1; 1]] 1) = Ok true.
Proof.
  refine (proj2 (iso_check_sym_refl (λ _ _, true)
                   (mkGraph [1; 2] [[1; 2]; [1; 1]] 1)
                   (mkGraph [1; 2] [[1; 2]; [1; 1]] 1)) _ _).
  - reflexivity.
  - apply (bool_decide_unpack _). vm_compute. exact I.
Defined.

Lemma iso_check_ignores_weight_witness :
  iso_check (λ _ _, true) (mkGraph [1; 2] [[1; 2]] 5) (mkGraph [3; 4] [[3; 4]] 7)
  = iso_check (λ _ _, true) (mkGraph [1; 2] [[1; 2]] 1) (mkGraph [3; 4] [[3; 4]] 1).
Proof.
  refine (proj2 (iso_check_ignores_weight (λ _ _, true) _ _ _ _ _ _)).
  - split; reflexivity.
  - split; reflexivity.
Defined.


(** ** [add_graph_to_list] *)

Lemma total_weight_app h l1 l2 :
  total_weight h (l1 ++ l2) = total_weight h l1 + total_weight h l2.
Proof.
  unfold total_weight. induction l1 as [|a l1 IH]; simpl; [done|].
  rewrite IH. lia.
Qed.

Lemma total_weight_insert_absent (h : heap) p v l :
  p ∉ l → total_weight (<[p:=v]> h) l = total_weight h l.
Proof.
  unfold total_weight. induction l as [|a l IH]; [done|].
  rewrite not_elem_of_cons. intros [Hne Hn]. simpl.
  rewrite deref_insert_ne by done. by rewrite IH.
Qed.

Lemma total_weight_insert (h : heap) p v l :
  NoDup l → p ∈ l → (p < length h)%nat →
  total_weight (<[p:=v]> h) l
  = total_weight h l - count (deref h p) + count v.
Proof.
  intros Hnd Hin Hp. induction Hnd as [|a l Ha Hnd IH].
  - by apply elem_of_nil in Hin.
  - unfold total_weight in *. simpl.
    apply elem_of_cons in Hin as [-> | Hin].
    + rewrite deref_insert_eq by done.
      fold (total_weight (<[a:=v]> h) l) (total_weight h l).
      rewrite total_weight_insert_absent by done. lia.
    + rewrite deref_insert_ne by (intros ->; done). rewrite IH by done. lia.
Qed.

Section Merge.
Variable is_isomorphic : MultiGraph → MultiGraph → bool.

(** How the scan of [add_graph_to_list] can end. *)
Lemma add_iso_loop_None (h : heap) g scan :
  add_iso_loop is_isomorphic h g scan = Ok None
  ↔ Forall (λ p, iso_check is_isomorphic (deref h g) (deref h p) = Ok false)
      scan.
Proof.
  induction scan as [|p scan IH]; [done|]. cbn [add_iso_loop].
  rewrite Forall_cons, <- IH.
  destruct (iso_check _ _ _) as [[|]|]; cbn [mbind res_bind].
  - split; [done|]. by intros [? _].
  - tauto.
  - split; [done|]. by intros [? _].
Qed.

Lemma add_iso_loop_Some (h : heap) g scan h' :
  add_iso_loop is_isomorphic h g scan = Ok (Some h')
  ↔ ∃ l1 p l2,
      scan = l1 ++ p :: l2
      ∧ Forall (λ q, iso_check is_isomorphic (deref h g) (deref h q) = Ok false)
          l1
      ∧ iso_check is_isomorphic (deref h g) (deref h p) = Ok true
      ∧ h' = <[p := set_count (deref h p)
                      (count (deref h p) + count (deref h g))]> h.
Proof.
  induction scan as [|p scan IH]; cbn [add_iso_loop].
  - split; [done|]. by intros ([|??] & ? & ? & ? & _).
  - destruct (iso_check _ _ (deref h p)) as [[|]|] eqn:Hp; cbn [mbind res_bind].
    + split.
      * intros [= <-]. exists [], p, scan. by split_and!.
      * intros ([|q l1] & p' & l2 & Heq & Hl1 & Hp' & ->).
        -- by injection Heq as -> ->.
        -- injection Heq as -> ->. apply Forall_cons in Hl1 as [Hq _].
           congruence.
    + rewrite IH. split.
      * intros (l1 & p' & l2 & -> & ? & ? & ?).
        exists (p :: l1), p', l2. split_and!; [done| |done..].
        by constructor.
      * intros ([|q l1] & p' & l2 & Heq & Hl1 & Hp' & ->).
        -- injection Heq as -> ->. congruence.
        -- injection Heq as -> ->. apply Forall_cons in Hl1 as [_ Hl1].
           exists l1, p', l2. by split_and!.
    + split; [done|].
      intros ([|q l1] & p' & l2 & Heq & Hl1 & Hp' & ->).
      * injection Heq as -> ->. congruence.
      * injection Heq as -> ->. apply Forall_cons in Hl1 as [Hq _]. congruence.
Qed.

(** Without [add_iso] the graph is appended and no isomorphism test is
    made.  With it, the graph is appended when no entry of the list is
    isomorphic to it; otherwise its weight is added to the first isomorphic
    entry, and to that one only, and the list is left as it is. *)
Theorem add_graph_to_list_first_match (h : heap) (g : obj) (lst : list obj) :
  add_graph_to_list is_isomorphic h g lst false = Ok (h, lst ++ [g])
  ∧ (Forall (λ p, iso_check is_isomorphic (deref h g) (deref h p) = Ok false)
       lst →
     add_graph_to_list is_isomorphic h g lst true = Ok (h, lst ++ [g]))
  ∧ (∀ l1 p l2,
       lst = l1 ++ p :: l2 →
       Forall (λ q, iso_check is_isomorphic (deref h g) (deref h q) = Ok false)
         l1 →
       iso_check is_isomorphic (deref h g) (deref h p) = Ok true →
       add_graph_to_list is_isomorphic h g lst true
       = Ok (<[p := set_count (deref h p)
                       (count (deref h p) + count (deref h g))]> h, lst)).
Proof.
  split_and!; [done| |].
  - intros Hall. unfold add_graph_to_list.
    by rewrite (proj2 (add_iso_loop_None h g lst) Hall).
  - intros l1 p l2 Heq Hl1 Hp. unfold add_graph_to_list.
    erewrite (proj2 (add_iso_loop_Some h g lst _)); [done|].
    exists l1, p, l2. by split_and!.
Qed.

(** [add_graph_to_list] loses no weight: on a list of distinct allocated
    objects, the weight the list carries afterwards is the weight it
    carried plus the weight of the graph, whether the graph was appended or
    merged; no object is allocated. *)
Theorem add_graph_to_list_weight (h : heap) (g : obj) (lst : list obj)
    (add_iso : bool) (h' : heap) (lst' : list obj) :
  NoDup lst → (∀ a, a ∈ lst → (a < length h)%nat) →
  add_graph_to_list is_isomorphic h g lst add_iso = Ok (h', lst') →
  total_weight h' lst' = total_weight h lst + count (deref h g)
  ∧ length h' = length h
  ∧ (lst' = lst ∨ lst' = lst ++ [g]).
Proof.
  intros Hnd Hal. unfold add_graph_to_list.
  assert (total_weight h (lst ++ [g]) = total_weight h lst + count (deref h g))
    as Happ.
  { rewrite total_weight_app. unfold total_weight at 2. simpl. lia. }
  destruct add_iso; [|intros [= <- <-]; auto].
  destruct (add_iso_loop _ h g lst) as [[h1|]|] eqn:Hl; cbn [mbind res_bind];
    [| |done].
  - intros [= <- <-]. apply add_iso_loop_Some in Hl
      as (l1 & p & l2 & -> & _ & _ & ->).
    assert (p ∈ l1 ++ p :: l2) as Hp.
    { rewrite elem_of_app, elem_of_cons. auto. }
    split_and!; [|by rewrite length_insert|by left].
    rewrite total_weight_insert by auto. simpl. lia.
  - intros [= <- <-]. auto.
Qed.

End Merge.

Lemma add_graph_to_list_first_match_witness :
  add_graph_to_list (λ a b, bool_decide (mg_edges a = mg_edges b))
    [mkGraph [1; 2] [[1; 2]] 3; mkGraph [1; 2] [[2; 1]] 5;
     mkGraph [1; 2] [[1; 2]] 7; mkGraph [1; 2] [[1; 2]] 11]
    0%nat [1; 2; 3]%nat true
  = Ok ([mkGraph [1; 2] [[1; 2]] 3; mkGraph [1; 2] [[2; 1]] 5;
         mkGraph [1; 2] [[1; 2]] 10; mkGraph [1; 2] [[1; 2]] 11],
        [1; 2; 3]%nat).
Proof.
  refine (proj2 (proj2 (add_graph_to_list_first_match
                          (λ a b, bool_decide (mg_edges a = mg_edges b))
                          _ 0%nat [1; 2; 3]%nat))
            [1%nat] 2%nat [3%nat] _ _ _).
  - reflexivity.
  - constructor; [reflexivity|constructor].
  - reflexivity.
Defined.

Lemma add_graph_to_list_weight_witness :
  total_weight
    [mkGraph [1; 2] [[1; 2]] 3; mkGraph [1; 2] [[2; 1]] 5;
     mkGraph [1; 2] [[1; 2]] 10; mkGraph [1; 2] [[1; 2]] 11]
    [1; 2; 3]%nat
  = total_weight
      [mkGraph [1; 2] [[1; 2]] 3; mkGraph [1; 2] [[2; 1]] 5;
       mkGraph [1; 2] [[1; 2]] 7; mkGraph [1; 2] [[1; 2]] 11]
      [1; 2; 3]%nat + 3.
Proof.
  refine (proj1 (add_graph_to_list_weight
                   (λ a b, bool_decide (mg_edges a = mg_edges b))
                   [mkGraph [1; 2] [[1; 2]] 3; mkGraph [1; 2] [[2; 1]] 5;
                    mkGraph [1; 2] [[1; 2]] 7; mkGraph [1; 2] [[1; 2]] 11]
                   0%nat [1; 2; 3]%nat true _ _ _ _ _)).
  - apply (bool_decide_unpack _). vm_compute. exact I.
  - intros a Ha. apply (bool_decide_unpack _).
    repeat (apply elem_of_cons in Ha as [-> | Ha]; [vm_compute; exact I|]).
    by apply elem_of_nil in Ha.
  - reflexivity.
Defined.


(** ** [simplify] *)

(** On a well-formed graph [simplify] raises nothing and returns one or two
    well-formed graphs.  With [modified == False] it returns the graph
    itself, unchanged; with [modified == True] every graph it returns has
    strictly fewer nodes than the graph had, and only nodes the graph
    had. *)
Theorem simplify_progress (g : Graph) :
  wf g →
  ∃ gs m,
    simplify g = Ok (gs, m)
    ∧ Forall wf gs
    ∧ (length gs = 1 ∨ length gs = 2)%nat
    ∧ (m = false → gs = [g])
    ∧ (m = true →
       Forall (λ g', (length (nodes g') < length (nodes g))%nat) gs).
Proof.
  intros Hwf. rewrite simplify_reduce by done.
  destruct (reduce_cases g Hwf)
    as [->|[(g' & -> & Hwf' & Hlt)|(g1 & g2 & -> & Hwf1 & Hwf2 & Hlt1 & Hlt2)]].
  - exists [g], false. split_and!; [done| |by left|done|done].
    by apply Forall_singleton.
  - exists [g'], true. split_and!; [done| |by left|done|].
    + by apply Forall_singleton.
    + intros _. by apply Forall_singleton.
  - exists [g1; g2], true. split_and!; [done| |by right|done|].
    + rewrite !Forall_cons, Forall_nil. tauto.
    + intros _. rewrite !Forall_cons, Forall_nil. tauto.
Qed.

Lemma simplify_progress_witness :
  ∃ gs m,
    simplify (mkGraph [1; 2; 3] [[1; 2]; [2; 3]; [3; 1]] 1) = Ok (gs, m)
    ∧ Forall wf gs.
Proof.
  destruct (simplify_progress (mkGraph [1; 2; 3] [[1; 2]; [2; 3]; [3; 1]] 1))
    as (gs & m & H1 & H2 & _).
  - apply (bool_decide_unpack _). vm_compute. exact I.
  - exists gs, m. split; [exact H1|exact H2].
Defined.

Lemma filter_first_match {A} (P : A → Prop) `{∀ x, Decision (P x)} l1 x l2 :
  Forall (λ y, ¬ P y) l1 → P x → ∃ l, filter P (l1 ++ x :: l2) = x :: l.
Proof.
  intros Hl1 Hx. rewrite filter_app, filter_cons_True by done.
  exists (filter P l2).
  replace (filter P l1) with (@nil A); [done|].
  induction Hl1 as [|y l Hy _ IH]; [done|]. by rewrite filter_cons_False.
Qed.

(** The fork of pass 2 is taken at the first node, in node order, that has
    degree 2 and no loop once pass 1 is over, and at that node only.  The
    two graphs returned are the graph of pass 1 with that node removed and
    with that node contracted; both carry the weight pass 1 left; the edge
    the contraction appends is a pair; and the flag is [True] whatever
    pass 1 did. *)
Theorem simplify_forks_first_ambiguous
    (g g' : Graph) (m : bool) (l1 l2 : list Z) (n : Z) :
  wf g →
  pass1 (nodes g) g false = Ok (g', m) →
  nodes g' = l1 ++ n :: l2 →
  Forall (λ x, ¬ ambiguous g' x) l1 →
  ambiguous g' n →
  ∃ g1 g2,
    simplify g = Ok ([g1; g2], true)
    ∧ remove_node g' n = Ok g1
    ∧ node_to_edge g' n = Ok g2
    ∧ count g1 = count g' ∧ count g2 = count g'
    ∧ nodes g1 = l1 ++ l2 ∧ nodes g2 = l1 ++ l2
    ∧ ∃ a b, edges g2 = edges g1 ++ [[a; b]]
             ∧ neighbours n (edges g') = [a; b].
Proof.
  intros Hwf Hp1 Hnodes Hl1 Hamb. pose proof Hwf as (_ & _ & _ & Hnd).
  pose proof Hp1 as Hp1'. rewrite pass1_sweep in Hp1' by done.
  injection Hp1' as Hsw.
  pose proof (sweep_wf (nodes g) g false Hwf (reflexivity _) Hnd) as Hwf'.
  rewrite Hsw in Hwf'. simpl in Hwf'.
  pose proof Hwf' as (_ & _ & Hp' & Hnd').
  assert (n ∈ nodes g') as Hin.
  { rewrite Hnodes, elem_of_app, elem_of_cons. auto. }
  destruct (filter_first_match (ambiguous g') l1 n l2 Hl1 Hamb) as [l Hf].
  rewrite <- Hnodes in Hf.
  exists (delete_node g' n), (contract_node g' n).
  assert (filter (λ x, x ≠ n) (nodes g') = l1 ++ l2) as Hrest.
  { pose proof (py_remove_NoDup_filter n _ Hnd' Hin) as Hrm.
    rewrite Hnodes in Hrm at 1. rewrite py_remove_middle in Hrm.
    - by injection Hrm as <-.
    - rewrite Hnodes in Hnd'. apply NoDup_app in Hnd' as (_ & Hd & _).
      intros Hn1. apply (Hd n Hn1). left. }
  destruct Hamb as [Hdeg Hloops].
  pose proof (bridge_length n _ Hp') as Hbl. unfold degree, loops in *.
  assert (bridge n (edges g') = neighbours n (edges g')) as Hbridge.
  { unfold bridge, neighbours. f_equal.
    assert (Forall (λ e, ¬ is_loop e) (at_node n (edges g'))) as Hnl.
    { rewrite Forall_forall. intros e He Hloop.
      pose proof He as He'. apply list_elem_of_filter in He' as [Hne He'].
      unfold pairs in Hp'. rewrite Forall_forall in Hp'.
      apply (far_end_pair_loop n e Hne (Hp' e He')) in Hloop.
      assert (n ∈ neighbours n (edges g')) as Hin'.
      { unfold neighbours. apply list_elem_of_fmap. eauto. }
      clear -Hin' Hloops. induction (neighbours n (edges g')) as [|x l IH];
        [by apply elem_of_nil in Hin'|].
      simpl in Hloops. destruct (decide (x = n)); [done|].
      apply elem_of_cons in Hin' as [-> | ?]; auto. }
    clear -Hnl. induction Hnl as [|e l He _ IH]; [done|].
    by rewrite filter_cons_True, IH. }
  destruct (neighbours n (edges g')) as [|a [|b [|? ?]]] eqn:Hnb; try done.
  split_and!.
  - unfold simplify. rewrite Hp1. cbn [mbind res_bind].
    rewrite pass2_fork by done. by rewrite Hf.
  - by apply remove_node_delete.
  - apply node_to_edge_contract; [done..|by apply pairs_indexable].
  - done.
  - done.
  - done.
  - done.
  - exists a, b. simpl. by rewrite Hbridge.
Qed.

Lemma simplify_forks_first_ambiguous_witness :
  simplify (mkGraph [1; 2; 3] [[1; 2]; [2; 3]; [3; 1]] 1)
  = Ok ([mkGraph [2; 3] [[2; 3]] 1; mkGraph [2; 3] [[2; 3]; [2; 3]] 1], true).
Proof.
  destruct (simplify_forks_first_ambiguous
              (mkGraph [1; 2; 3] [[1; 2]; [2; 3]; [3; 1]] 1)
              (mkGraph [1; 2; 3] [[1; 2]; [2; 3]; [3; 1]] 1)
              false [] [2; 3] 1)
    as (g1 & g2 & H & H1 & H2 & _).
  - apply (bool_decide_unpack _). vm_compute. exact I.
  - reflexivity.
  - reflexivity.
  - constructor.
  - apply (bool_decide_unpack _). vm_compute. exact I.
  - injection H1 as <-. injection H2 as <-. exact H.
Defined.


Lemma pass1_weight snapshot g m g' m' :
  pass1 snapshot g m = Ok (g', m') → ∃ k, 1 ≤ k ∧ count g' = count g * k.
Proof.
  revert g m. induction snapshot as [|n rest IH]; intros g m.
  - intros [= <- <-]. exists 1. lia.
  - cbn [pass1]. destruct (list_nei g n) as [nei|]; [|done].
    cbn [mbind res_bind]. destruct (choices _ _) as [w|] eqn:Hc.
    + destruct (remove_node _ n) as [g1|] eqn:Hrm; [|done].
      cbn [mbind res_bind]. intros (k & Hk & ->)%IH.
      apply remove_node_Ok_inv in Hrm as (ns & _ & ->). simpl.
      apply choices_ge in Hc. exists (w * k). split; [nia|lia].
    + destruct (decide _).
      * destruct (node_to_edge g n) as [g1|] eqn:Hrm; [|done].
        cbn [mbind res_bind]. intros (k & Hk & ->)%IH.
        apply node_to_edge_Ok_inv in Hrm as (_ & ns & _ & ->). simpl. eauto.
      * apply IH.
Qed.

Lemma pass2_weight snapshot ns g g1 g2 :
  pass2 snapshot ns g = Ok (Some (g1, g2)) →
  count g1 = count g ∧ count g2 = count g.
Proof.
  induction snapshot as [|n rest IH]; [done|].
  cbn [pass2]. destruct (list_nei g n) as [nei|]; [|done].
  cbn [mbind res_bind]. destruct (decide _); [|done].
  destruct (Graph_init (edges g) (count g)) as [g0|] eqn:Hg0; [|done].
  cbn [mbind res_bind]. apply Graph_init_Ok_inv in Hg0 as [He Hc].
  destruct (remove_node _ n) as [g1'|] eqn:H1; [|done].
  destruct (node_to_edge _ n) as [g2'|] eqn:H2; [|done].
  intros [= <- <-].
  apply remove_node_Ok_inv in H1 as (? & _ & ->).
  apply node_to_edge_Ok_inv in H2 as (_ & ? & _ & ->). by simpl.
Qed.

(** [simplify] only multiplies weights: whatever the graph, the weight of
    every graph it returns is the weight the graph had times a factor of at
    least 1 (a product of table entries), and the two graphs of a fork carry
    the same weight. *)
Theorem simplify_weight (g : Graph) (gs : list Graph) (m : bool) :
  simplify g = Ok (gs, m) →
  ∃ k, 1 ≤ k ∧ Forall (λ g', count g' = count g * k) gs.
Proof.
  unfold simplify.
  destruct (pass1 (nodes g) g false) as [[g' m']|] eqn:Hp1; [|done].
  cbn [mbind res_bind]. apply pass1_weight in Hp1 as (k & Hk & Hc).
  destruct (pass2 _ _ g') as [[[g1 g2]|]|] eqn:Hp2; [| |done].
  - apply pass2_weight in Hp2 as [H1 H2]. intros [= <- <-].
    exists k. split; [done|]. rewrite !Forall_cons, Forall_nil.
    split_and!; [congruence..|done].
  - intros [= <- <-]. exists k. split; [done|]. by apply Forall_singleton.
Qed.

Lemma simplify_weight_witness :
  ∃ k, 1 ≤ k
       ∧ Forall (λ g', count g' = 5 * k) [mkGraph [] [] 90].
Proof.
  refine (simplify_weight (mkGraph [1; 2] [[1; 2]] 5) _ true _).
  reflexivity.
Defined.

(** ** Irreducible graphs *)

Lemma choices_None_high c l : (3 ≤ c)%nat → choices c l = None.
Proof. intros H. by destruct c as [|[|[|c]]]; try lia. Qed.

Lemma rule_idle_iff g n :
  (rule g n).2 = false ∧ ¬ ambiguous g n
  ↔ (3 ≤ degree g n)%nat ∧ ¬ (degree g n = 3%nat ∧ loops g n = 1%nat).
Proof.
  pose proof (py_count_le n (neighbours n (edges g))) as Hle.
  fold (loops g n) (degree g n) in Hle.
  unfold rule, ambiguous. split.
  - intros [Hr Ha].
    destruct (choices (degree g n) (loops g n)) as [w|] eqn:Hc; [done|].
    destruct (decide _) as [?|Hn31]; [done|]. split; [|done].
    destruct (degree g n) as [|[|[|c]]], (loops g n) as [|[|[|l]]];
      simpl in *; try done; lia.
  - intros [H3 Hn31]. rewrite choices_None_high by done.
    rewrite decide_False by done. split; [done|]. lia.
Qed.

(** A well-formed graph is irreducible, that is, [simplify] returns
    [modified == False] on it, exactly when every node has degree at least
    3 and no node has degree 3 with one self-loop. *)
Theorem irreducible_iff_min_degree (g : Graph) :
  wf g →
  irreducible g
  ↔ Forall (λ n, (3 ≤ degree g n)%nat
                 ∧ ¬ (degree g n = 3%nat ∧ loops g n = 1%nat)) (nodes g).
Proof.
  intros Hwf.
  assert (quiet g
          ↔ Forall (λ n, (rule g n).2 = false ∧ ¬ ambiguous g n) (nodes g))
    as Hq.
  { unfold quiet. rewrite Forall_and. apply and_iff_compat_l.
    generalize (nodes g). intros l.
    induction l as [|n l IH]; [split; [constructor|done]|].
    rewrite filter_cons, Forall_cons.
    destruct (decide (ambiguous g n)); [|by rewrite IH; tauto].
    split; [done|]. by intros [? _]. }
  split.
  - intros Hirr. apply irreducible_quiet, Hq in Hirr; [|done].
    eapply Forall_impl; [done|]. intros n. by apply rule_idle_iff.
  - intros Hall. apply quiet_irreducible; [done|]. apply Hq.
    eapply Forall_impl; [done|]. intros n. by apply rule_idle_iff.
Qed.

Lemma irreducible_iff_min_degree_witness :
  irreducible (mkGraph [1; 2] [[1; 2]; [1; 2]; [1; 2]] 1).
Proof.
  refine (proj2 (irreducible_iff_min_degree
                   (mkGraph [1; 2] [[1; 2]; [1; 2]; [1; 2]] 1) _) _).
  - apply (bool_decide_unpack _). vm_compute. exact I.
  - apply (bool_decide_unpack _). vm_compute. exact I.
Defined.


(** ** [convert_irreducible] *)

Lemma skip_scan_no_match mt (h : heap) ahead cnt m :
  Forall (λ g, mt g = None) ahead → skip_scan mt h ahead cnt m = (ahead, cnt, m).
Proof.
  induction 1 as [|g r Hg _ IH]; [done|]. cbn [skip_scan]. by rewrite Hg, IH.
Qed.

Lemma skip_scan_app_no_match mt (h : heap) l1 ahead cnt m :
  Forall (λ g, mt g = None) l1 →
  skip_scan mt h (l1 ++ ahead) cnt m
  = let '(l, c, m') := skip_scan mt h ahead cnt m in (l1 ++ l, c, m').
Proof.
  induction 1 as [|g r Hg _ IH]; simpl.
  - by destruct (skip_scan mt h ahead cnt m) as [[??]?].
  - rewrite Hg, IH. by destruct (skip_scan mt h ahead cnt m) as [[??]?].
Qed.

Section Substitution.
Variable is_isomorphic : MultiGraph → MultiGraph → bool.

Lemma convert_loop_end fuel (h : heap) irr i lst cnt m :
  lst !! i = None →
  convert_loop is_isomorphic (S fuel) h irr i lst cnt m = Some (Ok (lst, cnt, m)).
Proof. intros Hi. cbn [convert_loop]. by rewrite Hi. Qed.

Lemma convert_loop_scan (mt : obj → option obj) (fuel : nat) (h : heap)
    (irr done ahead : list obj) (cnt : Z) (m : bool) :
  NoDup (done ++ ahead) →
  (∀ g, g ∈ ahead → find_irr is_isomorphic h g irr = Ok (mt g)) →
  (length ahead < fuel)%nat →
  convert_loop is_isomorphic fuel h irr (length done) (done ++ ahead) cnt m
  = Some (Ok (let '(l, c, m') := skip_scan mt h ahead cnt m in
              (done ++ l, c, m'))).
Proof.
  revert done ahead cnt m.
  induction fuel as [|fuel IH]; intros done ahead cnt m Hnd Hmt Hfuel; [lia|].
  destruct ahead as [|g r].
  - rewrite convert_loop_end; [done|].
    apply lookup_ge_None. rewrite app_nil_r. lia.
  - cbn [convert_loop skip_scan].
    rewrite list_lookup_middle by done.
    rewrite (Hmt g) by left.
    assert (∀ x, x ∈ r → find_irr is_isomorphic h x irr = Ok (mt x)) as Hmt'.
    { intros x Hx. apply Hmt. by right. }
    simpl in Hfuel.
    destruct (mt g) as [p|].
    + assert (g ∉ done) as Hg.
      { apply NoDup_app in Hnd as (_ & Hd & _). intros Hin.
        apply (Hd g Hin). left. }
      rewrite py_remove_middle by done.
      assert (NoDup (done ++ r)) as Hnd'.
      { apply NoDup_app in Hnd as (H1 & Hd & H2).
        apply NoDup_cons in H2 as [_ H2]. apply NoDup_app.
        split_and!; [done| |done]. intros x Hx Hr. apply (Hd x Hx). by right. }
      destruct r as [|x r'].
      * destruct fuel; [lia|]. rewrite convert_loop_end; [done|].
        apply lookup_ge_None. rewrite app_nil_r. lia.
      * replace (done ++ x :: r') with ((done ++ [x]) ++ r')
          by by rewrite <- app_assoc.
        replace (S (length done)) with (length (done ++ [x]))
          by (rewrite length_app; simpl; lia).
        rewrite (IH (done ++ [x]) r').
        -- destruct (skip_scan mt h r' _ true) as [[l c] m'].
           by rewrite <- app_assoc.
        -- by rewrite <- app_assoc.
        -- intros y Hy. apply Hmt'. by right.
        -- simpl in Hfuel. lia.
    + replace (done ++ g :: r) with ((done ++ [g]) ++ r)
        by by rewrite <- app_assoc.
      replace (S (length done)) with (length (done ++ [g]))
        by (rewrite length_app; simpl; lia).
      rewrite (IH (done ++ [g]) r).
      * destruct (skip_scan mt h r cnt m) as [[l c] m'].
        by rewrite <- app_assoc.
      * by rewrite <- app_assoc.
      * done.
      * lia.
Qed.

(** The outer loop of [convert_irreducible] on a list of distinct objects,
    with enough fuel for its length: a class isomorphic to a reference
    entry is removed and the product of its weight and the value of the
    first such entry is multiplied into the accumulator; the class that
    followed it in the list is kept without being compared; every other
    class is compared in list order. *)
Theorem convert_loop_skip_scan (mt : obj → option obj) (h : heap)
    (irr lst : list obj) :
  NoDup lst →
  (∀ g, g ∈ lst → find_irr is_isomorphic h g irr = Ok (mt g)) →
  convert_loop is_isomorphic (S (length lst)) h irr 0 lst 1 false
  = Some (Ok (skip_scan mt h lst 1 false)).
Proof.
  intros Hnd Hmt.
  pose proof (convert_loop_scan mt (S (length lst)) h irr [] lst 1 false
                Hnd Hmt) as Hloop.
  cbn [length app] in Hloop. rewrite Hloop by lia.
  by destruct (skip_scan mt h lst 1 false) as [[??]?].
Qed.

(** When no class is isomorphic to a reference entry, and in particular
    when [irr] is empty, [convert_irreducible] returns the list as it is and
    allocates nothing. *)
Theorem convert_irreducible_no_match (fuel : nat) (h : heap)
    (lst irr : list obj) :
  NoDup lst →
  (∀ g, g ∈ lst → find_irr is_isomorphic h g irr = Ok None) →
  (length lst < fuel)%nat →
  convert_irreducible is_isomorphic fuel h lst irr = Some (Ok (h, lst)).
Proof.
  intros Hnd Hno Hfuel. unfold convert_irreducible.
  destruct irr as [|p irr]; [done|].
  pose proof (convert_loop_scan (λ _, None) fuel h (p :: irr) [] lst 1
                false Hnd Hno Hfuel) as Hloop.
  cbn [length app] in Hloop. rewrite Hloop.
  rewrite skip_scan_no_match; [done|]. by apply Forall_true.
Qed.

(** When exactly one class [g], of weight [w], is isomorphic to a reference
    entry, of value [v], and no class has zero nodes, [convert_irreducible]
    takes [g] out of the list and appends a new graph without nodes or
    edges of weight [v * w]; the other classes keep their place. *)
Theorem convert_irreducible_single_match (h : heap) (irr l1 l2 : list obj)
    (g p : obj) :
  NoDup (l1 ++ g :: l2) →
  (∀ q, q ∈ l1 ++ g :: l2 → (q < length h)%nat) →
  find_irr is_isomorphic h g irr = Ok (Some p) →
  (∀ q, q ∈ l1 ++ l2 →
        find_irr is_isomorphic h q irr = Ok None ∧ nodes (deref h q) ≠ []) →
  convert_irreducible is_isomorphic (S (length (l1 ++ g :: l2))) h
    (l1 ++ g :: l2) irr
  = Some (Ok (h ++ [mkGraph [] [] (count (deref h p) * count (deref h g))],
              l1 ++ l2 ++ [length h])).
Proof.
  intros Hnd Hal Hg Hrest. unfold convert_irreducible.
  destruct irr as [|p0 irr]; [done|].
  assert (g ∉ l1 ++ l2) as Hgn.
  { apply NoDup_app in Hnd as (_ & Hd & H2). apply NoDup_cons in H2 as [? _].
    intros [?|?]%elem_of_app; [|done]. apply (Hd g); [done|left]. }
  set (mt := λ q : nat, if decide (q = g) then Some p else None).
  pose proof (convert_loop_scan mt (S (length (l1 ++ g :: l2))) h
                (p0 :: irr) [] (l1 ++ g :: l2) 1 false Hnd) as Hloop.
  cbn [length app] in Hloop. rewrite Hloop; [|
    intros q Hq; unfold mt; destruct (decide (q = g)) as [-> | Hne]; [done|];
    apply Hrest; rewrite elem_of_app in Hq |- *;
    rewrite elem_of_cons in Hq; tauto|lia].
  assert (∀ l, l ⊆ l1 ++ l2 → Forall (λ q, mt q = None) l) as Hnone.
  { intros l Hl. rewrite Forall_forall. intros q Hq. unfold mt.
    rewrite decide_False; [done|]. intros ->. by apply Hgn, Hl. }
  rewrite skip_scan_app_no_match
    by (apply Hnone; intros y Hy; apply elem_of_app; by left).
  cbn [skip_scan]. unfold mt at 1. rewrite decide_True by done.
  assert (skip_scan mt h (g :: l2) 1 false
          = (l2, count (deref h p) * count (deref h g), true)) as Hscan.
  { cbn [skip_scan]. unfold mt at 1. rewrite decide_True by done.
    rewrite Z.mul_1_l. destruct l2 as [|x r']; [done|].
    rewrite skip_scan_no_match; [done|]. apply Hnone.
    intros y Hy. apply elem_of_app. right. by right. }
  cbn [skip_scan] in Hscan. unfold mt at 1 in Hscan.
  rewrite decide_True in Hscan by done. rewrite Hscan.
  cbn [Graph_init init_loop mbind res_bind alloc]. f_equal.
  set (new := mkGraph [] [] _). set (h' := h ++ [new]).
  unfold add_graph_to_list.
  rewrite (proj2 (add_iso_loop_None is_isomorphic h' (length h) (l1 ++ l2))).
  - cbn [mbind res_bind]. by rewrite <- app_assoc.
  - rewrite Forall_forall. intros q Hq.
    unfold iso_check, iso_check_log, prefilter, h'.
    rewrite deref_app_new.
    rewrite deref_app_l.
    + rewrite decide_False; [done|]. simpl.
      destruct (Hrest q Hq) as [_ Hn]. by destruct (nodes (deref h q)).
    + apply Hal. rewrite elem_of_app in Hq |- *. rewrite elem_of_cons. tauto.
Qed.

End Substitution.

Lemma convert_loop_skip_scan_witness :
  convert_loop (λ _ _, true) 3
    [mkGraph [1; 2] [[1; 2]; [1; 2]; [1; 2]] 1;
     mkGraph [1; 2; 3; 4] [[1; 2]; [2; 3]; [3; 1]; [1; 4]; [2; 4]; [3; 4]] 1;
     mkGraph [1; 2; 3; 4] [[1; 2]; [2; 3]; [3; 1]; [1; 4]; [2; 4]; [3; 4]] 24;
     mkGraph [1; 2] [[1; 2]; [1; 2]; [1; 2]] 6]
    [2; 3]%nat 0 [0; 1]%nat 1 false
  = Some (Ok ([1%nat], 6, true)).
Proof.
  refine (convert_loop_skip_scan (λ _ _, true)
            (λ q, match q with
                  | O => Some 3%nat
                  | S O => Some 2%nat
                  | _ => None
                  end) _ [2; 3]%nat [0; 1]%nat _ _).
  - apply (bool_decide_unpack _). vm_compute. exact I.
  - intros g Hg.
    apply elem_of_cons in Hg as [-> | Hg]; [reflexivity|].
    apply elem_of_cons in Hg as [-> | Hg]; [reflexivity|].
    by apply elem_of_nil in Hg.
Defined.

Lemma convert_irreducible_no_match_witness :
  convert_irreducible (λ _ _, true) 2
    [mkGraph [1; 2] [[1; 2]; [1; 2]; [1; 2]] 1;
     mkGraph [1; 2; 3; 4] [[1; 2]; [2; 3]; [3; 1]; [1; 4]; [2; 4]; [3; 4]] 24]
    [0%nat] [1%nat]
  = Some (Ok ([mkGraph [1; 2] [[1; 2]; [1; 2]; [1; 2]] 1;
               mkGraph [1; 2; 3; 4]
                 [[1; 2]; [2; 3]; [3; 1]; [1; 4]; [2; 4]; [3; 4]] 24],
              [0%nat])).
Proof.
  refine (convert_irreducible_no_match (λ _ _, true) 2 _ [0%nat] [1%nat] _ _ _).
  - apply (bool_decide_unpack _). vm_compute. exact I.
  - intros g Hg. apply elem_of_cons in Hg as [-> | Hg]; [reflexivity|].
    by apply elem_of_nil in Hg.
  - simpl. lia.
Defined.

Lemma convert_irreducible_single_match_witness :
  convert_irreducible (λ _ _, true) 3
    [mkGraph [1; 2] [[1; 2]; [1; 2]; [1; 2]] 5;
     mkGraph [1; 2; 3; 4] [[1; 2]; [2; 3]; [3; 1]; [1; 4]; [2; 4]; [3; 4]] 1;
     mkGraph [1; 2] [[1; 2]; [1; 2]; [1; 2]] 6]
    [0; 1]%nat [2%nat]
  = Some (Ok ([mkGraph [1; 2] [[1; 2]; [1; 2]; [1; 2]] 5;
               mkGraph [1; 2; 3; 4]
                 [[1; 2]; [2; 3]; [3; 1]; [1; 4]; [2; 4]; [3; 4]] 1;
               mkGraph [1; 2] [[1; 2]; [1; 2]; [1; 2]] 6;
               mkGraph [] [] 30],
              [1; 3]%nat)).
Proof.
  refine (convert_irreducible_single_match (λ _ _, true) _ [2%nat] [] [1%nat]
            0%nat 2%nat _ _ _ _).
  - apply (bool_decide_unpack _). vm_compute. exact I.
  - intros q Hq. apply (bool_decide_unpack _).
    apply elem_of_cons in Hq as [-> | Hq]; [vm_compute; exact I|].
    apply elem_of_cons in Hq as [-> | Hq]; [vm_compute; exact I|].
    by apply elem_of_nil in Hq.
  - reflexivity.
  - intros q Hq. apply elem_of_cons in Hq as [-> | Hq].
    + split; [reflexivity|discriminate].
    + by apply elem_of_nil in Hq.
Defined.


(** ** What [main] returns *)

Lemma simplify_obj_inv (h : heap) a h' gl m :
  Forall inv h → simplify_obj h a = Ok (h', gl, m) → Forall inv h'.
Proof.
  intros Hh. unfold simplify_obj.
  destruct (pass1 _ (deref h a) false) as [[g' m']|] eqn:Hp1; [|done].
  cbn [mbind res_bind].
  apply pass1_inv in Hp1; [|by apply deref_inv].
  destruct (pass2 _ _ g') as [[[g1 g2]|]|] eqn:Hp2; [| |done];
    cbn [mbind res_bind alloc].
  - apply pass2_inv in Hp2 as [H1 H2]; [|done]. intros [= <- _ _].
    rewrite !Forall_app, !Forall_singleton. split_and!; [|done..].
    by apply Forall_insert.
  - intros [= <- _ _]. by apply Forall_insert.
Qed.

Section Output.
Variable is_isomorphic : MultiGraph → MultiGraph → bool.

Lemma iso_check_shape g1 g2 g1' g2' :
  shape_eq g1 g1' → shape_eq g2 g2' →
  iso_check is_isomorphic g1 g2 = iso_check is_isomorphic g1' g2'.
Proof.
  intros [Hn1 He1] [Hn2 He2].
  unfold iso_check, iso_check_log, prefilter, to_multigraph.
  rewrite (degrees_edges g1 g1') by done.
  rewrite (degrees_edges g2 g2') by done.
  by rewrite Hn1, Hn2, He1, He2.
Qed.

Lemma add_graph_to_list_inv (h : heap) g lst b h' lst' :
  Forall inv h →
  add_graph_to_list is_isomorphic h g lst b = Ok (h', lst') → Forall inv h'.
Proof.
  intros Hh. unfold add_graph_to_list. destruct b; [|by intros [= <- _]].
  destruct (add_iso_loop _ _ _ _) as [[h1|]|] eqn:Hl; [| |done].
  - intros [= <- _]. by eapply add_iso_loop_inv.
  - by intros [= <- _].
Qed.

Lemma add_all_inv (h : heap) gl queue h' queue' :
  Forall inv h →
  add_all is_isomorphic h gl queue = Ok (h', queue') → Forall inv h'.
Proof.
  revert h queue. induction gl as [|g gl IH]; intros h queue Hh.
  - by intros [= <- _].
  - cbn [add_all].
    destruct (add_graph_to_list _ h g queue true) as [[h1 q1]|] eqn:Ha; [|done].
    cbn [mbind res_bind]. apply IH. by eapply add_graph_to_list_inv.
Qed.

Lemma distinct_classes_shape (gs gs' : list Graph) :
  Forall2 shape_eq gs gs' →
  distinct_classes is_isomorphic gs → distinct_classes is_isomorphic gs'.
Proof.
  intros Hs Hd i j a' b' Hij Ha Hb.
  destruct (Forall2_lookup_r _ _ _ _ _ Hs Ha) as (a & Ha0 & Hsa).
  destruct (Forall2_lookup_r _ _ _ _ _ Hs Hb) as (b & Hb0 & Hsb).
  rewrite <- (iso_check_shape b a b' a') by done. by apply (Hd i j).
Qed.

Lemma distinct_classes_snoc (gs : list Graph) g :
  distinct_classes is_isomorphic gs →
  Forall (λ p, iso_check is_isomorphic g p = Ok false) gs →
  distinct_classes is_isomorphic (gs ++ [g]).
Proof.
  intros Hd Hg i j a b Hij Ha Hb.
  pose proof (lookup_lt_Some _ _ _ Hb) as Hj.
  rewrite length_app in Hj. simpl in Hj.
  rewrite lookup_app_l in Ha by lia.
  destruct (decide (j < length gs)%nat).
  - rewrite lookup_app_l in Hb by done. by apply (Hd i j).
  - rewrite lookup_app_r in Hb by lia.
    replace (j - length gs)%nat with 0%nat in Hb by lia. injection Hb as <-.
    rewrite Forall_forall in Hg. apply Hg. by eapply list_elem_of_lookup_2.
Qed.

(** What one iteration of the [for] loop of [main] does to the heap and to
    [final]. *)
Lemma process_final s g l1 l2 :
  state_ok s → st_queue s = l1 ++ g :: l2 →
  Forall inv (st_heap s) →
  distinct_classes is_isomorphic (deref (st_heap s) <$> st_final s) →
  ∃ s', process is_isomorphic s g = Ok s'
        ∧ Forall inv (st_heap s')
        ∧ distinct_classes is_isomorphic (deref (st_heap s') <$> st_final s').
Proof.
  destruct s as [h queue final]. simpl. intros Hok -> Hinv Hdist.
  pose proof Hok as (Hal & Hnd & Hwf & Hq). simpl in *.
  apply NoDup_app in Hnd as (Hndq & Hqf & Hndf).
  apply NoDup_app in Hndq as (Hnd1 & H12 & Hnd2).
  apply NoDup_cons in Hnd2 as [Hg2 Hnd2].
  assert (g ∉ l1) as Hg1 by (intros Hin; apply (H12 g Hin); left).
  assert (g ∈ (l1 ++ g :: l2) ++ final) as Hin_g.
  { rewrite !elem_of_app, elem_of_cons. auto. }
  assert (∀ b, b ∈ final → b ≠ g ∧ (b < length h)%nat) as Hfin.
  { intros b Hb. split.
    - intros ->. apply (Hqf g); [|done]. rewrite elem_of_app, elem_of_cons. auto.
    - apply Hal. rewrite elem_of_app. auto. }
  unfold process. cbn [st_queue st_heap st_final].
  rewrite py_remove_middle by done. cbn [mbind res_bind].
  destruct (simplify_obj_cases h g (Hal g Hin_g) (Hwf g Hin_g))
    as (h1 & gl & m & Hsimp & Hlen & Hframe & Hgl & Hndgl & Hfalse & Htrue).
  rewrite Hsimp. cbn [mbind res_bind].
  pose proof (simplify_obj_inv h g h1 gl m Hinv Hsimp) as Hinv1.
  destruct m.
  - destruct (add_all_cases is_isomorphic h1 gl (l1 ++ l2))
      as (h2 & new & Hadd & Hs & Hsub).
    { intros p Hp. apply elem_of_app in Hp as [Hp|Hp].
      - apply wf_pairs. by apply Hgl.
      - rewrite Hframe.
        + apply wf_pairs, Hwf. rewrite !elem_of_app, elem_of_cons.
          apply elem_of_app in Hp. tauto.
        + intros ->. apply elem_of_app in Hp as [?|?]; done.
        + apply Hal. rewrite !elem_of_app, elem_of_cons.
          apply elem_of_app in Hp. tauto. }
    rewrite Hadd. cbn [mbind res_bind]. eexists. split; [done|].
    cbn [st_heap st_final]. split; [by eapply add_all_inv|].
    eapply distinct_classes_shape; [|done].
    apply Forall2_fmap, Forall_Forall2_diag. rewrite Forall_forall.
    intros b Hb. destruct (Hfin b Hb) as [? ?].
    rewrite <- (Hframe b) by done. apply Hs.
  - destruct (Hfalse eq_refl) as (-> & -> & Hquiet).
    cbn [getitem lookup list_lookup mbind res_bind].
    assert (pairs (edges (deref h g))) as Hpg by (apply wf_pairs; auto).
    assert (∀ p, p ∈ final → pairs (edges (deref h p))) as Hpf.
    { intros p Hp. apply wf_pairs, Hwf. rewrite elem_of_app. auto. }
    unfold add_graph_to_list.
    destruct (add_iso_loop_cases is_isomorphic h g final Hpg Hpf)
      as [Hnone|(p & Hp & Hsome)].
    + rewrite Hnone. cbn [mbind res_bind]. eexists. split; [done|].
      cbn [st_heap st_final]. split; [done|].
      rewrite fmap_app. apply distinct_classes_snoc; [done|].
      apply add_iso_loop_None in Hnone. by rewrite Forall_fmap.
    + rewrite Hsome. cbn [mbind res_bind]. eexists. split; [done|].
      cbn [st_heap st_final]. split.
      * eapply add_iso_loop_inv; [|done]. done.
      * eapply distinct_classes_shape; [|done].
        apply Forall2_fmap, Forall_Forall2_diag. rewrite Forall_forall.
        intros b Hb. apply same_shapes_set_count.
Qed.

Lemma for_queue_output fuel k i s s' :
  state_ok s → Forall inv (st_heap s) →
  distinct_classes is_isomorphic (deref (st_heap s) <$> st_final s) →
  for_queue is_isomorphic fuel k i s = Some (Ok s') →
  state_ok s' ∧ Forall inv (st_heap s')
  ∧ distinct_classes is_isomorphic (deref (st_heap s') <$> st_final s').
Proof.
  revert i s. induction fuel as [|fuel IH]; intros i s Hok Hinv Hd; [done|].
  cbn [for_queue]. destruct (st_queue s !! i) as [g|] eqn:Hi.
  - pose proof (take_drop_middle _ _ _ Hi) as Hsplit.
    destruct (selected k _).
    + destruct (process_ok is_isomorphic s g _ _ Hok (eq_sym Hsplit))
        as (s1 & new & Hp & Hok1 & _).
      destruct (process_final s g _ _ Hok (eq_sym Hsplit) Hinv Hd)
        as (s1' & Hp' & Hinv1 & Hd1).
      rewrite Hp in Hp'. injection Hp' as <-. rewrite Hp. by apply IH.
    + by apply IH.
  - by intros [= <-].
Qed.

Lemma while_queue_output fuel s s' :
  state_ok s → Forall inv (st_heap s) →
  distinct_classes is_isomorphic (deref (st_heap s) <$> st_final s) →
  while_queue is_isomorphic fuel s = Some (Ok s') →
  state_ok s' ∧ Forall inv (st_heap s')
  ∧ distinct_classes is_isomorphic (deref (st_heap s') <$> st_final s').
Proof.
  revert s. induction fuel as [|fuel IH]; intros s Hok Hinv Hd; [done|].
  cbn [while_queue]. destruct (st_queue s) as [|g q] eqn:Hq.
  - by intros [= <-].
  - rewrite <- Hq.
    destruct (for_queue _ fuel _ 0 s) as [[s1|]|] eqn:Hfor; [|done..].
    apply for_queue_output in Hfor as (Hok1 & Hinv1 & Hd1); [|done..].
    by apply IH.
Qed.

Lemma main_output (init : list edge) (fuel : nat) :
  valid_edges init →
  (3 ^ (2 * length init) + 2 ≤ fuel)%nat →
  ∃ final,
    main is_isomorphic fuel init = Some (Ok final)
    ∧ Forall (λ g, wf g ∧ inv g) final
    ∧ distinct_classes is_isomorphic final.
Proof.
  intros Hvalid Hfuel. unfold main.
  rewrite Graph_init_first_seen by done.
  set (ig := mkGraph (first_seen (concat init)) init 1).
  pose proof (initial_graph_wf init 1 Hvalid) as Hwf. fold ig in Hwf.
  assert (state_ok (mkState [ig] [0%nat] [])) as Hok0.
  { split_and!; cbn [st_heap st_queue st_final].
    - intros a ->%list_elem_of_singleton. simpl. lia.
    - apply NoDup_singleton.
    - by intros a ->%list_elem_of_singleton.
    - by intros a ?%elem_of_nil. }
  destruct (while_queue_ok is_isomorphic fuel (mkState [ig] [0%nat] []) Hok0)
    as (s & Hw & _).
  { cbn [st_heap st_queue]. rewrite load_cons. unfold load.
    change (deref [ig] 0) with ig. cbn [sum_list_with nodes ig].
    pose proof (first_seen_length (concat init)) as Hlen.
    rewrite valid_edges_concat_length in Hlen by done.
    pose proof (pow3_le _ _ Hlen). lia. }
  rewrite Hw.
  apply while_queue_output in Hw as ((Hal & Hnd & Hwfs & Hq) & Hinv & Hd).
  - eexists. split; [done|]. split; [|done].
    rewrite Forall_fmap, Forall_forall. intros a Ha. simpl. split.
    + apply Hwfs, elem_of_app. by right.
    + by apply deref_inv.
  - done.
  - cbn [st_heap]. apply Forall_singleton.
    destruct Hwf as (? & ? & _). by split_and!.
  - by intros i j a b _ Ha.
Qed.

(** Every graph [main] returns for a valid edge list satisfies the
    data-model invariant: its edges are pairs of its nodes, its nodes are
    distinct and positive, and its weight is at least 1. *)
Theorem main_output_well_formed (init : list edge) (fuel : nat) :
  valid_edges init →
  (3 ^ (2 * length init) + 2 ≤ fuel)%nat →
  ∃ final,
    main is_isomorphic fuel init = Some (Ok final)
    ∧ Forall (λ g, closed g ∧ positive g ∧ pairs (edges g)
                   ∧ NoDup (nodes g) ∧ 1 ≤ count g) final.
Proof.
  intros Hvalid Hfuel.
  destruct (main_output init fuel Hvalid Hfuel) as (final & Hm & Hall & _).
  exists final. split; [done|]. eapply Forall_impl; [done|].
  intros g [(? & ? & ? & ?) (_ & _ & ?)]. by split_and!.
Qed.

(** [main] returns one graph per class: no graph of its result is
    isomorphic, for [iso_check], to a graph before it in the list.  This
    needs nothing of the exact test. *)
Theorem main_output_distinct (init : list edge) (fuel : nat) :
  valid_edges init →
  (3 ^ (2 * length init) + 2 ≤ fuel)%nat →
  ∃ final,
    main is_isomorphic fuel init = Some (Ok final)
    ∧ ∀ i j a b, (i < j)%nat → final !! i = Some a → final !! j = Some b →
                 iso_check is_isomorphic b a = Ok false.
Proof.
  intros Hvalid Hfuel.
  destruct (main_output init fuel Hvalid Hfuel) as (final & Hm & _ & Hd).
  by exists final.
Qed.

(** A list of pairs with an endpoint that is not positive makes [main]
    raise [ValueError] before any reduction, whatever the fuel. *)
Theorem main_invalid_input (ps : list (Z * Z)) (fuel : nat) :
  Exists bad_pair ps →
  main is_isomorphic fuel (pair_edge <$> ps) = Some (Raise ValueError).
Proof.
  intros Hbad. unfold main, Graph_init. rewrite init_loop_pairs.
  by rewrite decide_True.
Qed.

End Output.

Lemma main_output_well_formed_witness :
  ∃ final,
    main (λ _ _, true) 731 [[1; 2]; [2; 3]; [3; 1]] = Some (Ok final)
    ∧ Forall (λ g, closed g ∧ positive g ∧ pairs (edges g)
                   ∧ NoDup (nodes g) ∧ 1 ≤ count g) final.
Proof.
  refine (main_output_well_formed (λ _ _, true) [[1; 2]; [2; 3]; [3; 1]] 731
            _ _).
  - apply (bool_decide_unpack _). vm_compute. exact I.
  - apply (bool_decide_unpack _). vm_compute. exact I.
Defined.

Lemma main_output_distinct_witness :
  ∃ final,
    main (λ _ _, true) 731 [[1; 2]; [2; 3]; [3; 1]] = Some (Ok final)
    ∧ ∀ i j a b, (i < j)%nat → final !! i = Some a → final !! j = Some b →
                 iso_check (λ _ _, true) b a = Ok false.
Proof.
  refine (main_output_distinct (λ _ _, true) [[1; 2]; [2; 3]; [3; 1]] 731
            _ _).
  - apply (bool_decide_unpack _). vm_compute. exact I.
  - apply (bool_decide_unpack _). vm_compute. exact I.
Defined.

Lemma main_invalid_input_witness :
  main (λ _ _, true) 0 [[1; 2]; [2; 0]] = Some (Raise ValueError).
Proof.
  refine (main_invalid_input (λ _ _, true) [(1, 2); (2, 0)] 0 _).
  apply (bool_decide_unpack _). vm_compute. exact I.
Defined.


(** ** When [node_to_edge] raises *)

Lemma node_to_edge_loop_short n copy live nei :
  at_node n live = at_node n copy → ¬ indexable n copy →
  node_to_edge_loop n copy live nei = Raise IndexError.
Proof.
  revert live nei. induction copy as [|e copy IH]; intros live nei Heq Hix.
  - destruct Hix. constructor.
  - cbn [node_to_edge_loop]. unfold at_node in Heq at 2.
    rewrite filter_cons in Heq.
    destruct (decide (n ∈ e)) as [Hin|Hn].
    + destruct (at_node_head _ _ _ _ Hin Heq) as (live' & -> & H1 & _).
      cbn [mbind res_bind].
      destruct e as [|a [|b e]]; [by apply elem_of_nil in Hin|done|].
      cbn [getitem lookup list_lookup mbind res_bind].
      assert (¬ indexable n copy) as Hix'.
      { intros H. apply Hix. constructor; [simpl; lia|done]. }
      destruct (decide (a = b)); [by apply IH|].
      rewrite other_end_far_end by (done || simpl; lia).
      cbn [mbind res_bind]. by apply IH.
    + apply IH; [done|]. intros H. apply Hix. by constructor.
Qed.

(** [node_to_edge(n)] raises [ValueError] when [n] is not a node,
    [IndexError] when [n] is a node and some edge that contains it has
    fewer than two entries, and returns in every other case. *)
Theorem node_to_edge_raises (g : Graph) (n : Z) :
  (n ∉ nodes g → node_to_edge g n = Raise ValueError)
  ∧ (n ∈ nodes g → ¬ indexable n (edges g) →
     node_to_edge g n = Raise IndexError)
  ∧ (n ∈ nodes g → indexable n (edges g) →
     ∃ g', node_to_edge g n = Ok g')
  ∧ (∀ g', node_to_edge g n = Ok g' → n ∈ nodes g ∧ indexable n (edges g)).
Proof.
  split_and!.
  - intros Hn. unfold node_to_edge. by rewrite py_remove_absent.
  - intros Hin Hix. unfold node_to_edge.
    destruct (py_remove_split n _ Hin) as (l1 & l2 & _ & _ & ->).
    cbn [mbind res_bind]. by rewrite node_to_edge_loop_short.
  - intros Hin Hix. destruct (node_to_edge_Ok g n Hin Hix) as (ns & _ & ->).
    eauto.
  - intros g' H. pose proof H as (Hix & ns & Hrm & _)%node_to_edge_Ok_inv.
    split; [|done]. destruct (decide (n ∈ nodes g)) as [|Hn]; [done|].
    by rewrite py_remove_absent in Hrm.
Qed.

Lemma node_to_edge_raises_witness :
  node_to_edge (mkGraph [1] [[1; 2]] 1) 2 = Raise ValueError
  ∧ node_to_edge (mkGraph [1; 2] [[1; 2]; [2]] 1) 2 = Raise IndexError.
Proof.
  split.
  - refine (proj1 (node_to_edge_raises (mkGraph [1] [[1; 2]] 1) 2) _).
    apply (bool_decide_unpack _). vm_compute. exact I.
  - refine (proj1 (proj2 (node_to_edge_raises
                            (mkGraph [1; 2] [[1; 2]; [2]] 1) 2)) _ _).
    + apply (bool_decide_unpack _). vm_compute. exact I.
    + apply (bool_decide_unpack _). vm_compute. exact I.
Defined.

(** ** The test of the [for] loop of [main] *)

Lemma foldl_min_elem_of ds d : foldl Nat.min d ds ∈ d :: ds.
Proof.
  revert d. induction ds as [|y ds IH]; intros d; simpl; [left|].
  specialize (IH (d `min` y)%nat).
  apply elem_of_cons in IH as [-> | IH]; [|by do 2 right].
  destruct (Nat.min_spec d y) as [[_ ->]|[_ ->]]; [left|right; left].
Qed.

(** Which graphs the [for] loop of [main] takes.  When all graphs of the
    queue have the same number of nodes, all of them; otherwise, with [mn]
    the smallest number of nodes in the queue, all of them when [mn] is 0
    and exactly those with more than [mn] nodes when it is not.  In each
    case at least one graph of a non-empty queue is taken. *)
Theorem threshold_selects (h : heap) (queue : list obj) :
  let dims := dimensions h queue in
  ((length (remove_dups dims) ≤ 1)%nat →
   ∀ n, selected (threshold dims) n = true)
  ∧ ((1 < length (remove_dups dims))%nat →
     ∃ mn, mn ∈ dims ∧ (∀ d, d ∈ dims → (mn ≤ d)%nat)
           ∧ ∀ n, selected (threshold dims) n = true
                  ↔ mn = 0%nat ∨ (mn < n)%nat)
  ∧ (queue ≠ [] →
     ∃ g, g ∈ queue
          ∧ selected (threshold dims) (length (nodes (deref h g))) = true).
Proof.
  intros dims. split_and!.
  - intros Hle n. unfold threshold. by rewrite decide_False by lia.
  - intros Hlt. unfold threshold. rewrite decide_True by done.
    destruct dims as [|d ds] eqn:Hd; [simpl in Hlt; lia|].
    exists (foldl Nat.min d ds). split_and!.
    + apply foldl_min_elem_of.
    + intros x Hx. destruct (foldl_min_le ds d) as [H0 Hall].
      apply elem_of_cons in Hx as [-> | Hx]; auto.
    + intros n. unfold selected. destruct (foldl Nat.min d ds) as [|mn].
      * split; [by left|done].
      * rewrite bool_decide_eq_true. split; [by right|].
        by intros [?|?].
  - intros Hne. destruct (some_selected h queue Hne) as (j & g & Hj & Hsel).
    exists g. split; [by eapply list_elem_of_lookup_2|done].
Qed.

Lemma threshold_selects_witness :
  ∃ g, g ∈ [0; 1]%nat
       ∧ selected
           (threshold (dimensions [mkGraph [1; 2] [[1; 2]] 1;
                                   mkGraph [1] [[1; 1]] 1] [0; 1]%nat))
           (length (nodes (deref [mkGraph [1; 2] [[1; 2]] 1;
                                  mkGraph [1] [[1; 1]] 1] g))) = true.
Proof.
  refine (proj2 (proj2 (threshold_selects
                          [mkGraph [1; 2] [[1; 2]] 1; mkGraph [1] [[1; 1]] 1]
                          [0; 1]%nat)) _).
  discriminate.
Defined.

(** ** The edge list a graph is built from *)

(** [self.edges = edges] keeps the list it is given: after
    [g = Graph(edges, count)] and [g.remove_node(n)], the list of the
    caller has lost the edges that contain [n], and every other list of
    the store is as it was. *)
Theorem Graph_new_keeps_list (st st' : DefaultArg.store) (a : nat) (c n : Z)
    (g g' : DefaultArg.GraphRef) :
  (a < length st)%nat →
  DefaultArg.Graph_new st (Some a) c = Ok g →
  DefaultArg.remove_node_ref st g n = Ok (st', g') →
  DefaultArg.r_edges g = a
  ∧ st' !!! a = off_node n (st !!! a)
  ∧ (∀ b, b ≠ a → st' !!! b = st !!! b)
  ∧ length st' = length st.
Proof.
  intros Ha. unfold DefaultArg.Graph_new. simpl.
  destruct (init_loop (st !!! a) []) as [ns|]; [|done].
  intros [= <-]. unfold DefaultArg.remove_node_ref. simpl.
  destruct (py_remove n ns) as [ns'|]; [|done]. cbn [mbind res_bind].
  rewrite remove_node_loop_off by done. cbn [mbind res_bind].
  intros [= <- <-]. split_and!; [done| | |].
  - by apply list_lookup_total_insert_eq.
  - intros b Hb. by apply list_lookup_total_insert_ne.
  - apply length_insert.
Qed.

Lemma Graph_new_keeps_list_witness :
  (<[1%nat := [[2; 3]]]> ([[]; [[1; 2]; [2; 3]]] : DefaultArg.store))
    !!! 1%nat = [[2; 3]].
Proof.
  destruct (Graph_new_keeps_list [[]; [[1; 2]; [2; 3]]]
              (<[1%nat := [[2; 3]]]> [[]; [[1; 2]; [2; 3]]]) 1%nat 7 1
              (DefaultArg.mkGraphRef [1; 2; 3] 1 7)
              (DefaultArg.mkGraphRef [2; 3] 1 7)) as (_ & H & _).
  - simpl. lia.
  - reflexivity.
  - reflexivity.
  - exact H.
Defined.


(** ** Degrees *)

Lemma sum_indicator (a : Z) (ns : list Z) :
  NoDup ns → a ∈ ns →
  sum_list_with (λ n, if decide (n = a) then 1 else 0)%nat ns = 1%nat.
Proof.
  intros Hnd. induction Hnd as [|x ns Hx Hnd IH]; intros Hin.
  - by apply elem_of_nil in Hin.
  - simpl. destruct (decide (x = a)) as [-> | Hne].
    + assert (sum_list_with (λ n, if decide (n = a) then 1 else 0)%nat ns
              = 0%nat) as ->; [|done].
      clear -Hx. induction ns as [|y ns IH]; [done|].
      apply not_elem_of_cons in Hx as [? ?]. simpl.
      rewrite decide_False by done. auto.
    + apply elem_of_cons in Hin as [-> | Hin]; [done|]. by rewrite IH.
Qed.

Lemma sum_at_edge (a b : Z) (ns : list Z) :
  NoDup ns → a ∈ ns → b ∈ ns →
  sum_list_with (λ n, if decide (n ∈ [a; b]) then 1 else 0)%nat ns
  = (if decide (a = b) then 1 else 2)%nat.
Proof.
  intros Hnd Ha Hb.
  assert (sum_list_with (λ n, if decide (n ∈ [a; b]) then 1 else 0)%nat ns
          = if decide (a = b)
            then sum_list_with (λ n, if decide (n = a) then 1 else 0)%nat ns
            else (sum_list_with (λ n, if decide (n = a) then 1 else 0) ns
                  + sum_list_with (λ n, if decide (n = b) then 1 else 0) ns)%nat)
    as ->.
  { clear. induction ns as [|x ns IH]; [by destruct (decide (a = b))|].
    simpl. rewrite IH. clear IH.
    destruct (decide (a = b)) as [-> | Hne].
    - destruct (decide (x = b)) as [-> | ?].
      + rewrite decide_True; [done|]. left.
      + rewrite decide_False; [done|].
        rewrite !elem_of_cons, elem_of_nil. tauto.
    - destruct (decide (x = a)) as [Hxa|Hxa], (decide (x = b)) as [Hxb|Hxb].
      + congruence.
      + subst x. rewrite decide_True by left. lia.
      + subst x. rewrite decide_True by (right; left). lia.
      + rewrite decide_False; [lia|].
        rewrite !elem_of_cons, elem_of_nil. tauto. }
  rewrite !sum_indicator by done. by destruct (decide (a = b)).
Qed.

Lemma degree_sum (ns : list Z) (es : list edge) :
  NoDup ns → pairs es → (∀ e x, e ∈ es → x ∈ e → x ∈ ns) →
  (sum_list_with (λ n, length (at_node n es)) ns
   + length (filter is_loop es) = 2 * length es)%nat.
Proof.
  intros Hnd Hp. induction Hp as [|e es He Hp IH]; intros Hcl.
  - simpl. clear. induction ns as [|x ns IH]; [done|]. simpl. lia.
  - destruct e as [|a [|b [|??]]]; try done.
    assert (a ∈ ns) as Ha by (apply (Hcl [a; b]); [left|left]).
    assert (b ∈ ns) as Hb by (apply (Hcl [a; b]); [left|right; left]).
    assert (sum_list_with (λ n, length (at_node n ([a; b] :: es))) ns
            = (sum_list_with (λ n, if decide (n ∈ [a; b]) then 1 else 0) ns
               + sum_list_with (λ n, length (at_node n es)) ns)%nat) as ->.
    { clear. induction ns as [|x ns IH]; [done|]. simpl. rewrite IH.
      unfold at_node at 1. rewrite filter_cons.
      destruct (decide (x ∈ [a; b])); simpl; fold (at_node x es); lia. }
    rewrite sum_at_edge by done. rewrite filter_cons. simpl.
    specialize (IH (λ e x He, Hcl e x (list_elem_of_further _ _ _ He))).
    destruct (decide (a = b)); simpl; lia.
Qed.

(** In a well-formed graph the lengths of the neighbour lists add up to
    twice the number of edges minus the number of self-loops: a self-loop
    gives its node one entry, every other edge gives one entry to each of
    its two ends. *)
Theorem list_nei_lengths_sum (g : Graph) :
  wf g →
  degrees g (nodes g) = Ok (degree g <$> nodes g)
  ∧ (sum_list (degree g <$> nodes g) + length (filter is_loop (edges g))
     = 2 * length (edges g))%nat.
Proof.
  intros (Hcl & _ & Hp & Hnd). split; [by apply degrees_Ok|].
  rewrite <- (degree_sum (nodes g) (edges g) Hnd Hp Hcl). f_equal.
  generalize (nodes g). intros ns. induction ns as [|x ns IH]; [done|].
  cbn [fmap list_fmap sum_list_with]. rewrite <- IH.
  unfold degree at 1. by rewrite neighbours_length.
Qed.

Lemma list_nei_lengths_sum_witness :
  degrees (mkGraph [1; 2] [[1; 2]; [1; 1]; [2; 1]] 1) [1; 2] = Ok [3; 2]%nat.
Proof.
  refine (proj1 (list_nei_lengths_sum
                   (mkGraph [1; 2] [[1; 2]; [1; 1]; [2; 1]] 1) _)).
  apply (bool_decide_unpack _). vm_compute. exact I.
Defined.
